(** * Lead Dataset Builder: a shallow embedding of the collection pipeline

    The development follows the Python sources module by module:
    - [PyStr]          the [str] methods the program calls;
    - [UrlLib]         [urllib.parse.urlparse], as far as the program reads it;
    - [Places]         utils/places.py (normalisation, Place Details, retry,
                       the places of a niche in a city);
    - [OsmPlaces]      utils/osm_places.py (normalisation, Overpass elements,
                       bounding boxes, the places of a niche in a city);
    - [EmailExtractor] utils/email_extractor.py;
    - [Main]           main.py (checkpoint store, exporter, orchestrator);
    - [ApiGenerate]    api/generate.py (the request handler);
    - [Spec], [Props]  the vocabulary of the statements;
    - [Sample]         worked inputs.

    Part I holds the definitions, Part II the lemmas and theorems.

    Strings are Rocq [string]s: sequences of code points below 256, which is
    the range in which [str.lower], [str.strip] and the regular expressions
    of the program are modelled.  Numbers that the program only passes on
    (coordinates, ratings, the seconds of a pause) are carried by their
    text; what [time.sleep] does with a number is given by a [clock]. *)

From Stdlib Require Import Ascii String ZArith Lia Bool DecimalString.
From stdpp Require Import gmap strings list fin_maps.

Local Open Scope bool_scope.

(* ===================================================================== *)
(** * Part I.  The embedding                                              *)
(* ===================================================================== *)

(** ** Python [str] methods *)
Module PyStr.

(** Truthiness of a [str]: the empty string is falsy. *)
Definition truthy (s : string) : bool :=
  match s with EmptyString => false | String _ _ => true end.

Definition code (c : ascii) : N := N_of_ascii c.

Definition between (lo hi : N) (c : ascii) : bool :=
  (lo <=? code c)%N && (code c <=? hi)%N.

(** [str.isspace] on one code point below 256. *)
Definition is_space (c : ascii) : bool :=
  between 9 13 c || between 28 32 c || (code c =? 133)%N || (code c =? 160)%N.

Definition is_upper (c : ascii) : bool :=
  between 65 90 c || (between 192 222 c && negb (code c =? 215)%N).

Definition is_alpha_ascii (c : ascii) : bool :=
  between 65 90 c || between 97 122 c.

Definition is_digit (c : ascii) : bool := between 48 57 c.

Definition lower_char (c : ascii) : ascii :=
  if is_upper c then ascii_of_N (code c + 32) else c.

(** [s.lower()] *)
Fixpoint lower (s : string) : string :=
  match s with
  | EmptyString => EmptyString
  | String c s' => String (lower_char c) (lower s')
  end.

(** [s.lstrip(chars)], the set of characters given as a predicate. *)
Fixpoint lstrip_with (p : ascii -> bool) (s : string) : string :=
  match s with
  | EmptyString => EmptyString
  | String c s' => if p c then lstrip_with p s' else s
  end.

(** [s.rstrip(chars)] *)
Fixpoint rstrip_with (p : ascii -> bool) (s : string) : string :=
  match s with
  | EmptyString => EmptyString
  | String c s' =>
      match rstrip_with p s' with
      | EmptyString => if p c then EmptyString else String c EmptyString
      | String d r => String c (String d r)
      end
  end.

Definition strip_with (p : ascii -> bool) (s : string) : string :=
  rstrip_with p (lstrip_with p s).

(** [s.strip()] *)
Definition strip (s : string) : string := strip_with is_space s.

(** [s.startswith(p)] *)
Fixpoint startswith (s p : string) : bool :=
  match p, s with
  | EmptyString, _ => true
  | String _ _, EmptyString => false
  | String a p', String b s' => Ascii.eqb a b && startswith s' p'
  end.

(** [sub in s] *)
Fixpoint contains (sub s : string) : bool :=
  match s with
  | EmptyString => startswith EmptyString sub
  | String _ s' => startswith s sub || contains sub s'
  end.

(** [s.endswith(p)] *)
Fixpoint endswith (s p : string) : bool :=
  match s with
  | EmptyString => String.eqb p EmptyString
  | String _ s' => String.eqb s p || endswith s' p
  end.

(** [s.split(c)] for a one-character separator. *)
Fixpoint split_char (c : ascii) (s : string) : list string :=
  match s with
  | EmptyString => [EmptyString]
  | String a s' =>
      if Ascii.eqb a c then EmptyString :: split_char c s'
      else match split_char c s' with
           | h :: t => String a h :: t
           | [] => [String a EmptyString]
           end
  end.

(** [s.split(c)[0]] and [s.split(c)[-1]] *)
Definition split_first (c : ascii) (s : string) : string :=
  hd EmptyString (split_char c s).
Definition split_last (c : ascii) (s : string) : string :=
  List.last (split_char c s) EmptyString.

(** [s.rsplit(c, 1)] when [c] occurs in [s]: the parts around the last
    occurrence; [None] when [c] does not occur. *)
Fixpoint rsplit1 (c : ascii) (s : string) : option (string * string) :=
  match s with
  | EmptyString => None
  | String a s' =>
      match rsplit1 c s' with
      | Some (l, r) => Some (String a l, r)
      | None => if Ascii.eqb a c then Some (EmptyString, s') else None
      end
  end.

(** [s.split(c, 1)] when [c] occurs in [s]: the parts around the first
    occurrence. *)
Fixpoint split1 (c : ascii) (s : string) : option (string * string) :=
  match s with
  | EmptyString => None
  | String a s' =>
      if Ascii.eqb a c then Some (EmptyString, s')
      else match split1 c s' with
           | Some (l, r) => Some (String a l, r)
           | None => None
           end
  end.

(** [s.replace(old, new)] for a non-empty [old]: occurrences are found from
    the left and do not overlap.  [skip] counts the characters of a match
    still to be dropped. *)
Fixpoint replace_go (old new : string) (skip : nat) (s : string) : string :=
  match s with
  | EmptyString => EmptyString
  | String a s' =>
      match skip with
      | S k => replace_go old new k s'
      | O =>
          if startswith s old
          then new +:+ replace_go old new (String.length old - 1) s'
          else String a (replace_go old new 0 s')
      end
  end.
Definition replace (old new s : string) : string := replace_go old new 0 s.

(** [sep.join(l)] *)
Definition join (sep : string) (l : list string) : string := String.concat sep l.

(** [s[:n]] and [s[n:]] *)
Fixpoint take (n : nat) (s : string) : string :=
  match n, s with
  | S k, String a s' => String a (take k s')
  | _, _ => EmptyString
  end.
Fixpoint drop (n : nat) (s : string) : string :=
  match n, s with
  | S k, String _ s' => drop k s'
  | _, _ => s
  end.

Fixpoint forallb_str (p : ascii -> bool) (s : string) : bool :=
  match s with
  | EmptyString => true
  | String a s' => p a && forallb_str p s'
  end.

Fixpoint remove_chars (p : ascii -> bool) (s : string) : string :=
  match s with
  | EmptyString => EmptyString
  | String a s' => if p a then remove_chars p s' else String a (remove_chars p s')
  end.

End PyStr.

(** ** Results of fallible code *)

Inductive exn := ValueError | AttributeError | SystemExit | OtherError.

Inductive result (A : Type) :=
| Ok (a : A)
| Raise (e : exn).
Arguments Ok {A} a.
Arguments Raise {A} e.

(** ** [time.sleep] *)

(** A clock: [sleep secs] is what [time.sleep(secs)] does, the number of
    seconds being carried by its text.  The call returns after the pause, or
    raises and pauses nothing: [ValueError] for a negative number or nan,
    [OverflowError] for a number beyond the range of the clock. *)
Definition clock : Type := string -> result unit.

(** ** [urllib.parse.urlparse], as the program relies on it *)
Module UrlLib.
Import PyStr.

Record ParseResult := {
  scheme : string;
  netloc : string;
  path : string;
  params : string;
  query : string;
  fragment : string
}.

Definition one_of (chars : string) (c : ascii) : bool :=
  contains (String c EmptyString) chars.

Definition scheme_char (c : ascii) : bool :=
  is_alpha_ascii c || is_digit c || one_of "+-." c.

(** The characters [urlsplit] strips on the left (C0 controls and space)
    and the ones it removes everywhere (tab, carriage return, newline). *)
Definition c0_or_space (c : ascii) : bool := (code c <=? 32)%N.
Definition unsafe_byte (c : ascii) : bool :=
  (code c =? 9)%N || (code c =? 13)%N || (code c =? 10)%N.

(** The longest prefix without a character of [p], and what follows. *)
Fixpoint span_until (p : ascii -> bool) (s : string) : string * string :=
  match s with
  | EmptyString => (EmptyString, EmptyString)
  | String a s' =>
      if p a then (EmptyString, s)
      else let '(l, r) := span_until p s' in (String a l, r)
  end.

Definition split_scheme (url : string) : string * string :=
  match split1 ":" url with
  | Some (String a pre, post) =>
      if is_alpha_ascii a && forallb_str scheme_char (String a pre)
      then (lower (String a pre), post)
      else (EmptyString, url)
  | _ => (EmptyString, url)
  end.

Definition uses_params : list string :=
  [""; "ftp"; "hdl"; "prospero"; "http"; "imap"; "https"; "shttp"; "rtsp";
   "rtspu"; "sip"; "sips"; "mms"; "sftp"; "tel"].

(** [_splitparams(url)], called when [";"] occurs in [url]. *)
Definition _splitparams (url : string) : string * string :=
  match rsplit1 "/" url with
  | Some (dir, last) =>
      match split1 ";" last with
      | Some (l, r) => (dir +:+ "/" +:+ l, r)
      | None => (url, EmptyString)
      end
  | None =>
      match split1 ";" url with
      | Some (l, r) => (l, r)
      | None => (url, EmptyString)
      end
  end.

(** [urlparse(url)].  [Raise ValueError] is the "Invalid IPv6 URL" error of a
    network location with one square bracket only; the validation of a
    bracketed IPv6 literal itself is not modelled. *)
Definition urlparse (url : string) : result ParseResult :=
  let url := lstrip_with c0_or_space url in
  let url := remove_chars unsafe_byte url in
  let '(sch, url) := split_scheme url in
  let '(loc, url) :=
    if startswith url "//" then span_until (one_of "/?#") (drop 2 url)
    else (EmptyString, url) in
  if (contains "[" loc && negb (contains "]" loc))
     || (contains "]" loc && negb (contains "[" loc))
  then Raise ValueError
  else
    let '(url, frag) :=
      match split1 "#" url with Some (l, r) => (l, r) | None => (url, EmptyString) end in
    let '(url, qry) :=
      match split1 "?" url with Some (l, r) => (l, r) | None => (url, EmptyString) end in
    let '(url, prm) :=
      if bool_decide (sch ∈ uses_params) && contains ";" url
      then _splitparams url else (url, EmptyString) in
    Ok {| scheme := sch; netloc := loc; path := url;
          params := prm; query := qry; fragment := frag |}.

End UrlLib.

(** ** utils/places.py *)
Module Places.
Import PyStr.

(** [_normalize_website(url)]; the argument is a [str] (the [isinstance]
    test of the source always passes at this type). *)
Definition _normalize_website (url : string) : string :=
  if negb (truthy url) then ""
  else
    let url := strip url in
    let url :=
      if contains "?" url
      then rstrip_with (Ascii.eqb "/") (split_first "?" url)
      else url in
    if truthy url
       && negb (startswith (lower url) "http://" || startswith (lower url) "https://")
    then "https://" +:+ url
    else url.

(** [_extract_domain(url)] *)
Definition _extract_domain (url : string) : string :=
  match UrlLib.urlparse url with
  | Ok parsed =>
      let host :=
        if truthy (UrlLib.netloc parsed) then UrlLib.netloc parsed
        else UrlLib.path parsed in
      replace "www." "" (lower host)
  | Raise _ => url
  end.

(** [get_domain_for_dedup(url)] *)
Definition get_domain_for_dedup (url : string) : string := _extract_domain url.

(** The [PlaceResult] dataclass.  Numbers are carried by their text. *)
Record PlaceResult := {
  place_id : string;
  name : string;
  formatted_address : string;
  latitude : string;
  longitude : string;
  website : string;
  phone : string;
  google_maps_url : string;
  rating : option string;
  user_ratings_total : option string;
  types : list string
}.

(** *** Place Details *)

(** [x = d.get(key)] followed by [if not x: return None]. *)
Definition required (x : option string) : option string :=
  match x with
  | Some s => if truthy s then Some s else None
  | None => None
  end.

(** What [_parse_place_details] reads of a Place Details result.  A field is
    [None] when the key is missing or [null]; [d_location] is
    [geometry.location] with its two coordinates, [None] when there is no
    such object.  Numbers are carried by their text, and a field that is
    there has the type the API documents. *)
Record Details := {
  d_place_id : option string;
  d_location : option (option string * option string);
  d_formatted_address : option string;
  d_website : option string;
  d_name : option string;
  d_formatted_phone_number : option string;
  d_url : option string;
  d_rating : option string;
  d_user_ratings_total : option string;
  d_types : option (list string)
}.

(** [_parse_place_details(details)] *)
Definition _parse_place_details (details : Details) : option PlaceResult :=
  pid ← required (d_place_id details);
  location ← d_location details;
  lat ← location.1;
  lng ← location.2;
  address ← required (d_formatted_address details);
  site ← required (d_website details);
  let site := _normalize_website site in
  if negb (truthy site) then None
  else
    Some {| place_id := pid;
            name := default "" (d_name details);
            formatted_address := address;
            latitude := lat;
            longitude := lng;
            website := site;
            phone := default "" (d_formatted_phone_number details);
            google_maps_url := default "" (d_url details);
            rating := d_rating details;
            user_ratings_total := d_user_ratings_total details;
            types := default [] (d_types details) |}.

(** *** Retry with backoff *)

(** What one call of [fn] does: it returns, or raises an exception whose
    text is [msg]. *)
Inductive attempt (A : Type) :=
| Returned (a : A)
| Threw (msg : string).
Arguments Returned {A} a.
Arguments Threw {A} msg.

(** How [_call_with_retry] ends: with the value of [fn], with the exception
    of an attempt, or on [raise None] (no attempt was made). *)
Inductive outcome (A : Type) :=
| Value (a : A)
| Failed (msg : string)
| RaisedNone.
Arguments Value {A} a.
Arguments Failed {A} msg.
Arguments RaisedNone {A}.

(** The test on [str(e).lower()]. *)
Definition rate_limited (msg : string) : bool :=
  let err_str := lower msg in
  contains "over_query_limit" err_str || contains "rate" err_str
  || contains "429" err_str.

(** The loop of [_call_with_retry] from [attempt] on, [remaining] rounds
    being left: the delays slept, in order, and the outcome.  [fn i] is what
    the [i]-th call of the wrapped function does. *)
Fixpoint retry_loop {A} (fn : nat -> attempt A) (base_delay : Z)
    (attempt remaining : nat) (last_error : option string) : list Z * outcome A :=
  match remaining with
  | O =>
      ([], match last_error with Some msg => Failed msg | None => RaisedNone end)
  | S remaining =>
      match fn attempt with
      | Returned a => ([], Value a)
      | Threw msg =>
          if rate_limited msg
          then
            let delay := (base_delay * 2 ^ Z.of_nat attempt)%Z in
            let '(slept, out) :=
              retry_loop fn base_delay (S attempt) remaining (Some msg) in
            (delay :: slept, out)
          else ([], Failed msg)
      end
  end.

(** [_call_with_retry(fn, max_retries=max_retries, base_delay=base_delay)];
    the delay is a whole number of seconds. *)
Definition _call_with_retry {A} (fn : nat -> attempt A) (max_retries : nat)
    (base_delay : Z) : list Z * outcome A :=
  retry_loop fn base_delay 0 max_retries None.

(** *** Paged searches *)

(** A response of the Places API as the two searches read it: the
    [place_id] entries of its results ([None] for a result without the key)
    and the continuation token. *)
Record Response := {
  r_results : list (option string);
  r_next_page_token : option string
}.

(** What a search does between its requests: the calls of [time.sleep],
    with [token_sleep], with a delay of the backoff, with [sleep_seconds]. *)
Inductive pause :=
| TokenSleep
| Backoff (delay : Z)
| ApiSleep.

(** The [while True] loop of [text_search_places] and of
    [nearby_search_places], cut after [fuel] rounds: the pauses and
    [all_results], or [None] when the rounds run out.  [call page token i]
    is what the [i]-th attempt at the page number [page] does when it is
    asked with [token]; [sleep] is the clock.  A pause the clock refuses
    raises inside the [try], and the handler leaves the loop: before the
    request when it is the pause for the token, before the results of the
    answered page are added when it is the pause after the request. *)
Fixpoint search_loop (fuel : nat) (sleep : clock)
    (call : nat -> option string -> nat -> attempt Response)
    (sleep_seconds token_sleep : string)
    (page : nat) (next_page_token : option string) (all_results : list (option string))
  : option (list pause * list (option string)) :=
  match fuel with
  | O => None
  | S fuel =>
      let wait :=
        match required next_page_token with Some _ => [TokenSleep] | None => [] end in
      match (match required next_page_token with
             | Some _ => sleep token_sleep
             | None => Ok tt
             end) with
      | Raise _ => Some (wait, all_results)
      | Ok _ =>
          let '(slept, out) := _call_with_retry (call page next_page_token) 5 2 in
          match out with
          | Value response =>
              match sleep sleep_seconds with
              | Raise _ => Some (wait ++ map Backoff slept ++ [ApiSleep], all_results)
              | Ok _ =>
                  let all_results := all_results ++ r_results response in
                  match required (r_next_page_token response) with
                  | Some token =>
                      match search_loop fuel sleep call sleep_seconds token_sleep
                              (S page) (Some token) all_results with
                      | Some (pauses, found) =>
                          Some (wait ++ map Backoff slept ++ ApiSleep :: pauses, found)
                      | None => None
                      end
                  | None => Some (wait ++ map Backoff slept ++ [ApiSleep], all_results)
                  end
              end
          | Failed _ | RaisedNone => Some (wait ++ map Backoff slept, all_results)
          end
      end
  end.

(** [text_search_places(client, query, sleep_seconds, token_sleep)] and
    [nearby_search_places(client, lat, lng, keyword, radius, sleep_seconds,
    token_sleep)]; the arguments of the request are part of [call]. *)
Definition text_search_places (fuel : nat) (sleep : clock)
    (call : nat -> option string -> nat -> attempt Response)
    (sleep_seconds token_sleep : string)
  : option (list pause * list (option string)) :=
  search_loop fuel sleep call sleep_seconds token_sleep 0 None [].

Definition nearby_search_places (fuel : nat) (sleep : clock)
    (call : nat -> option string -> nat -> attempt Response)
    (sleep_seconds token_sleep : string)
  : option (list pause * list (option string)) :=
  search_loop fuel sleep call sleep_seconds token_sleep 0 None [].

(** *** Collecting the places of a niche in a city *)

(** The Google client as [collect_places_for_niche_city] meets it:
    [text_search q] and [nearby_search coords keyword] are the [place_id]
    entries of the raw results of [text_search_places] and
    [nearby_search_places] ([None] for a result without the key);
    [place i pid] is what the [i]-th call of [client.place] answers, the
    [result] entry of the response or an exception; [geocode city] is the
    outcome of [geocode_city]. *)
Record Client := {
  text_search : string -> list (option string);
  nearby_search : string * string -> string -> list (option string);
  place : nat -> string -> result (option Details);
  geocode : string -> option (string * string)
}.

(** [fetch_place_details(client, place_id, fields)], as call number [i]. *)
Definition fetch_place_details (c : Client) (i : nat) (pid : string)
  : option PlaceResult :=
  match place c i pid with
  | Ok (Some details) => _parse_place_details details
  | Ok None => None
  | Raise _ => None
  end.

(** The locals of [collect_places_for_niche_city], and the number of Place
    Details calls made so far. *)
Record collected := {
  seen_place_ids : gset string;
  seen_domains : gset string;
  valid_places : list PlaceResult;
  calls : nat
}.

(** The body both loops share, for a [pid] that is not in [seen_place_ids]. *)
Definition visit (c : Client) (pid : string) (st : collected) : collected :=
  let fetched :=
    {| seen_place_ids := seen_place_ids st; seen_domains := seen_domains st;
       valid_places := valid_places st; calls := S (calls st) |} in
  match fetch_place_details c (calls st) pid with
  | Some details =>
      let domain := _extract_domain (website details) in
      if bool_decide (domain ∈ seen_domains st) then fetched
      else {| seen_place_ids := {[pid]} ∪ seen_place_ids st;
              seen_domains := {[domain]} ∪ seen_domains st;
              valid_places := valid_places st ++ [details];
              calls := S (calls st) |}
  | None => fetched
  end.

(** [for pid in place_ids: ...] *)
Fixpoint text_loop (c : Client) (place_ids : list string) (st : collected)
  : collected :=
  match place_ids with
  | [] => st
  | pid :: rest =>
      if bool_decide (pid ∈ seen_place_ids st) then text_loop c rest st
      else text_loop c rest (visit c pid st)
  end.

(** [for r in nearby_raw: pid = r.get("place_id"); ...] *)
Fixpoint nearby_loop (c : Client) (nearby_raw : list (option string))
    (st : collected) : collected :=
  match nearby_raw with
  | [] => st
  | r :: rest =>
      match required r with
      | None => nearby_loop c rest st
      | Some pid =>
          if bool_decide (pid ∈ seen_place_ids st) then nearby_loop c rest st
          else nearby_loop c rest (visit c pid st)
      end
  end.

(** [collect_places_for_niche_city(client, niche, city, fields, ...,
    use_nearby_fallback, min_text_results)] *)
Definition collect_places_for_niche_city (c : Client) (niche city : string)
    (use_nearby_fallback : bool) (min_text_results : nat) : list PlaceResult :=
  let query := niche +:+ " in " +:+ city +:+ ", Germany" in
  let raw_results := text_search c query in
  let place_ids := omap required raw_results in
  let st :=
    text_loop c place_ids
      {| seen_place_ids := ∅; seen_domains := ∅; valid_places := []; calls := 0 |} in
  let st :=
    if use_nearby_fallback
       && (length (valid_places st) <? min_text_results)%nat
       && (length raw_results <? min_text_results)%nat
    then
      match geocode c city with
      | Some coords => nearby_loop c (nearby_search c coords niche) st
      | None => st
      end
    else st in
  valid_places st.


End Places.

(** ** utils/osm_places.py *)
Module OsmPlaces.
Import PyStr.

(** The [OSMPlace] dataclass; [rating] and [user_ratings_total] are always
    [None] and carry no data.  The class declares no other field. *)
Record OSMPlace := {
  place_id : string;
  name : string;
  formatted_address : string;
  latitude : string;
  longitude : string;
  website : string;
  phone : string;
  google_maps_url : string;
  types : list string
}.

Definition _normalize_website (url : string) : string :=
  if negb (truthy url) then ""
  else
    let url := strip url in
    let url :=
      if contains "?" url
      then rstrip_with (Ascii.eqb "/") (split_first "?" url)
      else url in
    if truthy url
       && negb (startswith (lower url) "http://" || startswith (lower url) "https://")
    then "https://" +:+ url
    else url.

(** [get_domain_for_dedup(url)] *)
Definition get_domain_for_dedup (url : string) : string :=
  match UrlLib.urlparse url with
  | Ok parsed =>
      let host :=
        lower (if truthy (UrlLib.netloc parsed) then UrlLib.netloc parsed
               else UrlLib.path parsed) in
      replace "www." "" host
  | Raise _ => url
  end.

(** *** Overpass elements *)

Definition NICHE_TO_OVERPASS_TAGS : list (string * list (string * string)) :=
  [("Physical therapists", [("amenity", "physiotherapist"); ("healthcare", "physiotherapist")]);
   ("Dentists", [("amenity", "dentist")]);
   ("Auto repair shops", [("shop", "car_repair"); ("amenity", "car_repair")]);
   ("Moving companies", [("office", "moving_company"); ("shop", "storage")]);
   ("Cleaning companies", [("office", "company")]);
   ("Beauty & wellness (premium)", [("shop", "beauty"); ("shop", "cosmetics"); ("amenity", "spa")]);
   ("Real estate agents", [("office", "estate_agent")]);
   ("Lawyers / tax advisors", [("office", "lawyer"); ("office", "accountant"); ("office", "tax_advisor")]);
   ("Pet services", [("shop", "pet"); ("amenity", "animal_boarding"); ("amenity", "veterinary")]);
   ("Plumbing & heating", [("craft", "plumber"); ("shop", "plumber")]);
   ("Gardening & landscaping", [("shop", "garden_centre"); ("craft", "gardener")])].

(** [a or b] for a tag that may be missing. *)
Definition or_else (a : option string) (b : string) : string :=
  match a with
  | Some s => if truthy s then s else b
  | None => b
  end.

(** A node or way of an Overpass answer, as [_element_to_place] reads it.  A
    field is [None] when the key is missing; [e_center] and [e_tags] are
    also [None] for an empty object.  Numbers are carried by their text,
    tag values are strings. *)
Record Element := {
  e_type : option string;
  e_id : option string;
  e_lat : option string;
  e_lon : option string;
  e_center : option (option string * option string);
  e_tags : option (gmap string string)
}.

(** [_element_to_place(elem, tag_key, tag_value)]; [fixed4 x] is the text
    of [f"{x:.4f}"]. *)
Definition _element_to_place (fixed4 : string -> string) (elem : Element)
    (tag_key tag_value : string) : option OSMPlace :=
  let tags := default ∅ (e_tags elem) in
  let name := or_else (tags !! "name") (or_else (tags !! "brand") "") in
  if negb (truthy name) then None
  else
    let '(lat, lon) :=
      if bool_decide (e_type elem = Some "node") then (e_lat elem, e_lon elem)
      else default (None, None) (e_center elem) in
    match lat, lon with
    | Some lat, Some lon =>
        let addr_parts :=
          [tags !! "addr:street"; tags !! "addr:housenumber";
           tags !! "addr:postcode"; tags !! "addr:city"] in
        let joined := join " " (List.filter truthy (omap id addr_parts)) in
        let addr :=
          if truthy joined then joined else fixed4 lat +:+ ", " +:+ fixed4 lon in
        let site :=
          _normalize_website
            (or_else (tags !! "website") (or_else (tags !! "contact:website") "")) in
        if negb (truthy site) then None
        else
          let phone := or_else (tags !! "phone") (or_else (tags !! "contact:phone") "") in
          let osm_type := default "node" (e_type elem) in
          let osm_id := default "0" (e_id elem) in
          Some {| place_id := "osm:" +:+ osm_type +:+ ":" +:+ osm_id;
                  name := name;
                  formatted_address := addr;
                  latitude := lat;
                  longitude := lon;
                  website := site;
                  phone := phone;
                  google_maps_url :=
                    "https://www.openstreetmap.org/" +:+ osm_type +:+ "/" +:+ osm_id;
                  types := [tag_key +:+ "=" +:+ tag_value] |}
    | _, _ => None
    end.

(** *** The two services *)

(** A bounding box [(south, west, north, east)]. *)
Definition bbox : Type := string * string * string * string.

(** The first hit of a Nominatim answer. *)
Record Hit := {
  h_boundingbox : option (list string);
  h_lat : option string;
  h_lon : option string
}.

(** What the module finds outside: [nominatim q] is the decoded answer to
    the search for [q], or the exception of the request; [overpass box key
    value] is the [elements] of the answer to the query
    [_build_overpass_query] writes ([None] for an element that is not an
    object), or the exception of the request or of the pause of at least 0.1
    seconds that follows it; [sleep] is the clock; [minus] and [plus] are
    the float subtraction and addition of [delta = 0.05], and [fixed4 x] is
    the text of [f"{x:.4f}"].  The entries of a bounding box and the
    coordinates are numbers, carried by their text. *)
Record Services := {
  nominatim : string -> result (list Hit);
  overpass : bbox -> string -> string -> result (list (option Element));
  sleep : clock;
  minus : string -> string;
  plus : string -> string;
  fixed4 : string -> string
}.

(** [get_city_bbox(city, country, sleep_seconds)]: the cache it leaves, the
    searches it sends, and the box.  The pause follows the decoding of the
    answer, inside the [try]. *)
Definition get_city_bbox (sv : Services) (_bbox_cache : gmap (string * string) bbox)
    (city country sleep_seconds : string)
  : gmap (string * string) bbox * list string * option bbox :=
  let cache_key := (strip city, strip country) in
  match _bbox_cache !! cache_key with
  | Some box => (_bbox_cache, [], Some box)
  | None =>
      let q := city +:+ ", " +:+ country in
      match nominatim sv q with
      | Raise _ => (_bbox_cache, [q], None)
      | Ok data =>
          match sleep sv sleep_seconds with
          | Raise _ => (_bbox_cache, [q], None)
          | Ok _ =>
              match data with
              | [] => (_bbox_cache, [q], None)
              | hit :: _ =>
                  match h_boundingbox hit with
                  | Some [south; north; west; east] =>
                      let result := (south, west, north, east) in
                      (<[cache_key := result]> _bbox_cache, [q], Some result)
                  | _ =>
                      match h_lat hit, h_lon hit with
                      | Some lat, Some lon =>
                          if truthy lat && truthy lon
                          then (_bbox_cache, [q],
                                Some (minus sv lat, minus sv lon, plus sv lat, plus sv lon))
                          else (_bbox_cache, [q], None)
                      | _, _ => (_bbox_cache, [q], None)
                      end
                  end
              end
          end
      end
  end.

(** [fetch_places_overpass(bbox, tag_key, tag_value)] *)
Definition fetch_places_overpass (sv : Services) (box : bbox)
    (tag_key tag_value : string) : list OSMPlace :=
  match overpass sv box tag_key tag_value with
  | Raise _ => []
  | Ok elements =>
      omap (fun elem =>
              match elem with
              | Some elem => _element_to_place (fixed4 sv) elem tag_key tag_value
              | None => None
              end)
           elements
  end.

(** The tag sets of the first entry of the table for [niche]. *)
Fixpoint tag_sets_of (table : list (string * list (string * string))) (niche : string)
  : list (string * string) :=
  match table with
  | [] => []
  | (n, tag_list) :: rest =>
      if String.eqb n niche then tag_list else tag_sets_of rest niche
  end.

(** The inner loop of [collect_osm_places_for_niche_city]. *)
Fixpoint merge_places (places : list OSMPlace) (seen_ids : gset string)
    (all_places : list OSMPlace) : gset string * list OSMPlace :=
  match places with
  | [] => (seen_ids, all_places)
  | p :: rest =>
      if bool_decide (place_id p ∈ seen_ids) then merge_places rest seen_ids all_places
      else merge_places rest ({[place_id p]} ∪ seen_ids) (all_places ++ [p])
  end.

(** The outer loop, over the tag sets. *)
Fixpoint merge_tag_sets (sv : Services) (box : bbox) (tag_sets : list (string * string))
    (seen_ids : gset string) (all_places : list OSMPlace) : list OSMPlace :=
  match tag_sets with
  | [] => all_places
  | (tag_key, tag_value) :: rest =>
      let '(seen_ids, all_places) :=
        merge_places (fetch_places_overpass sv box tag_key tag_value)
          seen_ids all_places in
      merge_tag_sets sv box rest seen_ids all_places
  end.

(** [collect_osm_places_for_niche_city(niche, city, country,
    sleep_seconds)]: the cache it leaves and the places. *)
Definition collect_osm_places_for_niche_city (sv : Services)
    (_bbox_cache : gmap (string * string) bbox)
    (niche city country sleep_seconds : string)
  : gmap (string * string) bbox * list OSMPlace :=
  let '(cache, _, box) := get_city_bbox sv _bbox_cache city country sleep_seconds in
  match box with
  | None => (cache, [])
  | Some box =>
      match tag_sets_of NICHE_TO_OVERPASS_TAGS niche with
      | [] => (cache, [])
      | tag_sets => (cache, merge_tag_sets sv box tag_sets ∅ [])
      end
  end.


End OsmPlaces.


(** ** utils/email_extractor.py *)
Module EmailExtractor.
Import PyStr.

Definition NL : string := String "010" EmptyString.

Definition INVALID_EMAIL_DOMAINS : list string :=
  ["example.com"; "example.org"; "example.net"; "test.com"; "placeholder.com";
   "email.com"; "domain.com"; "sentry.io"; "wixpress.com"; "sentry.wixpress.com";
   "sentry-next.wixpress.com"; "yoursite.com"; "youremail.com"].

Definition INVALID_EMAIL_DOMAIN_SUFFIXES : list string :=
  [".wixpress.com"; ".sentry.io"].

(** [HEX_ID_PATTERN = ^[a-f0-9]{20,}$], case-insensitive; [$] also matches
    before a newline that ends the string. *)
Definition hex_char (c : ascii) : bool :=
  between 97 102 c || between 65 70 c || is_digit c.

Definition HEX_ID_PATTERN_match (s : string) : bool :=
  let body := if endswith s NL then take (String.length s - 1) s else s in
  forallb_str hex_char body && (20 <=? String.length body).

(** [_is_valid_email(email)] *)
Definition _is_valid_email (email : string) : bool :=
  if negb (truthy email) || (254 <? String.length email) then false
  else
    let email_lower := strip (lower email) in
    match rsplit1 "@" email_lower with
    | None => false
    | Some (local, domain) =>
        if bool_decide (domain ∈ INVALID_EMAIL_DOMAINS) then false
        else if existsb
                  (fun suffix =>
                     endswith domain suffix
                     || String.eqb domain (strip_with (Ascii.eqb ".") suffix))
                  INVALID_EMAIL_DOMAIN_SUFFIXES then false
        else if HEX_ID_PATTERN_match local then false
        else if startswith email "data:" || contains ".png" email
                || contains ".jpg" email then false
        else true
    end.

(** [EMAIL_PATTERN = [a-zA-Z0-9._%+-]+@[a-zA-Z0-9.-]+\.[a-zA-Z]{2,}].
    The three character classes: *)
Definition local_char (c : ascii) : bool :=
  is_alpha_ascii c || is_digit c || UrlLib.one_of "._%+-" c.
Definition domain_char (c : ascii) : bool :=
  is_alpha_ascii c || is_digit c || UrlLib.one_of ".-" c.

(** The longest prefix of characters of a class, and what follows. *)
Definition span_while (p : ascii -> bool) (s : string) : string * string :=
  UrlLib.span_until (fun c => negb (p c)) s.

(** Within the maximal run [d] of domain characters, the regular expression
    backtracks to the last dot that has a non-empty label before it and at
    least two letters after it; the match ends with those letters.  [seen]
    tells whether a domain character precedes the current position. *)
Fixpoint domain_match (seen : bool) (d : string) : option string :=
  match d with
  | EmptyString => None
  | String a d' =>
      match domain_match true d' with
      | Some m => Some (String a m)
      | None =>
          let tld := fst (span_while is_alpha_ascii d') in
          if seen && Ascii.eqb a "." && (2 <=? String.length tld)
          then Some (String a tld) else None
      end
  end.

(** A match of [EMAIL_PATTERN] that starts at the head of [s]. *)
Definition match_at (s : string) : option string :=
  let '(loc, rest) := span_while local_char s in
  match loc, rest with
  | String _ _, String "@" rest' =>
      match domain_match false (fst (span_while domain_char rest')) with
      | Some dom => Some (loc +:+ "@" +:+ dom)
      | None => None
      end
  | _, _ => None
  end.

(** [EMAIL_PATTERN.finditer(html)]: matches from the left, no overlap. *)
Fixpoint finditer_go (skip : nat) (s : string) : list string :=
  match s with
  | EmptyString => []
  | String _ s' =>
      match skip with
      | S k => finditer_go k s'
      | O =>
          match match_at s with
          | Some m => m :: finditer_go (String.length m - 1) s'
          | None => finditer_go 0 s'
          end
      end
  end.
Definition EMAIL_PATTERN_finditer (html : string) : list string := finditer_go 0 html.

(** The loop of [extract_emails_from_html] over the matches. *)
Fixpoint collect_valid (ms : list string) (found : gset string)
  : list (string * string) :=
  match ms with
  | [] => []
  | m :: ms' =>
      let email := strip m in
      if contains " " email || contains NL email then collect_valid ms' found
      else if bool_decide (email ∈ found) then collect_valid ms' found
      else if _is_valid_email email
           then (email, "page") :: collect_valid ms' ({[email]} ∪ found)
           else collect_valid ms' found
  end.

(** [extract_emails_from_html(html)] *)
Definition extract_emails_from_html (html : string) : list (string * string) :=
  if negb (truthy html) then []
  else collect_valid (EMAIL_PATTERN_finditer html) ∅.

(** The world outside: [urllib.parse.urljoin], the robots parser
    ([RobotFileParser.read] followed by [can_fetch]), the HTTP session and
    the clock.  [http_get i url] is the text of the [i]-th page request of a
    call, or the exception it ends with ([raise_for_status] included);
    [sleep secs] is what [time.sleep(secs)] does. *)
Record Web := {
  urljoin : string -> string -> string;
  robots_can_fetch : string -> string -> string -> result bool;
  http_get : nat -> string -> result string;
  sleep : clock
}.

(** What a call does on the network, in order; [EvSleep] is a call of
    [time.sleep]. *)
Inductive event :=
| EvRobotsTxt (robots_url : string)
| EvSleep
| EvGet (url : string).

Definition USER_AGENT : string := "LeadDatasetBuilder/1.0".

(** [_check_robots_allowed(url)]: any exception means "allowed". *)
Definition _check_robots_allowed (w : Web) (url : string) : list event * bool :=
  match UrlLib.urlparse url with
  | Raise _ => ([], true)
  | Ok parsed =>
      let base := UrlLib.scheme parsed +:+ "://" +:+ UrlLib.netloc parsed in
      let robots_url := urljoin w base "/robots.txt" in
      ([EvRobotsTxt robots_url],
       match robots_can_fetch w robots_url USER_AGENT url with
       | Ok b => b
       | Raise _ => true
       end)
  end.

(** [_fetch_page(url, session=session)]: [None] on any failure. *)
Definition _fetch_page (w : Web) (i : nat) (url : string) : option string :=
  match http_get w i url with
  | Ok text => Some text
  | Raise _ => None
  end.

(** The de-duplication loop of [_get_candidate_urls]. *)
Fixpoint unique_urls (candidates : list string) (seen : gset string) : list string :=
  match candidates with
  | [] => []
  | u :: rest =>
      let norm :=
        if truthy (rstrip_with (Ascii.eqb "/") u) then rstrip_with (Ascii.eqb "/") u
        else u in
      if bool_decide (norm ∈ seen) then unique_urls rest seen
      else u :: unique_urls rest ({[norm]} ∪ seen)
  end.

(** [_get_candidate_urls(website, max_pages)] *)
Definition _get_candidate_urls (w : Web) (website : string) (max_pages : nat)
  : result (list string) :=
  match UrlLib.urlparse website with
  | Raise e => Raise e
  | Ok parsed =>
      let base := UrlLib.scheme parsed +:+ "://" +:+ UrlLib.netloc parsed in
      let stripped := rstrip_with (Ascii.eqb "/") (UrlLib.path parsed) in
      let base_path := if truthy stripped then stripped else "/" in
      let candidates :=
        [urljoin w base base_path; urljoin w base "/kontakt";
         urljoin w base "/contact"; urljoin w base "/impressum"] in
      Ok (firstn max_pages (unique_urls candidates ∅))
  end.

Definition page_type (i : nat) : string :=
  match i with
  | O => "homepage"
  | S _ => "page_" +:+ NilZero.string_of_uint (Nat.to_uint i)
  end.

(** The loop over the candidate pages, from index [i] on: the events, and
    [all_emails] or the exception of a pause the clock refuses, which no
    handler catches. *)
Fixpoint fetch_pages (w : Web) (sleep_seconds : string) (i : nat) (urls : list string)
  : list event * result (list (string * string)) :=
  match urls with
  | [] => ([], Ok [])
  | url :: rest =>
      let pause := if (0 <? i)%nat then [EvSleep] else [] in
      match (if (0 <? i)%nat then sleep w sleep_seconds else Ok tt) with
      | Raise e => (pause, Raise e)
      | Ok _ =>
          let emails :=
            match _fetch_page w i url with
            | Some html =>
                if truthy html
                then map (fun '(email, _) => (email, page_type i))
                         (extract_emails_from_html html)
                else []
            | None => []
            end in
          match fetch_pages w sleep_seconds (S i) rest with
          | (evs, Ok more) => (pause ++ EvGet url :: evs, Ok (emails ++ more))
          | (evs, Raise e) => (pause ++ EvGet url :: evs, Raise e)
          end
      end
  end.

(** The final loop: first occurrence of every address, with its page. *)
Fixpoint dedup_emails (all_emails : list (string * string)) (seen_emails : gset string)
  : list string * list string :=
  match all_emails with
  | [] => ([], [])
  | (email, src) :: rest =>
      if bool_decide (email ∈ seen_emails) then dedup_emails rest seen_emails
      else
        let '(unique_emails, source_pages) :=
          dedup_emails rest ({[email]} ∪ seen_emails) in
        (email :: unique_emails, src :: source_pages)
  end.

(** [extract_emails_from_website(website_url, sleep_seconds, max_pages)]:
    the network events of the call and its outcome. *)
Definition extract_emails_from_website (w : Web) (website_url : string)
    (sleep_seconds : string) (max_pages : nat)
  : list event * result (list string * string) :=
  if negb (truthy website_url)
     || negb (startswith website_url "http://" || startswith website_url "https://")
  then ([], Ok ([], ""))
  else
    let '(robots_events, allowed) := _check_robots_allowed w website_url in
    if negb allowed then (robots_events, Ok ([], "robots_blocked"))
    else
      match _get_candidate_urls w website_url max_pages with
      | Raise e => (robots_events, Raise e)
      | Ok urls =>
          match fetch_pages w sleep_seconds 0 urls with
          | (page_events, Raise e) => (robots_events ++ page_events, Raise e)
          | (page_events, Ok all_emails) =>
              let '(unique_emails, source_pages) := dedup_emails all_emails ∅ in
              (robots_events ++ page_events,
               Ok (unique_emails,
                   match source_pages with
                   | [] => ""
                   | _ :: _ => join "," source_pages
                   end))
          end
      end.

(** The content-page requests among the events. *)
Definition content_fetches (evs : list event) : list string :=
  omap (fun e => match e with EvGet u => Some u | _ => None end) evs.

End EmailExtractor.

(** ** main.py *)
Module Main.
Import PyStr.

(** A lead is a [dict] with string keys.  Its values are strings; the
    numeric fields (coordinates, rating, counts) are carried by their text. *)
Abbreviation Lead := (gmap string string).

Definition CITIES : list string :=
  ["Mannheim"; "Heidelberg"; "Heilbronn"; "Pforzheim"; "Ulm"; "Reutlingen";
   "T" +:+ String "252" "bingen"; "Esslingen am Neckar"].

Definition NICHES : list string :=
  ["Physical therapists"; "Dentists"; "Auto repair shops"; "Moving companies";
   "Cleaning companies"; "Beauty & wellness (premium)"; "Real estate agents";
   "Lawyers / tax advisors"; "Pet services"; "Plumbing & heating";
   "Gardening & landscaping"].

Definition OUTPUT_DIR : string := "outputs".
Definition CHECKPOINT_FILE : string := OUTPUT_DIR +:+ "/checkpoint.json".
Definition CHECKPOINT_INTERVAL : nat := 100.
Definition GMAIL_DOMAINS : list string := ["gmail.com"; "googlemail.com"].

(** [_gmail_addresses_from_emails(emails)] *)
Definition _gmail_addresses_from_emails (emails : list string) : string :=
  let gmails :=
    List.filter
      (fun e => bool_decide (split_last "@" (lower (strip e)) ∈ GMAIL_DOMAINS))
      emails in
  match gmails with
  | [] => ""
  | _ :: _ => join "; " gmails
  end.

(** *** Checkpoint store *)

(** What a checkpoint path holds: a JSON object whose three keys may each
    be missing, or something [json.load] or the reads after it fail on. *)
Inductive file :=
| Snapshot (leads : option (list Lead))
           (seen_place_ids : option (list string))
           (seen_domains : option (list string))
| Unreadable.

Abbreviation disk := (gmap string file).

(** [_writable_checkpoint_path(requested)]; [vercel] tells whether the
    environment variable VERCEL is set. *)
Definition _writable_checkpoint_path (vercel : bool) (requested : option string) : string :=
  match requested with
  | Some p => p
  | None => if vercel then "/tmp/checkpoint.json" else CHECKPOINT_FILE
  end.

(** [load_checkpoint(checkpoint_file)] *)
Definition load_checkpoint (vercel : bool) (d : disk) (checkpoint_file : option string)
  : list Lead * gset string * gset string :=
  match d !! _writable_checkpoint_path vercel checkpoint_file with
  | None => ([], ∅, ∅)
  | Some Unreadable => ([], ∅, ∅)
  | Some (Snapshot leads ids doms) =>
      (default [] leads, list_to_set (default [] ids), list_to_set (default [] doms))
  end.

(** [save_checkpoint(leads, seen_place_ids, seen_domains, checkpoint_file)];
    [list(set)] enumerates the set. *)
Definition save_checkpoint (vercel : bool) (d : disk) (leads : list Lead)
    (seen_place_ids seen_domains : gset string) (checkpoint_file : option string) : disk :=
  <[_writable_checkpoint_path vercel checkpoint_file :=
      Snapshot (Some leads) (Some (elements seen_place_ids))
               (Some (elements seen_domains))]> d.

(** *** Leads *)

Definition or_nill (s : string) : string := if truthy s then s else "Nill".

(** [place_to_lead(place, niche, city)]; a [PlaceResult] has no [owner]
    attribute, so [getattr(place, "owner", "")] is the empty string. *)
Definition place_to_lead (place : Places.PlaceResult) (niche city : string) : Lead :=
  let reviews := default "" (Places.user_ratings_total place) in
  let owner_full := or_nill (strip "") in
  list_to_map
    [("niche", niche); ("city", city);
     ("business_name", Places.name place);
     ("first_name", owner_full);
     ("reviews_count", reviews);
     ("formatted_address", Places.formatted_address place);
     ("latitude", Places.latitude place);
     ("longitude", Places.longitude place);
     ("phone", or_nill (Places.phone place));
     ("google_maps_url", Places.google_maps_url place);
     ("website_url", or_nill (Places.website place));
     ("rating", default "" (Places.rating place));
     ("ratings_count", reviews);
     ("place_id", Places.place_id place);
     ("emails_found", "Nill");
     ("email_source_page", "");
     ("gmail_addresses", "")].

(** [place.owner] on an [OSMPlace]: the dataclass declares no such field and
    nothing in the program sets one, so the attribute lookup raises. *)
Definition osm_owner (place : OsmPlaces.OSMPlace) : result string :=
  Raise AttributeError.

(** [osm_place_to_lead(place, niche, city)] *)
Definition osm_place_to_lead (place : OsmPlaces.OSMPlace) (niche city : string)
  : result Lead :=
  match osm_owner place with
  | Raise e => Raise e
  | Ok owner =>
      let owner_full := or_nill (strip owner) in
      Ok (list_to_map
            [("niche", niche); ("city", city);
             ("business_name", OsmPlaces.name place);
             ("first_name", owner_full);
             ("reviews_count", "");
             ("formatted_address", OsmPlaces.formatted_address place);
             ("latitude", OsmPlaces.latitude place);
             ("longitude", OsmPlaces.longitude place);
             ("phone", or_nill (OsmPlaces.phone place));
             ("google_maps_url", OsmPlaces.google_maps_url place);
             ("website_url", or_nill (OsmPlaces.website place));
             ("rating", ""); ("ratings_count", "");
             ("place_id", OsmPlaces.place_id place);
             ("emails_found", "Nill");
             ("email_source_page", "");
             ("gmail_addresses", "")])
  end.

(** The three assignments that follow a successful email extraction. *)
Definition with_emails (lead : Lead) (emails : list string) (source : string) : Lead :=
  <["gmail_addresses" := _gmail_addresses_from_emails emails]>
    (<["email_source_page" := source]>
       (<["emails_found" := match emails with [] => "Nill" | _ :: _ => join "; " emails end]>
          lead)).

(** *** Exporter *)

Definition columns : list string :=
  ["niche"; "city"; "business_name"; "phone"; "google_maps_url"; "website_url";
   "emails_found"].

(** [lead.get(key) and str(lead.get(key, "")).strip() != "Nill"] *)
Definition has_value (lead : Lead) (key : string) : bool :=
  match lead !! key with
  | Some v => truthy v && negb (String.eqb (strip v) "Nill")
  | None => false
  end.

(** One line of the file: the listed columns, a missing key giving [""]. *)
Definition csv_row (lead : Lead) : list string :=
  map (fun c => default "" (lead !! c)) columns.

(** [export_csv(leads, output_path, require_email_and_website)]: the records
    written to [output_path], the header first. *)
Definition export_csv (leads : list Lead) (require_email_and_website : bool)
  : list (list string) :=
  let rows :=
    if require_email_and_website
    then List.filter
           (fun lead => has_value lead "emails_found" && has_value lead "website_url")
           leads
    else leads in
  columns :: map csv_row rows.

(** *** Orchestrator *)

(** The run-scoped objects the two collection loops mutate, and the
    checkpoint files. *)
Record state := {
  leads : list Lead;
  seen_place_ids : gset string;
  seen_domains : gset string;
  files : disk
}.

(** What a run is given: the command-line arguments the loops read ... *)
Record Args := {
  source : string;
  max_leads : Z;
  extract_emails : bool;
  clear_checkpoint : bool;
  checkpoint_file : option string
}.

(** ... and what surrounds it.  [google_client] is the outcome of
    [load_config] and [googlemaps.Client]; the two adapters return the
    places of a (niche, city) pair or raise; [web pid] is the network as the
    harvest of the place [pid] finds it; [sleep_web] is the pause the run
    asks for between two page requests of a site ([args.sleep_web], from
    [--sleep-web] or from the [sleep_web] argument of [run_collection]), a
    number carried by its text; [as_completed] is the order in which the
    pool hands back the futures of a batch. *)
Record World := {
  vercel : bool;
  google_client : result unit;
  collect_places_for_niche_city : string -> string -> result (list Places.PlaceResult);
  collect_osm_places_for_niche_city : string -> string -> result (list OsmPlaces.OSMPlace);
  web : string -> EmailExtractor.Web;
  sleep_web : string;
  as_completed :
    list (OsmPlaces.OSMPlace * string * string) -> list (OsmPlaces.OSMPlace * string * string)
}.

(** The world of a run that is asked for the pause [secs]. *)
Definition with_sleep_web (w : World) (secs : string) : World :=
  {| vercel := vercel w;
     google_client := google_client w;
     collect_places_for_niche_city := collect_places_for_niche_city w;
     collect_osm_places_for_niche_city := collect_osm_places_for_niche_city w;
     web := web w;
     sleep_web := secs;
     as_completed := as_completed w |}.

(** [len(leads) >= max_leads] *)
Definition budget_reached (a : Args) (st : state) : bool :=
  (max_leads a <=? Z.of_nat (length (leads st)))%Z.

(** [leads.append(lead)] *)
Definition append_lead (lead : Lead) (st : state) : state :=
  {| leads := leads st ++ [lead];
     seen_place_ids := seen_place_ids st;
     seen_domains := seen_domains st;
     files := files st |}.

(** [if len(leads) % CHECKPOINT_INTERVAL == 0: save_checkpoint(...)] *)
Definition checkpoint_if_due (w : World) (a : Args) (st : state) : state :=
  if (length (leads st) mod CHECKPOINT_INTERVAL =? 0)%nat
  then {| leads := leads st;
          seen_place_ids := seen_place_ids st;
          seen_domains := seen_domains st;
          files := save_checkpoint (vercel w) (files st) (leads st)
                     (seen_place_ids st) (seen_domains st) (checkpoint_file a) |}
  else st.

(** The ledger test of [_run_google] and what it records: [None] when the
    place is skipped, the two sets after the [add]s otherwise. *)
Definition google_admit (ids doms : gset string) (place : Places.PlaceResult)
  : option (gset string * gset string) :=
  if bool_decide (Places.place_id place ∈ ids) then None
  else
    let domain := Places.get_domain_for_dedup (Places.website place) in
    if bool_decide (domain ∈ doms) then None
    else Some ({[Places.place_id place]} ∪ ids, {[domain]} ∪ doms).

(** The domain [_run_osm] computes for a place. *)
Definition osm_domain (place : OsmPlaces.OSMPlace) : string :=
  if truthy (OsmPlaces.website place)
  then OsmPlaces.get_domain_for_dedup (OsmPlaces.website place)
  else "".

(** The ledger test of [_run_osm] and what it records. *)
Definition osm_admit (ids doms : gset string) (place : OsmPlaces.OSMPlace)
  : option (gset string * gset string) :=
  if bool_decide (OsmPlaces.place_id place ∈ ids) then None
  else
    let domain := osm_domain place in
    if truthy domain && bool_decide (domain ∈ doms) then None
    else Some ({[OsmPlaces.place_id place]} ∪ ids,
               if truthy domain then {[domain]} ∪ doms else doms).

Definition record_admission (st : state) (sets : gset string * gset string) : state :=
  {| leads := leads st;
     seen_place_ids := fst sets;
     seen_domains := snd sets;
     files := files st |}.

(** The loop over the places of one pair in [_run_google]. *)
Fixpoint google_places (w : World) (a : Args) (niche city : string)
    (places : list Places.PlaceResult) (st : state) : state :=
  match places with
  | [] => st
  | place :: rest =>
      match google_admit (seen_place_ids st) (seen_domains st) place with
      | None => google_places w a niche city rest st
      | Some sets =>
          let st := record_admission st sets in
          let lead := place_to_lead place niche city in
          let lead :=
            if extract_emails a && truthy (Places.website place)
            then match snd (EmailExtractor.extract_emails_from_website
                              (web w (Places.place_id place)) (Places.website place)
                              (sleep_web w) 2) with
                 | Ok (emails, src) => with_emails lead emails src
                 | Raise _ => lead
                 end
            else lead in
          let st := checkpoint_if_due w a (append_lead lead st) in
          if budget_reached a st then st
          else google_places w a niche city rest st
      end
  end.

(** The loop over the cities, for one niche. *)
Fixpoint google_cities (w : World) (a : Args) (niche : string)
    (cities : list string) (st : state) : state :=
  match cities with
  | [] => st
  | city :: rest =>
      if budget_reached a st then st
      else
        match collect_places_for_niche_city w niche city with
        | Ok places =>
            google_cities w a niche rest (google_places w a niche city places st)
        | Raise _ => google_cities w a niche rest st
        end
  end.

Fixpoint google_niches (w : World) (a : Args) (niches cities : list string)
    (st : state) : state :=
  match niches with
  | [] => st
  | niche :: rest =>
      if budget_reached a st then st
      else google_niches w a rest cities (google_cities w a niche cities st)
  end.

(** [xs or DEFAULT] *)
Definition or_default (xs default : list string) : list string :=
  match xs with [] => default | _ :: _ => xs end.

(** [_run_google(args, leads, seen_place_ids, seen_domains, ...)] *)
Definition _run_google (w : World) (a : Args) (niches cities : list string)
    (st : state) : result state :=
  match google_client w with
  | Raise e => Raise e
  | Ok _ =>
      Ok (google_niches w a (or_default niches NICHES) (or_default cities CITIES) st)
  end.

(** [_process_place_emails(place, niche, city, sleep_web)] *)
Definition _process_place_emails (w : World) (c : OsmPlaces.OSMPlace * string * string)
  : result (Lead * bool) :=
  let '(place, niche, city) := c in
  match osm_place_to_lead place niche city with
  | Raise e => Raise e
  | Ok lead =>
      if negb (truthy (OsmPlaces.website place)) then Ok (lead, false)
      else
        match snd (EmailExtractor.extract_emails_from_website
                     (web w (OsmPlaces.place_id place)) (OsmPlaces.website place)
                     (sleep_web w) 2) with
        | Ok (emails, src) =>
            Ok (with_emails lead emails src,
                match emails with [] => false | _ :: _ => true end)
        | Raise _ => Ok (lead, false)
        end
  end.

(** The loop over the places of one pair in [_run_osm]: the state it leaves
    and either the candidates for the pool or the exception that ended it. *)
Fixpoint osm_places (a : Args) (niche city : string)
    (places : list OsmPlaces.OSMPlace) (st : state)
    (candidates : list (OsmPlaces.OSMPlace * string * string))
  : state * result (list (OsmPlaces.OSMPlace * string * string)) :=
  match places with
  | [] => (st, Ok candidates)
  | place :: rest =>
      match osm_admit (seen_place_ids st) (seen_domains st) place with
      | None => osm_places a niche city rest st candidates
      | Some sets =>
          let st := record_admission st sets in
          if extract_emails a && truthy (OsmPlaces.website place)
          then
            let candidates := candidates ++ [(place, niche, city)] in
            if budget_reached a st then (st, Ok candidates)
            else osm_places a niche city rest st candidates
          else
            match osm_place_to_lead place niche city with
            | Raise e => (st, Raise e)
            | Ok lead =>
                let st := append_lead lead st in
                if budget_reached a st then (st, Ok candidates)
                else osm_places a niche city rest st candidates
            end
      end
  end.

(** The loop over the completed futures. *)
Fixpoint collect_futures (w : World) (a : Args)
    (futures : list (result (Lead * bool))) (st : state) : state :=
  match futures with
  | [] => st
  | future :: rest =>
      if budget_reached a st then st
      else
        match future with
        | Ok (lead, _) =>
            collect_futures w a rest (checkpoint_if_due w a (append_lead lead st))
        | Raise _ => collect_futures w a rest st
        end
  end.

Fixpoint osm_cities (w : World) (a : Args) (niche : string)
    (cities : list string) (st : state) : state :=
  match cities with
  | [] => st
  | city :: rest =>
      if budget_reached a st then st
      else
        match collect_osm_places_for_niche_city w niche city with
        | Raise _ => osm_cities w a niche rest st
        | Ok places =>
            match osm_places a niche city places st [] with
            | (st, Raise _) => osm_cities w a niche rest st
            | (st, Ok []) => osm_cities w a niche rest (checkpoint_if_due w a st)
            | (st, Ok (c :: cs)) =>
                let st :=
                  collect_futures w a
                    (map (_process_place_emails w) (as_completed w (c :: cs))) st in
                if budget_reached a st then st
                else osm_cities w a niche rest st
            end
        end
  end.

Fixpoint osm_niches (w : World) (a : Args) (niches cities : list string)
    (st : state) : state :=
  match niches with
  | [] => st
  | niche :: rest =>
      if budget_reached a st then st
      else osm_niches w a rest cities (osm_cities w a niche cities st)
  end.

(** [_run_osm(args, leads, seen_place_ids, seen_domains, ...)] *)
Definition _run_osm (w : World) (a : Args) (niches cities : list string)
    (st : state) : state :=
  osm_niches w a (or_default niches NICHES) (or_default cities CITIES) st.

Definition run_source (w : World) (a : Args) (niches cities : list string)
    (st : state) : result state :=
  if String.eqb (source a) "google" then _run_google w a niches cities st
  else Ok (_run_osm w a niches cities st).

Definition loaded_state (w : World) (d : disk) (checkpoint_file : option string) : state :=
  let '(leads, ids, doms) := load_checkpoint (vercel w) d checkpoint_file in
  {| leads := leads; seen_place_ids := ids; seen_domains := doms; files := d |}.

Definition final_save (w : World) (checkpoint_file : option string) (st : state) : disk :=
  save_checkpoint (vercel w) (files st) (leads st) (seen_place_ids st)
    (seen_domains st) checkpoint_file.

(** [main()]: the files it leaves and the records it exports, or the
    exception that ends it.  The command line has no [checkpoint_file]. *)
Definition main (w : World) (a : Args) (d : disk) : result (disk * list (list string)) :=
  let a := {| source := source a; max_leads := max_leads a;
              extract_emails := extract_emails a;
              clear_checkpoint := clear_checkpoint a; checkpoint_file := None |} in
  let d :=
    if clear_checkpoint a && bool_decide (is_Some (d !! CHECKPOINT_FILE))
    then delete CHECKPOINT_FILE d else d in
  let st := loaded_state w d None in
  if budget_reached a st then Ok (d, export_csv (leads st) true)
  else
    match run_source w a [] [] st with
    | Raise e => Raise e
    | Ok st => Ok (final_save w None st, export_csv (leads st) true)
    end.

(** [run_collection(niches, cities, max_leads, extract_emails, source, ...,
    clear_checkpoint, ..., work_dir)]; the pause [sleep_web] that the
    function copies to [args] is the one of the world, see
    [with_sleep_web]. *)
Definition run_collection (w : World) (niches cities : list string) (max_leads : Z)
    (extract_emails : bool) (source : string) (clear_checkpoint : bool)
    (work_dir : option string) (d : disk) : result (disk * list (list string)) :=
  match niches, cities with
  | [], _ | _, [] => Raise ValueError
  | _ :: _, _ :: _ =>
      let work_dir :=
        match work_dir with
        | None => if vercel w then Some "/tmp" else None
        | Some p => Some p
        end in
      let out_dir := default OUTPUT_DIR work_dir in
      let checkpoint_file :=
        match work_dir with
        | Some _ => Some (out_dir +:+ "/checkpoint.json")
        | None => None
        end in
      let a := {| source := source; max_leads := max_leads;
                  extract_emails := extract_emails;
                  clear_checkpoint := clear_checkpoint;
                  checkpoint_file := checkpoint_file |} in
      let cf := _writable_checkpoint_path (vercel w) checkpoint_file in
      let d :=
        if clear_checkpoint && bool_decide (is_Some (d !! cf)) then delete cf d else d in
      let st := loaded_state w d checkpoint_file in
      if budget_reached a st
         && negb (match niches, cities with _ :: _, _ :: _ => true | _, _ => false end)
      then Ok (d, export_csv (leads st) true)
      else
        match run_source w a niches cities st with
        | Raise e => Raise e
        | Ok st => Ok (final_save w checkpoint_file st, export_csv (leads st) true)
        end
  end.

End Main.

(** ** api/generate.py *)
Module ApiGenerate.
Import PyStr.

(** The value under ["niches"] or ["cities"]: missing, a string, a list (its
    entries by their [str()]), or another value (null, a number, a boolean,
    an object), by its truth value and its [str()]. *)
Inductive names :=
| Missing
| Text (s : string)
| Names (l : list string)
| Other (truth : bool) (text : string).

(** The JSON object of a request, as far as the handler reads it:
    [b_max_leads] is what [int()] makes of the value under ["max_leads"], a
    number or the exception it raises ([ValueError] for a text that is no
    integer, [TypeError] for null or a list); [b_extract_emails] is the truth
    value of the value under ["extract_emails"]. *)
Record Body := {
  b_niches : names;
  b_cities : names;
  b_max_leads : option (result Z);
  b_extract_emails : option bool
}.

(** The body of a request as the handler reads and decodes it: no JSON (or
    no UTF-8 text, or a Content-Length that is no number), for which the
    first [try] answers; a body whose reading or decoding raises an
    exception [e] that this [try] does not catch ([RecursionError] for a
    deeply nested text, an error of the socket); a JSON value that is no
    object; or an object. *)
Inductive request :=
| NotJson
| Broken (e : exn)
| NoObject
| Object (data : Body).

(** What the handler sends: a JSON error with its status, or the file. *)
Inductive response :=
| SendJson (status : nat)
| SendCsv (rows : list (list string)).

(** [data.get(key) or []] *)
Definition or_empty (x : names) : names :=
  match x with
  | Missing => Names []
  | Text s => if truthy s then Text s else Names []
  | Names l => Names l
  | Other truth text => if truth then Other truth text else Names []
  end.

(** [not x] for such a value. *)
Definition is_empty (x : names) : bool :=
  match x with
  | Missing => true
  | Text s => negb (truthy s)
  | Names [] => true
  | Names (_ :: _) => false
  | Other truth _ => negb truth
  end.

(** [[str(x)]] for a value that is no list, the stripped non-blank entries
    of a list. *)
Definition as_list (x : names) : list string :=
  match x with
  | Missing => []
  | Text s => [s]
  | Names l => List.filter truthy (map strip l)
  | Other _ text => [text]
  end.

(** [handler.do_POST]: the checkpoint store the call leaves and what it
    sends, or the exception the handler ends with, nothing sent.  The four
    assignments that read [data] stand outside the [try] blocks; the
    collection is asked for the pause 0.15 between two page requests, and
    [except Exception] does not catch [SystemExit]. *)
Definition do_POST (w : Main.World) (body : request) (d : Main.disk)
  : result (Main.disk * response) :=
  match body with
  | NotJson => Ok (d, SendJson 400)
  | Broken e => Raise e
  | NoObject => Raise AttributeError
  | Object data =>
      let niches := or_empty (b_niches data) in
      let cities := or_empty (b_cities data) in
      match default (Ok 15%Z) (b_max_leads data) with
      | Raise e => Raise e
      | Ok n =>
          let max_leads := Z.min 500 (Z.max 1 n) in
          let extract_emails := default true (b_extract_emails data) in
          if is_empty niches || is_empty cities then Ok (d, SendJson 400)
          else
            let niches := as_list niches in
            let cities := as_list cities in
            if negb (bool_decide (niches <> [])) || negb (bool_decide (cities <> []))
            then Ok (d, SendJson 400)
            else
              match Main.run_collection (Main.with_sleep_web w "0.15") niches cities
                      max_leads extract_emails "osm" true (Some "/tmp") d with
              | Raise ValueError => Ok (d, SendJson 400)
              | Raise SystemExit => Raise SystemExit
              | Raise _ => Ok (d, SendJson 500)
              | Ok (d', rows) => Ok (d', SendCsv rows)
              end
      end
  end.

End ApiGenerate.

(** ** Vocabulary of the statements *)

Module Spec.
Import PyStr.

(** [c in s] for one character, and [s.endswith(c)]. *)
Definition has (c : ascii) (s : string) : bool := contains (String c "") s.
Definition ends_with_char (c : ascii) (s : string) : bool := endswith s (String c "").

(** An absolute http(s) URL, letter case aside. *)
Definition is_http (s : string) : bool :=
  startswith (lower s) "http://" || startswith (lower s) "https://".

(** The URL [_normalize_website] holds after the [strip] and the removal of
    the query. *)
Definition core (x : string) : string :=
  let url := strip x in
  if contains "?" url then rstrip_with (Ascii.eqb "/") (split_first "?" url) else url.

(** What the specification describes as the dedup domain: the host in lower
    case, without a leading ["www."], nothing else changed. *)
Definition host_without_leading_www (host : string) : string :=
  let h := lower host in
  if startswith h "www." then drop 4 h else h.

(** The first test of [extract_emails_from_website]. *)
Definition passes_guard (url : string) : bool :=
  truthy url && (startswith url "http://" || startswith url "https://").


(** A field that is there, not empty, and not the sentinel once the white
    space around it is removed. *)
Definition real_value (lead : gmap string string) (key : string) : Prop :=
  exists v, lead !! key = Some v /\ v <> "" /\ strip v <> "Nill".

Definition contactable (lead : gmap string string) : Prop :=
  real_value lead "emails_found" /\ real_value lead "website_url".

#[global] Instance real_value_dec lead key : Decision (real_value lead key).
Proof.
  unfold real_value. destruct (lead !! key) as [v|].
  - destruct (decide (v <> "" /\ strip v <> "Nill")) as [H | H].
    + left. exists v. tauto.
    + right. intros (v' & Hv & H'). injection Hv as <-. tauto.
  - right. intros (v & Hv & _). discriminate Hv.
Defined.

#[global] Instance contactable_dec lead : Decision (contactable lead).
Proof. unfold contactable. apply _. Defined.

(** [len(leads)] *)
Definition count (st : Main.state) : Z := Z.of_nat (length (Main.leads st)).

(** The number of leads in an exported file. *)
Definition exported (rows : list (list string)) : Z := Z.of_nat (length rows - 1).

(** The number of leads a finished run exported. *)
Definition exported_by (r : result (gmap string Main.file * list (list string)))
  : option Z :=
  match r with
  | Ok (_, rows) => Some (exported rows)
  | Raise _ => None
  end.

(** The leads a run starts from: what the checkpoint file holds. *)
Definition resumed (w : Main.World) (d : gmap string Main.file)
    (checkpoint_file : option string) : Z :=
  count (Main.loaded_state w d checkpoint_file).

(** The checkpoint path [run_collection] works with. *)
Definition collection_checkpoint (w : Main.World) (work_dir : option string)
  : option string :=
  match (match work_dir with
         | None => if Main.vercel w then Some "/tmp" else None
         | Some p => Some p
         end) with
  | Some dir => Some (dir +:+ "/checkpoint.json")
  | None => None
  end.

(** The store a run loads its checkpoint from: the store it finds, without
    the file at [path] when the run was asked to clear its checkpoint. *)
Definition cleared (clear : bool) (path : string) (d : gmap string Main.file)
  : gmap string Main.file :=
  if clear then delete path d else d.

(** The number of leads a run loads.  [main] clears [CHECKPOINT_FILE] and
    loads the default checkpoint; [run_collection] clears and loads the
    checkpoint of its working directory. *)
Definition main_start (w : Main.World) (a : Main.Args) (d : gmap string Main.file) : Z :=
  resumed w (cleared (Main.clear_checkpoint a) Main.CHECKPOINT_FILE d) None.

Definition collection_start (w : Main.World) (clear : bool) (work_dir : option string)
    (d : gmap string Main.file) : Z :=
  resumed w
    (cleared clear
       (Main._writable_checkpoint_path (Main.vercel w) (collection_checkpoint w work_dir)) d)
    (collection_checkpoint w work_dir).

(** The admission rule as the specification words it: the identity key is
    new, and there is no domain to check or the domain is new. *)
Definition admission_rule (ids doms : gset string) (pid domain : string) : Prop :=
  (pid ∉ ids) /\ (domain = "" \/ domain ∉ doms).

(** The places a ledger admits, of those it is shown one after the other,
    whatever the passes, runs and restarts they come from. *)
Fixpoint osm_admitted (ids doms : gset string) (places : list OsmPlaces.OSMPlace)
  : list OsmPlaces.OSMPlace :=
  match places with
  | [] => []
  | place :: rest =>
      match Main.osm_admit ids doms place with
      | None => osm_admitted ids doms rest
      | Some (ids', doms') => place :: osm_admitted ids' doms' rest
      end
  end.

Fixpoint google_admitted (ids doms : gset string) (places : list Places.PlaceResult)
  : list Places.PlaceResult :=
  match places with
  | [] => []
  | place :: rest =>
      match Main.google_admit ids doms place with
      | None => google_admitted ids doms rest
      | Some (ids', doms') => place :: google_admitted ids' doms' rest
      end
  end.

(** The identity key a lead carries, and the invariant of the ledger: the
    leads carry pairwise different keys, all of them in the set of seen
    keys. *)
Definition lead_key (lead : gmap string string) : option string := lead !! "place_id".

Definition ledger_consistent (st : Main.state) : Prop :=
  NoDup (omap lead_key (Main.leads st)) /\
  (forall pid : string,
     pid ∈ omap lead_key (Main.leads st) -> pid ∈ Main.seen_place_ids st).

(** [st'] carries at least the ledger and as many leads as [st]. *)
Definition extends (st st' : Main.state) : Prop :=
  Main.seen_place_ids st ⊆ Main.seen_place_ids st' /\
  Main.seen_domains st ⊆ Main.seen_domains st' /\
  length (Main.leads st) <= length (Main.leads st').

(** The ledger of [_run_google] turns the place away. *)
Definition covered (st : Main.state) (place : Places.PlaceResult) : Prop :=
  Main.google_admit (Main.seen_place_ids st) (Main.seen_domains st) place = None.

(** Every place of every listed city is covered. *)
Definition cities_covered (w : Main.World) (niche : string) (cities : list string)
    (st : Main.state) : Prop :=
  forall city places p,
    city ∈ cities -> Main.collect_places_for_niche_city w niche city = Ok places ->
    p ∈ places -> covered st p.

(** The second run sees the adapters and the checkpoint path of the first,
    and is asked for the same source and budget. *)
Definition same_sources (w1 w2 : Main.World) : Prop :=
  Main.vercel w2 = Main.vercel w1 /\
  (forall niche city,
     Main.collect_places_for_niche_city w2 niche city
     = Main.collect_places_for_niche_city w1 niche city) /\
  (forall niche city,
     Main.collect_osm_places_for_niche_city w2 niche city
     = Main.collect_osm_places_for_niche_city w1 niche city).

Definition same_request (a1 a2 : Main.Args) : Prop :=
  Main.source a2 = Main.source a1 /\ Main.max_leads a2 = Main.max_leads a1
  /\ Main.checkpoint_file a2 = Main.checkpoint_file a1.

End Spec.

(** ** Vocabulary of the further statements *)

Module Props.
Import PyStr.

(** [u.rstrip("/") or u], the key [_get_candidate_urls] compares by. *)
Definition url_norm (u : string) : string :=
  if truthy (rstrip_with (Ascii.eqb "/") u) then rstrip_with (Ascii.eqb "/") u else u.

(** The four pages [_get_candidate_urls] considers. *)
Definition candidate_pages (w : EmailExtractor.Web) (parsed : UrlLib.ParseResult)
  : list string :=
  let base := UrlLib.scheme parsed +:+ "://" +:+ UrlLib.netloc parsed in
  let stripped := rstrip_with (Ascii.eqb "/") (UrlLib.path parsed) in
  [EmailExtractor.urljoin w base (if truthy stripped then stripped else "/");
   EmailExtractor.urljoin w base "/kontakt";
   EmailExtractor.urljoin w base "/contact";
   EmailExtractor.urljoin w base "/impressum"].

(** One request per page, a pause between two requests. *)
Fixpoint paced (urls : list string) : list EmailExtractor.event :=
  match urls with
  | [] => []
  | [u] => [EmailExtractor.EvGet u]
  | u :: rest => EmailExtractor.EvGet u :: EmailExtractor.EvSleep :: paced rest
  end.

(** The calls of [time.sleep] and the reads of robots.txt among the events
    of a call. *)
Definition pauses (evs : list EmailExtractor.event) : nat :=
  length (List.filter
            (fun e => match e with EmailExtractor.EvSleep => true | _ => false end) evs).
Definition robots_reads (evs : list EmailExtractor.event) : nat :=
  length (List.filter
            (fun e => match e with EmailExtractor.EvRobotsTxt _ => true | _ => false end)
            evs).

(** The entries of a list in the order of their first occurrence, each
    once. *)
Fixpoint first_occurrences (l : list string) : list string :=
  match l with
  | [] => []
  | x :: l' => x :: List.filter (fun y => negb (String.eqb y x)) (first_occurrences l')
  end.

(** The characters a match of [EMAIL_PATTERN] is made of. *)
Definition address_char (c : ascii) : bool :=
  EmailExtractor.local_char c || Ascii.eqb c "@".

(** The part of an address [_is_valid_email] compares with its lists: what
    follows the last ["@"], in lower case, trailing white space removed. *)
Definition compared_domain (domain : string) : string :=
  rstrip_with is_space (lower domain).

(** A domain the two deny lists of the module name. *)
Definition denied (domain : string) : Prop :=
  domain ∈ EmailExtractor.INVALID_EMAIL_DOMAINS
  \/ endswith domain ".wixpress.com" = true
  \/ endswith domain ".sentry.io" = true.

(** What [get_city_bbox] reads off the first entry of an answer: its
    bounding box when that has four entries, reordered to (south, west,
    north, east), and the box around its centre otherwise. *)
Definition four_entry_box (hit : OsmPlaces.Hit) : option OsmPlaces.bbox :=
  match OsmPlaces.h_boundingbox hit with
  | Some [south; north; west; east] => Some (south, west, north, east)
  | _ => None
  end.

Definition centre_box (sv : OsmPlaces.Services) (hit : OsmPlaces.Hit)
  : option OsmPlaces.bbox :=
  match OsmPlaces.h_lat hit, OsmPlaces.h_lon hit with
  | Some lat, Some lon =>
      if truthy lat && truthy lon
      then Some (OsmPlaces.minus sv lat, OsmPlaces.minus sv lon,
                 OsmPlaces.plus sv lat, OsmPlaces.plus sv lon)
      else None
  | _, _ => None
  end.

(** The delays of [k] rounds of backoff. *)
Definition backoff (base_delay : Z) (k : nat) : list Z :=
  map (fun i => (base_delay * 2 ^ Z.of_nat i)%Z) (seq 0 k).

Definition sum_Z (l : list Z) : Z := foldr Z.add 0%Z l.

(** The dedup domain of a place of either adapter. *)
Definition google_domain (p : Places.PlaceResult) : string :=
  Places._extract_domain (Places.website p).

(** A website as both adapters hand it on: not empty, an http(s) URL letter
    case aside, without a query. *)
Definition canonical_website (site : string) : Prop :=
  site <> "" /\ Spec.is_http site = true /\ Spec.has "?" site = false.

(** The loop invariant of [collect_osm_places_for_niche_city]: the places
    kept so far carry pairwise different keys, and [seen_ids] is the set of
    these keys. *)
Definition keys_of (seen_ids : gset string) (all_places : list OsmPlaces.OSMPlace) : Prop :=
  NoDup (OsmPlaces.place_id <$> all_places) /\
  forall x, x ∈ seen_ids <-> x ∈ OsmPlaces.place_id <$> all_places.

(** The loop invariant of [collect_places_for_niche_city]: the places kept
    so far have pairwise different domains, [seen_domains] is the set of
    these domains, and each place is what Place Details gave for a key of
    [seen_place_ids]. *)
Definition domains_of (c : Places.Client) (st : Places.collected) : Prop :=
  NoDup (google_domain <$> Places.valid_places st) /\
  (forall x, x ∈ Places.seen_domains st <-> x ∈ google_domain <$> Places.valid_places st) /\
  (forall p, p ∈ Places.valid_places st ->
     exists i pid, pid ∈ Places.seen_place_ids st
                   /\ Places.fetch_place_details c i pid = Some p).

(** The text query of a pair, and the state [collect_places_for_niche_city]
    is in after its first loop. *)
Definition text_query (niche city : string) : string :=
  niche +:+ " in " +:+ city +:+ ", Germany".

Definition after_text_search (c : Places.Client) (niche city : string)
  : Places.collected :=
  Places.text_loop c (omap Places.required (Places.text_search c (text_query niche city)))
    {| Places.seen_place_ids := ∅; Places.seen_domains := ∅;
       Places.valid_places := []; Places.calls := 0 |}.

(** What a finished collection exported, and what it left under a path of
    the store. *)
Definition rows_of (r : result (gmap string Main.file * list (list string)))
  : option (list (list string)) :=
  match r with
  | Ok (_, rows) => Some rows
  | Raise _ => None
  end.

Definition file_after (r : result (gmap string Main.file * list (list string)))
    (p : string) : option Main.file :=
  match r with
  | Ok (d', _) => d' !! p
  | Raise _ => None
  end.

(** What the request handler sent, if it did not raise. *)
Definition answer (r : result (gmap string Main.file * ApiGenerate.response))
  : option ApiGenerate.response :=
  match r with
  | Ok (_, response) => Some response
  | Raise _ => None
  end.

(** Whether a run returned. *)
Definition returned (r : result Main.state) : bool :=
  match r with
  | Ok _ => true
  | Raise _ => false
  end.

(** The pages of a search: the token the page number [p] is asked with, how
    the request for it ends, whether the search goes on after it, and the
    results it adds. *)
Fixpoint token_at (call : nat -> option string -> nat -> Places.attempt Places.Response)
    (p : nat) : option string :=
  match p with
  | O => None
  | S q =>
      match snd (Places._call_with_retry (call q (token_at call q)) 5 2) with
      | Places.Value response => Places.required (Places.r_next_page_token response)
      | _ => None
      end
  end.

Definition page_outcome (call : nat -> option string -> nat -> Places.attempt Places.Response)
    (p : nat) : Places.outcome Places.Response :=
  snd (Places._call_with_retry (call p (token_at call p)) 5 2).

Definition goes_on (call : nat -> option string -> nat -> Places.attempt Places.Response)
    (p : nat) : bool :=
  match page_outcome call p with
  | Places.Value response =>
      match Places.required (Places.r_next_page_token response) with
      | Some _ => true
      | None => false
      end
  | _ => false
  end.

Definition page_results (call : nat -> option string -> nat -> Places.attempt Places.Response)
    (p : nat) : list (option string) :=
  match page_outcome call p with
  | Places.Value response => Places.r_results response
  | _ => []
  end.

(** The pauses of the page number [p]: the pause for the token when the
    page is asked with one, the delays of the backoff, and the pause after
    an answered request. *)
Definition page_pauses (call : nat -> option string -> nat -> Places.attempt Places.Response)
    (p : nat) : list Places.pause :=
  match Places.required (token_at call p) with
  | Some _ => [Places.TokenSleep]
  | None => []
  end
  ++ map Places.Backoff (fst (Places._call_with_retry (call p (token_at call p)) 5 2))
  ++ match page_outcome call p with
     | Places.Value _ => [Places.ApiSleep]
     | _ => []
     end.

(** [st'] holds the leads of [st], in their order, at the head of its own,
    and at least the ledger of [st]. *)
Definition grows (st st' : Main.state) : Prop :=
  Main.leads st `prefix_of` Main.leads st' /\
  Main.seen_place_ids st ⊆ Main.seen_place_ids st' /\
  Main.seen_domains st ⊆ Main.seen_domains st'.

End Props.

(** ** Worked inputs *)

Module Sample.
Import PyStr.

(** A clock that refuses the numbers written with a minus sign. *)
Definition wall_clock : clock :=
  fun secs => if startswith secs "-" then Raise ValueError else Ok tt.

(** A site whose robots.txt turns every agent away, and whose pages would
    otherwise show an address. *)
Definition closed_site : EmailExtractor.Web :=
  {| EmailExtractor.urljoin := fun base url => base +:+ url;
     EmailExtractor.robots_can_fetch := fun _ _ _ => Ok false;
     EmailExtractor.http_get := fun _ _ => Ok "mail: info@business.de";
     EmailExtractor.sleep := wall_clock |}.

(** A site that shows one address on its home page, and the same and a
    second one on the contact page. *)
Definition open_site : EmailExtractor.Web :=
  {| EmailExtractor.urljoin := fun base url => base +:+ url;
     EmailExtractor.robots_can_fetch := fun _ _ _ => Ok true;
     EmailExtractor.http_get := fun i _ =>
       match i with
       | O => Ok "write to info@business.de"
       | _ => Ok "info@business.de, praxis@business.de"
       end;
     EmailExtractor.sleep := wall_clock |}.

Definition mail_site : EmailExtractor.Web :=
  {| EmailExtractor.urljoin := fun base url => base +:+ url;
     EmailExtractor.robots_can_fetch := fun _ _ _ => Ok true;
     EmailExtractor.http_get := fun _ _ => Ok "Kontakt: praxis@zahnarzt.de";
     EmailExtractor.sleep := wall_clock |}.

(** A lead with a harvested address and one that carries the placeholders. *)
Definition lead_with_email : gmap string string :=
  list_to_map [("niche", "Dentists"); ("city", "Heidelberg");
               ("business_name", "Praxis A"); ("phone", "Nill");
               ("google_maps_url", "https://www.openstreetmap.org/node/1");
               ("website_url", "https://praxis-a.de");
               ("emails_found", "info@praxis-a.de")].

Definition lead_with_placeholders : gmap string string :=
  list_to_map [("niche", "Dentists"); ("city", "Heidelberg");
               ("business_name", "Praxis B"); ("phone", "Nill");
               ("google_maps_url", "https://www.openstreetmap.org/node/2");
               ("website_url", "Nill"); ("emails_found", "Nill")].

Definition google_place (pid site : string) : Places.PlaceResult :=
  {| Places.place_id := pid; Places.name := "Praxis " +:+ pid;
     Places.formatted_address := "Hauptstr. 1, Heidelberg";
     Places.latitude := "49.41"; Places.longitude := "8.69";
     Places.website := site; Places.phone := "";
     Places.google_maps_url := "https://maps.google.com/?cid=" +:+ pid;
     Places.rating := Some "4.5"; Places.user_ratings_total := Some "12";
     Places.types := ["dentist"] |}.

Definition osm_place (pid site : string) : OsmPlaces.OSMPlace :=
  {| OsmPlaces.place_id := pid; OsmPlaces.name := "Praxis " +:+ pid;
     OsmPlaces.formatted_address := "Hauptstr. 1 69117 Heidelberg";
     OsmPlaces.latitude := "49.41"; OsmPlaces.longitude := "8.69";
     OsmPlaces.website := site; OsmPlaces.phone := "";
     OsmPlaces.google_maps_url := "https://www.openstreetmap.org/" +:+ pid;
     OsmPlaces.types := ["amenity=dentist"] |}.

(** Dentists in Heidelberg: three places from Google, two from OSM; nothing
    anywhere else. *)
Definition heidelberg : Main.World :=
  {| Main.vercel := false;
     Main.google_client := Ok tt;
     Main.collect_places_for_niche_city := fun niche city =>
       if String.eqb niche "Dentists" && String.eqb city "Heidelberg"
       then Ok [google_place "ChIJ-A" "https://praxis-a.de";
                google_place "ChIJ-B" "https://praxis-b.de";
                google_place "ChIJ-C" "https://praxis-c.de"]
       else Ok [];
     Main.collect_osm_places_for_niche_city := fun niche city =>
       if String.eqb niche "Dentists" && String.eqb city "Heidelberg"
       then Ok [osm_place "osm:node:1" "https://praxis-a.de";
                osm_place "osm:node:2" "https://praxis-b.de"]
       else Ok [];
     Main.web := fun _ => mail_site;
     Main.sleep_web := "1.0";
     Main.as_completed := fun candidates => candidates |}.

(** Two places whose website has no host beyond ["www."], found in two
    cities. *)
Definition hostless : Main.World :=
  {| Main.vercel := false;
     Main.google_client := Ok tt;
     Main.collect_places_for_niche_city := fun niche city =>
       if String.eqb city "Mannheim" then Ok [google_place "ChIJ-A" "https://www."]
       else if String.eqb city "Heidelberg" then Ok [google_place "ChIJ-B" "https://www."]
       else Ok [];
     Main.collect_osm_places_for_niche_city := fun niche city =>
       if String.eqb city "Mannheim" then Ok [osm_place "osm:node:1" "https://www."]
       else if String.eqb city "Heidelberg" then Ok [osm_place "osm:node:2" "https://www."]
       else Ok [];
     Main.web := fun _ => mail_site;
     Main.sleep_web := "1.0";
     Main.as_completed := fun candidates => candidates |}.

Definition cli (src : string) (budget : Z) (harvest : bool) : Main.Args :=
  {| Main.source := src; Main.max_leads := budget; Main.extract_emails := harvest;
     Main.clear_checkpoint := false; Main.checkpoint_file := None |}.

Definition empty_state : Main.state :=
  {| Main.leads := []; Main.seen_place_ids := ∅; Main.seen_domains := ∅;
     Main.files := ∅ |}.

(** A checkpoint that already holds three leads with an address. *)
Definition three_leads : gmap string Main.file :=
  {[ Main.CHECKPOINT_FILE :=
       Main.Snapshot
         (Some [Main.with_emails
                  (Main.place_to_lead (google_place "ChIJ-A" "https://praxis-a.de")
                     "Dentists" "Heidelberg") ["info@praxis-a.de"] "homepage";
                Main.with_emails
                  (Main.place_to_lead (google_place "ChIJ-B" "https://praxis-b.de")
                     "Dentists" "Heidelberg") ["info@praxis-b.de"] "homepage";
                Main.with_emails
                  (Main.place_to_lead (google_place "ChIJ-C" "https://praxis-c.de")
                     "Dentists" "Heidelberg") ["info@praxis-c.de"] "homepage"])
         (Some ["ChIJ-A"; "ChIJ-B"; "ChIJ-C"])
         (Some ["praxis-a.de"; "praxis-b.de"; "praxis-c.de"]) ]}.

(** A fresh Google run with harvesting and a budget of two: the checkpoint
    it leaves and the records it exports. *)
Definition fresh_run_files : gmap string Main.file :=
  Eval vm_compute in
    match Main.main heidelberg (cli "google" 2 true) ∅ with
    | Ok (d', _) => d'
    | Raise _ => ∅
    end.

Definition fresh_run_rows : list (list string) :=
  Eval vm_compute in
    match Main.main heidelberg (cli "google" 2 true) ∅ with
    | Ok (_, rows) => rows
    | Raise _ => []
    end.

(** The two leads of test_integration.py. *)
Definition test_leads : list (gmap string string) :=
  [list_to_map [("niche", "Dentists"); ("city", "Heidelberg");
                ("business_name", "Test"); ("formatted_address", "Test St 1")];
   list_to_map [("niche", "Dentists"); ("city", "Heidelberg");
                ("business_name", "Test2"); ("formatted_address", "Test St 2")]].

(** The place of the way 77, a dentist whose website tag carries a tracking
    parameter. *)
Definition osm_way_77 : OsmPlaces.OSMPlace :=
  {| OsmPlaces.place_id := "osm:way:77"; OsmPlaces.name := "Praxis Dr. A";
     OsmPlaces.formatted_address := "Heidelberg";
     OsmPlaces.latitude := "49.41"; OsmPlaces.longitude := "8.69";
     OsmPlaces.website := "https://Praxis-A.de"; OsmPlaces.phone := "";
     OsmPlaces.google_maps_url := "https://www.openstreetmap.org/way/77";
     OsmPlaces.types := ["amenity=dentist"] |}.

(** A Place Details result and the place it stands for. *)
Definition details_a : Places.Details :=
  {| Places.d_place_id := Some "ChIJ-A";
     Places.d_location := Some (Some "49.41", Some "8.69");
     Places.d_formatted_address := Some "Hauptstr. 1, Heidelberg";
     Places.d_website := Some "praxis-a.de/?gclid=1";
     Places.d_name := Some "Praxis A";
     Places.d_formatted_phone_number := None;
     Places.d_url := None;
     Places.d_rating := Some "4.5";
     Places.d_user_ratings_total := None;
     Places.d_types := Some ["dentist"] |}.

Definition google_place_a : Places.PlaceResult :=
  {| Places.place_id := "ChIJ-A"; Places.name := "Praxis A";
     Places.formatted_address := "Hauptstr. 1, Heidelberg";
     Places.latitude := "49.41"; Places.longitude := "8.69";
     Places.website := "https://praxis-a.de"; Places.phone := "";
     Places.google_maps_url := "";
     Places.rating := Some "4.5"; Places.user_ratings_total := None;
     Places.types := ["dentist"] |}.

(** Heidelberg as the two OSM services show it: a bounding box, and one
    physiotherapist that both tag queries of the niche answer with. *)
Definition physio_element : OsmPlaces.Element :=
  {| OsmPlaces.e_type := Some "node"; OsmPlaces.e_id := Some "7";
     OsmPlaces.e_lat := Some "49.40"; OsmPlaces.e_lon := Some "8.68";
     OsmPlaces.e_center := None;
     OsmPlaces.e_tags :=
       Some (list_to_map [("name", "Physio Nord"); ("website", "physio-nord.de")]) |}.

Definition osm_services : OsmPlaces.Services :=
  {| OsmPlaces.nominatim := fun q =>
       if String.eqb q "Heidelberg, Germany"
       then Ok [{| OsmPlaces.h_boundingbox := Some ["49.35"; "49.46"; "8.57"; "8.79"];
                   OsmPlaces.h_lat := Some "49.41"; OsmPlaces.h_lon := Some "8.69" |}]
       else if String.eqb q "Ulm, Germany"
       then Ok [{| OsmPlaces.h_boundingbox := None;
                   OsmPlaces.h_lat := Some "48.40"; OsmPlaces.h_lon := Some "9.99" |}]
       else Ok [];
     OsmPlaces.overpass := fun _ key value =>
       if String.eqb value "physiotherapist" then Ok [Some physio_element; None]
       else Raise OtherError;
     OsmPlaces.sleep := wall_clock;
     OsmPlaces.minus := fun x => x +:+ "-0.05";
     OsmPlaces.plus := fun x => x +:+ "+0.05";
     OsmPlaces.fixed4 := fun x => x |}.

Definition physio_place : OsmPlaces.OSMPlace :=
  {| OsmPlaces.place_id := "osm:node:7"; OsmPlaces.name := "Physio Nord";
     OsmPlaces.formatted_address := "49.40, 8.68";
     OsmPlaces.latitude := "49.40"; OsmPlaces.longitude := "8.68";
     OsmPlaces.website := "https://physio-nord.de"; OsmPlaces.phone := "";
     OsmPlaces.google_maps_url := "https://www.openstreetmap.org/node/7";
     OsmPlaces.types := ["amenity=physiotherapist"] |}.

Definition heidelberg_box : OsmPlaces.bbox := ("49.35", "8.57", "49.46", "8.79").

(** Dentists in Heidelberg as the Google client shows them: the text search
    gives two keys and a result without one; the second key is a second
    entry of the first practice, under the same domain; the nearby search
    gives the first key again and a third one. *)
Definition details_of (pid site : string) : Places.Details :=
  {| Places.d_place_id := Some pid;
     Places.d_location := Some (Some "49.41", Some "8.69");
     Places.d_formatted_address := Some "Hauptstr. 1, Heidelberg";
     Places.d_website := Some site;
     Places.d_name := Some "Praxis A";
     Places.d_formatted_phone_number := None;
     Places.d_url := None;
     Places.d_rating := Some "4.5";
     Places.d_user_ratings_total := None;
     Places.d_types := Some ["dentist"] |}.

Definition google_client : Places.Client :=
  {| Places.text_search := fun q =>
       if String.eqb q "Dentists in Heidelberg, Germany"
       then [Some "ChIJ-A"; None; Some "ChIJ-B"] else [];
     Places.nearby_search := fun _ _ => [Some "ChIJ-A"; Some "ChIJ-C"];
     Places.place := fun _ pid =>
       if String.eqb pid "ChIJ-A" then Ok (Some details_a)
       else if String.eqb pid "ChIJ-B"
       then Ok (Some (details_of "ChIJ-B" "https://www.praxis-a.de/kontakt"))
       else if String.eqb pid "ChIJ-C"
       then Ok (Some (details_of "ChIJ-C" "zahn-c.de"))
       else Raise OtherError;
     Places.geocode := fun _ => Some ("49.41", "8.69") |}.

Definition google_place_c : Places.PlaceResult :=
  {| Places.place_id := "ChIJ-C"; Places.name := "Praxis A";
     Places.formatted_address := "Hauptstr. 1, Heidelberg";
     Places.latitude := "49.41"; Places.longitude := "8.69";
     Places.website := "https://zahn-c.de"; Places.phone := "";
     Places.google_maps_url := "";
     Places.rating := Some "4.5"; Places.user_ratings_total := None;
     Places.types := ["dentist"] |}.

(** A service that answers the third call, after two rate-limit errors. *)
Definition flaky (i : nat) : Places.attempt string :=
  match i with
  | 0 => Places.Threw "OVER_QUERY_LIMIT"
  | 1 => Places.Threw "HTTP 429 Too Many Requests"
  | _ => Places.Returned "ok"
  end.

(** A text search of two pages: the first request of the first page hits
    the rate limit once, the second page carries no token. *)
Definition two_pages (page : nat) (token : option string) (i : nat)
  : Places.attempt Places.Response :=
  match page, i with
  | 0, 0 => Places.Threw "OVER_QUERY_LIMIT"
  | 0, _ =>
      Places.Returned {| Places.r_results := [Some "ChIJ-A"; None];
                         Places.r_next_page_token := Some "t1" |}
  | 1, _ =>
      if bool_decide (token = Some "t1")
      then Places.Returned {| Places.r_results := [Some "ChIJ-B"];
                              Places.r_next_page_token := None |}
      else Places.Threw "INVALID_REQUEST"
  | _, _ => Places.Threw "INVALID_REQUEST"
  end.

End Sample.

(* ===================================================================== *)
(** * Part II.  Lemmas and theorems                                       *)
(* ===================================================================== *)

Import PyStr Spec Sample.

(** ** Strings *)

Section StringFacts.

Implicit Types (s t u p : string) (c a b : ascii) (f : ascii -> bool).

Lemma str_app_nil t : "" +:+ t = t.
Proof. reflexivity. Qed.

Lemma str_app_cons a s t : String a s +:+ t = String a (s +:+ t).
Proof. reflexivity. Qed.

Lemma str_app_nil_r s : s +:+ "" = s.
Proof. induction s as [|a s IH]; [reflexivity|]. rewrite str_app_cons, IH. reflexivity. Qed.

Lemma str_app_assoc s t u : (s +:+ t) +:+ u = s +:+ (t +:+ u).
Proof.
  induction s as [|a s IH]; [reflexivity|].
  rewrite !str_app_cons, IH. reflexivity.
Qed.

Lemma str_length_app s t : String.length (s +:+ t) = String.length s + String.length t.
Proof.
  induction s as [|a s IH]; [reflexivity|].
  rewrite str_app_cons. simpl. rewrite IH. reflexivity.
Qed.

Lemma truthy_false s : truthy s = false -> s = "".
Proof. destruct s; [reflexivity|discriminate]. Qed.

Lemma truthy_true s : truthy s = true <-> s <> "".
Proof. destruct s; split; intros H; try discriminate; try reflexivity; congruence. Qed.

(** *** [lower] *)

Lemma lower_app s t : lower (s +:+ t) = lower s +:+ lower t.
Proof.
  induction s as [|a s IH]; [reflexivity|].
  rewrite str_app_cons. simpl. rewrite IH. reflexivity.
Qed.

Lemma lower_length s : String.length (lower s) = String.length s.
Proof. induction s as [|a s IH]; simpl; congruence. Qed.

Lemma lower_char_space c : is_space (lower_char c) = is_space c.
Proof. destruct c as [[] [] [] [] [] [] [] []]; reflexivity. Qed.

(** *** [lstrip] and [rstrip] *)

Lemma rstrip_cons f c s :
  rstrip_with f (String c s) =
  if truthy (rstrip_with f s) then String c (rstrip_with f s)
  else if f c then "" else String c "".
Proof. simpl. destruct (rstrip_with f s); reflexivity. Qed.

Lemma rstrip_keep_head f c s :
  f c = false -> rstrip_with f (String c s) = String c (rstrip_with f s).
Proof.
  intros Hc. rewrite rstrip_cons, Hc.
  destruct (rstrip_with f s); reflexivity.
Qed.

Lemma rstrip_app f s t :
  rstrip_with f t <> "" -> rstrip_with f (s +:+ t) = s +:+ rstrip_with f t.
Proof.
  intros Ht. induction s as [|a s IH]; [reflexivity|].
  rewrite !str_app_cons, rstrip_cons, IH.
  destruct (s +:+ rstrip_with f t) eqn:E; [|reflexivity].
  destruct s; [rewrite str_app_nil in E; contradiction | discriminate].
Qed.

Lemma rstrip_idem f s : rstrip_with f (rstrip_with f s) = rstrip_with f s.
Proof.
  induction s as [|a s IH]; [reflexivity|].
  rewrite rstrip_cons.
  destruct (rstrip_with f s) as [|d r] eqn:E.
  - simpl. destruct (f a) eqn:Fa; simpl; [reflexivity|]. rewrite Fa. reflexivity.
  - cbn [truthy]. rewrite rstrip_cons, IH. reflexivity.
Qed.

(** What [rstrip] removes is a suffix of strippable characters. *)
Lemma rstrip_prefix f s :
  exists t, s = rstrip_with f s +:+ t /\ forallb_str f t = true.
Proof.
  induction s as [|a s (t & Hs & Ht)].
  - exists "". split; reflexivity.
  - rewrite rstrip_cons. destruct (rstrip_with f s) as [|d r] eqn:E; simpl.
    + destruct (f a) eqn:Fa.
      * exists (String a s). split; [reflexivity|].
        simpl. rewrite Fa. rewrite str_app_nil in Hs. subst t. exact Ht.
      * exists t. split; [|exact Ht]. rewrite !str_app_cons, str_app_nil.
        rewrite str_app_nil in Hs. congruence.
    + exists t. split; [|exact Ht]. rewrite str_app_cons. congruence.
Qed.

Lemma lstrip_suffix f s :
  exists t, s = t +:+ lstrip_with f s.
Proof.
  induction s as [|a s (t & Hs)].
  - exists "". reflexivity.
  - simpl. destruct (f a).
    + exists (String a t). rewrite str_app_cons. congruence.
    + exists "". reflexivity.
Qed.

Lemma lstrip_head f s :
  match lstrip_with f s with
  | "" => True
  | String c _ => f c = false
  end.
Proof.
  induction s as [|a s IH]; simpl; [exact I|].
  destruct (f a) eqn:Fa; [exact IH|exact Fa].
Qed.

Lemma lstrip_id f c s : f c = false -> lstrip_with f (String c s) = String c s.
Proof. intros H. simpl. rewrite H. reflexivity. Qed.

Lemma strip_keep_head c s :
  is_space c = false -> strip (String c s) = rstrip_with is_space (String c s).
Proof. intros H. unfold strip, strip_with. rewrite lstrip_id by exact H. reflexivity. Qed.

Lemma strip_head s :
  match strip s with
  | "" => True
  | String c _ => is_space c = false
  end.
Proof.
  unfold strip, strip_with.
  pose proof (lstrip_head is_space s) as H.
  destruct (lstrip_with is_space s) as [|c r]; [exact I|].
  rewrite rstrip_keep_head by exact H. exact H.
Qed.

Lemma strip_idem s : strip (strip s) = strip s.
Proof.
  pose proof (strip_head s) as H.
  destruct (strip s) as [|c r] eqn:E; [reflexivity|].
  rewrite strip_keep_head by exact H.
  rewrite <- E. unfold strip, strip_with. apply rstrip_idem.
Qed.

(** *** Occurrences of one character *)

Lemma has_nil c : has c "" = false.
Proof. reflexivity. Qed.

Lemma has_cons c a s : has c (String a s) = Ascii.eqb c a || has c s.
Proof.
  unfold has. simpl. destruct (Ascii.eqb c a); [|reflexivity].
  destruct s; reflexivity.
Qed.

Lemma has_app c s t : has c (s +:+ t) = has c s || has c t.
Proof.
  induction s as [|a s IH]; [reflexivity|].
  rewrite str_app_cons, !has_cons, IH. apply orb_assoc.
Qed.

Lemma has_rstrip c f s : has c s = false -> has c (rstrip_with f s) = false.
Proof.
  intros H. destruct (rstrip_prefix f s) as (t & Hs & _).
  rewrite Hs, has_app in H. apply orb_false_elim in H. tauto.
Qed.

Lemma has_lstrip c f s : has c s = false -> has c (lstrip_with f s) = false.
Proof.
  intros H. destruct (lstrip_suffix f s) as (t & Hs).
  rewrite Hs, has_app in H. apply orb_false_elim in H. tauto.
Qed.

Lemma has_strip c s : has c s = false -> has c (strip s) = false.
Proof. intros H. apply has_rstrip, has_lstrip, H. Qed.

Lemma has_split_first c s : has c (split_first c s) = false.
Proof.
  unfold split_first. induction s as [|a s IH]; [reflexivity|].
  simpl. destruct (Ascii.eqb a c) eqn:E; [reflexivity|].
  destruct (split_char c s) as [|h t]; simpl in *.
  - rewrite has_cons, Ascii.eqb_sym, E. reflexivity.
  - rewrite has_cons, Ascii.eqb_sym, E. exact IH.
Qed.

Lemma split_first_no c s : has c s = false -> split_first c s = s.
Proof.
  unfold split_first. induction s as [|a s IH]; [reflexivity|].
  rewrite has_cons. intros H. apply orb_false_elim in H as [H1 H2].
  simpl. rewrite Ascii.eqb_sym, H1. specialize (IH H2).
  destruct (split_char c s) as [|h t]; simpl in *; congruence.
Qed.

(** *** [startswith] and [endswith] *)

Lemma startswith_app p s : startswith (p +:+ s) p = true.
Proof.
  induction p as [|a p IH]; [destruct s; reflexivity|].
  rewrite str_app_cons. simpl. rewrite Ascii.eqb_refl. exact IH.
Qed.

Lemma startswith_nil_r s : startswith s "" = true.
Proof. destruct s; reflexivity. Qed.

Lemma startswith_nil_l p : startswith "" p = true -> p = "".
Proof. destruct p; [reflexivity|discriminate]. Qed.

(** A prefix without white space survives [rstrip] under [lower]. *)
Lemma startswith_lower_rstrip p s :
  forallb_str (fun c => negb (is_space c)) p = true ->
  startswith (lower s) p = true ->
  startswith (lower (rstrip_with is_space s)) p = true.
Proof.
  revert s. induction p as [|a p IH]; intros s Hp Hs.
  - apply startswith_nil_r.
  - destruct s as [|b s]; [discriminate|].
    simpl in Hp, Hs. apply andb_prop in Hp as [Ha Hp]. apply andb_prop in Hs as [Hb Hs].
    apply Ascii.eqb_eq in Hb. subst a.
    rewrite lower_char_space in Ha. apply negb_true_iff in Ha.
    rewrite rstrip_keep_head by exact Ha.
    simpl. rewrite Ascii.eqb_refl. apply IH; assumption.
Qed.

Lemma ends_with_char_nil c : ends_with_char c "" = false.
Proof. reflexivity. Qed.

Lemma ends_with_char_cons c a s :
  ends_with_char c (String a s) =
  if truthy s then ends_with_char c s else Ascii.eqb a c.
Proof.
  unfold ends_with_char. simpl. destruct s as [|d r]; simpl.
  - destruct (Ascii.eqb a c); reflexivity.
  - destruct (Ascii.eqb a c); reflexivity.
Qed.

Lemma ends_with_char_app c s t :
  t <> "" -> ends_with_char c (s +:+ t) = ends_with_char c t.
Proof.
  intros Ht. induction s as [|a s IH]; [reflexivity|].
  rewrite str_app_cons, ends_with_char_cons, IH.
  destruct (s +:+ t) eqn:E; [|reflexivity].
  destruct s; [rewrite str_app_nil in E; contradiction|discriminate].
Qed.

Lemma rstrip_no_trailing c s :
  ends_with_char c (rstrip_with (Ascii.eqb c) s) = false.
Proof.
  induction s as [|a s IH]; [reflexivity|].
  rewrite rstrip_cons. destruct (rstrip_with (Ascii.eqb c) s) as [|d r] eqn:E; simpl.
  - destruct (Ascii.eqb c a) eqn:Ea; [reflexivity|].
    rewrite ends_with_char_cons. simpl. rewrite Ascii.eqb_sym. exact Ea.
  - rewrite ends_with_char_cons. simpl. exact IH.
Qed.

End StringFacts.

(** ** Website normalisation (utils/places.py, utils/osm_places.py) *)

Section Normalize.

Implicit Types (s x y : string).

Lemma normalize_unfold x :
  Places._normalize_website x =
  if negb (truthy x) then ""
  else if truthy (core x) && negb (is_http (core x)) then "https://" +:+ core x
       else core x.
Proof. reflexivity. Qed.

Lemma split_first_prefix c s : exists t, s = split_first c s +:+ t.
Proof.
  unfold split_first. induction s as [|a s (t & Ht)].
  - exists "". reflexivity.
  - simpl. destruct (Ascii.eqb a c).
    + exists (String a s). reflexivity.
    + destruct (split_char c s) as [|h l]; simpl in *.
      * exists s. reflexivity.
      * exists t. rewrite str_app_cons. congruence.
Qed.

Lemma core_no_query x : has "?" (core x) = false.
Proof.
  unfold core. fold (has "?" (strip x)).
  destruct (has "?" (strip x)) eqn:E; [|exact E].
  apply has_rstrip, has_split_first.
Qed.

Lemma core_head x :
  match core x with
  | "" => True
  | String c _ => is_space c = false
  end.
Proof.
  unfold core. pose proof (strip_head x) as H.
  destruct (contains "?" (strip x)); [|exact H].
  destruct (split_first_prefix "?" (strip x)) as (t & Ht).
  destruct (rstrip_prefix (Ascii.eqb "/") (split_first "?" (strip x))) as (t' & Ht' & _).
  destruct (rstrip_with (Ascii.eqb "/") (split_first "?" (strip x))) as [|c r]; [exact I|].
  rewrite Ht' in Ht. rewrite !str_app_cons in Ht. rewrite Ht in H. exact H.
Qed.

Lemma is_http_prefixed s : is_http ("https://" +:+ s) = true.
Proof.
  unfold is_http. rewrite lower_app.
  change (lower "https://") with "https://".
  rewrite startswith_app. apply orb_true_r.
Qed.

Lemma normalize_cases x :
  Places._normalize_website x = "" \/
  (Places._normalize_website x = core x /\ core x <> "" /\ is_http (core x) = true) \/
  (Places._normalize_website x = "https://" +:+ core x /\ core x <> "").
Proof.
  rewrite normalize_unfold.
  destruct (truthy x); simpl; [|left; reflexivity].
  destruct (truthy (core x)) eqn:T; simpl.
  - apply truthy_true in T. destruct (is_http (core x)) eqn:H; simpl.
    + right. left. auto.
    + right. right. auto.
  - left. apply truthy_false, T.
Qed.

Lemma normalize_http x :
  Places._normalize_website x <> "" -> is_http (Places._normalize_website x) = true.
Proof.
  intros Hne. destruct (normalize_cases x) as [H | [(H & _ & Hh) | (H & _)]].
  - contradiction.
  - rewrite H. exact Hh.
  - rewrite H. apply is_http_prefixed.
Qed.

Lemma normalize_no_query x : has "?" (Places._normalize_website x) = false.
Proof.
  destruct (normalize_cases x) as [H | [(H & _) | (H & _)]]; rewrite H.
  - reflexivity.
  - apply core_no_query.
  - rewrite has_app, core_no_query. reflexivity.
Qed.

Lemma normalize_head x :
  match Places._normalize_website x with
  | "" => True
  | String c _ => is_space c = false
  end.
Proof.
  destruct (normalize_cases x) as [H | [(H & _) | (H & _)]]; rewrite H.
  - exact I.
  - apply core_head.
  - reflexivity.
Qed.

Lemma is_http_rstrip s : is_http s = true -> is_http (rstrip_with is_space s) = true.
Proof.
  unfold is_http. intros H. apply orb_prop in H as [H | H].
  - rewrite startswith_lower_rstrip; [reflexivity|reflexivity|exact H].
  - rewrite (startswith_lower_rstrip "https://"); [apply orb_true_r|reflexivity|exact H].
Qed.

(** A second pass can only strip white space. *)
Lemma normalize_twice x :
  Places._normalize_website (Places._normalize_website x)
  = strip (Places._normalize_website x).
Proof.
  pose proof (normalize_head x) as Hh.
  pose proof (normalize_no_query x) as Hq.
  pose proof (normalize_http x) as Hp.
  destruct (Places._normalize_website x) as [|c r]; [reflexivity|].
  specialize (Hp ltac:(discriminate)).
  rewrite normalize_unfold. cbn [truthy negb].
  assert (Hcore : core (String c r) = strip (String c r)).
  { unfold core. fold (has "?" (strip (String c r))).
    rewrite has_strip by exact Hq. reflexivity. }
  rewrite Hcore, strip_keep_head by exact Hh.
  rewrite is_http_rstrip by exact Hp.
  rewrite andb_false_r. reflexivity.
Qed.

Lemma strip_prefixed s :
  strip s <> "" -> strip ("https://" +:+ strip s) = "https://" +:+ strip s.
Proof.
  intros Hne. rewrite !str_app_cons, strip_keep_head by reflexivity.
  change (String "h" (String "t" (String "t" (String "p" (String "s" (String ":"
           (String "/" (String "/" ("" +:+ strip s)))))))))
    with ("https://" +:+ strip s).
  assert (R : rstrip_with is_space (strip s) = strip s).
  { unfold strip, strip_with. apply rstrip_idem. }
  rewrite rstrip_app; rewrite R; [reflexivity|exact Hne].
Qed.

Lemma normalize_idempotent_no_query x :
  contains "?" x = false ->
  Places._normalize_website (Places._normalize_website x) = Places._normalize_website x.
Proof.
  intros Hq. rewrite normalize_twice.
  assert (Hcore : core x = strip x).
  { unfold core. fold (has "?" (strip x)). rewrite has_strip by exact Hq. reflexivity. }
  destruct (normalize_cases x) as [H | [(H & _) | (H & Hne)]]; rewrite H.
  - reflexivity.
  - rewrite Hcore. apply strip_idem.
  - rewrite Hcore in *. apply strip_prefixed, Hne.
Qed.

Lemma normalize_no_trailing_slash x :
  contains "?" (strip x) = true ->
  endswith (Places._normalize_website x) "/" = false.
Proof.
  intros Hq. fold (ends_with_char "/" (Places._normalize_website x)).
  assert (Hcore : ends_with_char "/" (core x) = false).
  { unfold core. rewrite Hq. apply rstrip_no_trailing. }
  destruct (normalize_cases x) as [H | [(H & _) | (H & Hne)]]; rewrite H.
  - reflexivity.
  - exact Hcore.
  - rewrite ends_with_char_app by exact Hne. exact Hcore.
Qed.

End Normalize.

(** C5 (as amended).  For every input, a non-empty result of
    [_normalize_website] starts with [http://] or [https://] (letter case
    aside) and contains no ["?"]; it has no trailing slash when the stripped
    input had a query to remove; a second normalisation only strips white
    space, and changes nothing when the input has no ["?"]; the two worked
    examples evaluate as stated; the OSM copy of the function is the same
    function. *)
Theorem normalize_website_canonical :
  (forall x, Places._normalize_website x <> "" ->
     (startswith (lower (Places._normalize_website x)) "http://" = true \/
      startswith (lower (Places._normalize_website x)) "https://" = true) /\
     contains "?" (Places._normalize_website x) = false) /\
  (forall x, contains "?" (strip x) = true ->
     endswith (Places._normalize_website x) "/" = false) /\
  (forall x, Places._normalize_website (Places._normalize_website x)
             = strip (Places._normalize_website x)) /\
  (forall x, contains "?" x = false ->
     Places._normalize_website (Places._normalize_website x)
     = Places._normalize_website x) /\
  Places._normalize_website "example.com" = "https://example.com" /\
  Places._normalize_website "http://example.com?utm_source=fb" = "http://example.com" /\
  (forall x, OsmPlaces._normalize_website x = Places._normalize_website x).
Proof.
  repeat split.
  - apply orb_prop. apply normalize_http. assumption.
  - apply normalize_no_query.
  - apply normalize_no_trailing_slash.
  - apply normalize_twice.
  - apply normalize_idempotent_no_query.
Qed.

(** C5, applied: a URL with a query and a path. *)
Lemma normalize_website_canonical_witness :
  contains "?" (strip "  Example.com/shop/?gclid=1 ") = true /\
  endswith (Places._normalize_website "  Example.com/shop/?gclid=1 ") "/" = false /\
  contains "?" "www.foo.de/kontakt" = false /\
  Places._normalize_website (Places._normalize_website "www.foo.de/kontakt")
  = Places._normalize_website "www.foo.de/kontakt".
Proof.
  pose proof normalize_website_canonical as (_ & Hslash & _ & Hidem & _).
  split; [reflexivity|]. split; [apply Hslash; reflexivity|].
  split; [reflexivity|]. apply Hidem. reflexivity.
Defined.

(** C5 as stated fails twice: a trailing slash survives when the URL has no
    query, and white space in front of a removed query makes the second pass
    differ from the first. *)
Lemma normalize_website_counterexample :
  Places._normalize_website "https://example.com/" = "https://example.com/" /\
  endswith (Places._normalize_website "https://example.com/") "/" = true /\
  Places._normalize_website "example.com ?ref=1" = "https://example.com " /\
  Places._normalize_website (Places._normalize_website "example.com ?ref=1")
  <> Places._normalize_website "example.com ?ref=1".
Proof. repeat split; try reflexivity. discriminate. Qed.

(** ** Domains for de-duplication *)

(** C6, evaluated.  [_extract_domain] and the OSM [get_domain_for_dedup]
    remove every occurrence of ["www."] from the host, not only a leading
    one: the host [www.mywww.de] becomes [myde]. *)
Theorem extract_domain_removes_every_www :
  Places._extract_domain "https://www.mywww.de/" = "myde" /\
  Places.get_domain_for_dedup "https://www.mywww.de/" = "myde" /\
  OsmPlaces.get_domain_for_dedup "https://www.mywww.de/" = "myde" /\
  host_without_leading_www "www.mywww.de" = "mywww.de" /\
  Places._extract_domain "https://www.foo.de/kontakt" = "foo.de".
Proof. repeat split; reflexivity. Qed.

(** Two different hosts then share one domain. *)
Lemma extract_domain_collision :
  Places._extract_domain "https://xwww.shop.de" = "xshop.de" /\
  Places._extract_domain "https://xshop.de" = "xshop.de".
Proof. split; reflexivity. Qed.

(** ** Email validity (utils/email_extractor.py) *)

Section EmailValidity.

Implicit Types (s l r local domain email : string) (c a : ascii).

Lemma rsplit1_none c s : rsplit1 c s = None <-> has c s = false.
Proof.
  induction s as [|a s IH]; [split; reflexivity|].
  simpl. rewrite has_cons, Ascii.eqb_sym.
  destruct (rsplit1 c s) as [[l r]|].
  - split; [discriminate|]. intros H. apply orb_false_elim in H as [_ H].
    apply IH in H. discriminate.
  - destruct (Ascii.eqb c a); simpl.
    + split; discriminate.
    + split; intros _; [apply IH|]; reflexivity.
Qed.

Lemma rsplit1_spec c s l r :
  rsplit1 c s = Some (l, r) -> s = l +:+ String c r /\ has c r = false.
Proof.
  revert l. induction s as [|a s IH]; intros l H; [discriminate|].
  simpl in H. destruct (rsplit1 c s) as [[l' r']|] eqn:E.
  - injection H as <- <-. destruct (IH l' eq_refl) as [-> Hr].
    split; [reflexivity|exact Hr].
  - destruct (Ascii.eqb a c) eqn:Ea; [|discriminate].
    injection H as <- <-. apply Ascii.eqb_eq in Ea. subst a.
    split; [reflexivity|]. apply rsplit1_none, E.
Qed.

Lemma rsplit1_app c l r :
  has c r = false -> rsplit1 c (l +:+ String c r) = Some (l, r).
Proof.
  intros Hr. apply rsplit1_none in Hr.
  induction l as [|a l IH].
  - rewrite str_app_nil. simpl. rewrite Hr, Ascii.eqb_refl. reflexivity.
  - rewrite str_app_cons. simpl. rewrite IH. reflexivity.
Qed.

Lemma lower_char_at a : Ascii.eqb "@" (lower_char a) = Ascii.eqb "@" a.
Proof. destruct a as [[] [] [] [] [] [] [] []]; reflexivity. Qed.

Lemma has_at_lower s : has "@" (lower s) = has "@" s.
Proof.
  induction s as [|a s IH]; [reflexivity|].
  simpl. rewrite !has_cons, lower_char_at, IH. reflexivity.
Qed.

Lemma hex_char_facts a :
  EmailExtractor.hex_char a = true ->
  EmailExtractor.hex_char (lower_char a) = true /\ is_space a = false
  /\ Ascii.eqb a "010" = false.
Proof.
  destruct a as [[] [] [] [] [] [] [] []]; intros H;
    solve [discriminate H | repeat split; reflexivity].
Qed.

Lemma hex_lower s :
  forallb_str EmailExtractor.hex_char s = true ->
  forallb_str EmailExtractor.hex_char (lower s) = true.
Proof.
  induction s as [|a s IH]; [reflexivity|].
  simpl. intros H. apply andb_prop in H as [Ha Hs].
  destruct (hex_char_facts a Ha) as (-> & _). simpl. auto.
Qed.

Lemma hex_no_final_newline s :
  forallb_str EmailExtractor.hex_char s = true -> endswith s EmailExtractor.NL = false.
Proof.
  induction s as [|a s IH]; [reflexivity|].
  simpl. intros H. apply andb_prop in H as [Ha Hs].
  destruct (hex_char_facts a Ha) as (_ & _ & Hn).
  rewrite Hn. simpl. auto.
Qed.

Lemma hex_id_match local :
  forallb_str EmailExtractor.hex_char local = true ->
  20 <= String.length local ->
  EmailExtractor.HEX_ID_PATTERN_match (lower local) = true.
Proof.
  intros Hh Hl. unfold EmailExtractor.HEX_ID_PATTERN_match.
  rewrite hex_no_final_newline by (apply hex_lower, Hh).
  rewrite hex_lower by exact Hh. rewrite lower_length, andb_true_l.
  apply Nat.leb_le. exact Hl.
Qed.

(** The two halves the validator compares, for an address whose last ["@"]
    follows a hexadecimal local part. *)
Lemma rsplit_lowered local domain :
  forallb_str EmailExtractor.hex_char local = true ->
  local <> "" ->
  has "@" domain = false ->
  rsplit1 "@" (strip (lower (local +:+ String "@" domain)))
  = Some (lower local, rstrip_with is_space (lower domain)).
Proof.
  intros Hh Hne Hd.
  destruct local as [|c l]; [contradiction|].
  simpl in Hh. apply andb_prop in Hh as [Hc _].
  destruct (hex_char_facts c Hc) as (_ & Hsp & _).
  rewrite lower_app.
  change (lower (String "@" domain)) with (String "@" (lower domain)).
  assert (Hstrip : strip (lower (String c l) +:+ String "@" (lower domain))
                   = rstrip_with is_space
                       (lower (String c l) +:+ String "@" (lower domain))).
  { cbn [lower]. rewrite str_app_cons. apply strip_keep_head.
    rewrite lower_char_space. exact Hsp. }
  rewrite Hstrip.
  assert (R : rstrip_with is_space (String "@" (lower domain))
              = String "@" (rstrip_with is_space (lower domain))).
  { apply rstrip_keep_head. reflexivity. }
  rewrite rstrip_app by (rewrite R; discriminate).
  rewrite R. apply rsplit1_app.
  apply has_rstrip. rewrite has_at_lower. exact Hd.
Qed.

Lemma hex_local_rejected email local domain :
  rsplit1 "@" email = Some (local, domain) ->
  forallb_str EmailExtractor.hex_char local = true ->
  20 <= String.length local ->
  EmailExtractor._is_valid_email email = false.
Proof.
  intros Hsplit Hh Hl.
  destruct (rsplit1_spec _ _ _ _ Hsplit) as [-> Hd].
  assert (Hne : local <> "") by (destruct local; simpl in Hl; [lia|discriminate]).
  unfold EmailExtractor._is_valid_email.
  destruct (negb _ || _); [reflexivity|].
  rewrite rsplit_lowered by assumption.
  destruct (bool_decide _); [reflexivity|].
  destruct (existsb _ _); [reflexivity|].
  rewrite hex_id_match by assumption. reflexivity.
Qed.

Lemma png_rejected email :
  contains ".png" email = true -> EmailExtractor._is_valid_email email = false.
Proof.
  intros H. unfold EmailExtractor._is_valid_email.
  destruct (negb _ || _); [reflexivity|].
  destruct (rsplit1 _ _) as [[local domain]|]; [|reflexivity].
  destruct (bool_decide _); [reflexivity|].
  destruct (existsb _ _); [reflexivity|].
  destruct (EmailExtractor.HEX_ID_PATTERN_match _); [reflexivity|].
  rewrite H, orb_true_r. reflexivity.
Qed.

End EmailValidity.

(** C7.  [_is_valid_email] accepts [info@business.de], rejects
    [support@example.com], rejects every address whose local part (what
    precedes the last ["@"]) consists of 20 or more hexadecimal digits, and
    rejects every address that contains [.png]. *)
Theorem email_validity_filter :
  EmailExtractor._is_valid_email "info@business.de" = true /\
  EmailExtractor._is_valid_email "support@example.com" = false /\
  (forall email local domain,
     rsplit1 "@" email = Some (local, domain) ->
     forallb_str EmailExtractor.hex_char local = true ->
     20 <= String.length local ->
     EmailExtractor._is_valid_email email = false) /\
  (forall email,
     contains ".png" email = true -> EmailExtractor._is_valid_email email = false).
Proof.
  split; [vm_compute; reflexivity|].
  split; [vm_compute; reflexivity|].
  split; [exact hex_local_rejected | exact png_rejected].
Qed.

(** C7, applied: a 20-digit tracking id and an image file name. *)
Lemma email_validity_filter_witness :
  rsplit1 "@" "0123456789abcdefABCD@business.de"
    = Some ("0123456789abcdefABCD", "business.de") /\
  forallb_str EmailExtractor.hex_char "0123456789abcdefABCD" = true /\
  20 <= String.length "0123456789abcdefABCD" /\
  EmailExtractor._is_valid_email "0123456789abcdefABCD@business.de" = false /\
  contains ".png" "logo@2x.png" = true /\
  EmailExtractor._is_valid_email "logo@2x.png" = false.
Proof.
  pose proof email_validity_filter as (_ & _ & Hhex & Hpng).
  split; [reflexivity|]. split; [reflexivity|]. split; [simpl; lia|].
  split; [apply (Hhex _ "0123456789abcdefABCD" "business.de");
          [reflexivity|reflexivity|simpl; lia]|].
  split; [reflexivity|]. apply Hpng. reflexivity.
Defined.

(** ** The harvester (utils/email_extractor.py) *)

Section Harvester.

Import EmailExtractor.

Implicit Types (w : Web) (url : string) (seen : gset string)
  (all : list (string * string)).

Lemma guard_rejects w url s n :
  passes_guard url = false ->
  extract_emails_from_website w url s n = ([], Ok ([], "")).
Proof.
  unfold passes_guard, extract_emails_from_website. intros H.
  destruct (truthy url); simpl in *; [|reflexivity].
  rewrite H. reflexivity.
Qed.

Lemma guard_passes w url s n :
  passes_guard url = true ->
  extract_emails_from_website w url s n =
  let '(robots_events, allowed) := _check_robots_allowed w url in
  if negb allowed then (robots_events, Ok ([], "robots_blocked"))
  else
    match _get_candidate_urls w url n with
    | Raise e => (robots_events, Raise e)
    | Ok urls =>
        match fetch_pages w s 0 urls with
        | (page_events, Raise e) => (robots_events ++ page_events, Raise e)
        | (page_events, Ok all_emails) =>
            let '(unique_emails, source_pages) := dedup_emails all_emails ∅ in
            (robots_events ++ page_events, Ok (unique_emails, join "," source_pages))
        end
    end.
Proof.
  unfold passes_guard, extract_emails_from_website. intros H.
  apply andb_prop in H as [-> ->]. simpl.
  destruct (_check_robots_allowed w url) as [evs allowed].
  destruct allowed; simpl; [|reflexivity].
  destruct (_get_candidate_urls w url n) as [urls|e]; [|reflexivity].
  destruct (fetch_pages w s 0 urls) as [pe [all|e]]; [|reflexivity].
  destruct (dedup_emails all ∅) as [es ss].
  destruct ss; reflexivity.
Qed.

(** The guard reads the first characters of the URL as they are written. *)
Lemma guard_reads_scheme url :
  passes_guard url = startswith url "http://" || startswith url "https://".
Proof. unfold passes_guard. destruct url; reflexivity. Qed.

Lemma robots_events_no_content w url :
  content_fetches (fst (_check_robots_allowed w url)) = [].
Proof.
  unfold _check_robots_allowed.
  destruct (UrlLib.urlparse url); reflexivity.
Qed.

(** A check that answers "disallowed" has read robots.txt. *)
Lemma disallowed_was_read w url :
  snd (_check_robots_allowed w url) = false ->
  exists robots_url, fst (_check_robots_allowed w url) = [EvRobotsTxt robots_url].
Proof.
  unfold _check_robots_allowed.
  destruct (UrlLib.urlparse url) as [parsed|e]; [|discriminate]. eauto.
Qed.

(** A call that finds the site closed asks for robots.txt and for nothing
    else. *)
Lemma blocked_site w url s n :
  passes_guard url = true ->
  snd (_check_robots_allowed w url) = false ->
  extract_emails_from_website w url s n
  = (fst (_check_robots_allowed w url), Ok ([], "robots_blocked")).
Proof.
  intros G Hrobots. rewrite guard_passes by exact G.
  destruct (_check_robots_allowed w url) as [evs allowed].
  simpl in Hrobots. subst allowed. reflexivity.
Qed.

(** *** The de-duplication loop *)

Lemma dedup_emails_fresh all seen e :
  e ∈ (dedup_emails all seen).1 -> (e ∉ seen) /\ (e ∈ all.*1).
Proof.
  revert seen. induction all as [|[e' h'] all IH]; intros seen; simpl.
  - intros H. inversion H.
  - case_bool_decide as Hin.
    + intros H. apply IH in H as [? ?]. split; [assumption|]. by right.
    + destruct (dedup_emails all ({[e']} ∪ seen)) as [es ss] eqn:E. simpl.
      intros H. apply elem_of_cons in H as [-> | H].
      * split; [assumption|]. by left.
      * specialize (IH ({[e']} ∪ seen)). rewrite E in IH.
        apply IH in H as [H1 H2]. split; [set_solver|]. by right.
Qed.





End Harvester.

(** A URL the guard of [extract_emails_from_website] turns away is answered
    with nothing, and nothing is requested. *)
Lemma guard_rejects_quietly (w : EmailExtractor.Web) (url sleep_seconds : string)
    (max_pages : nat) :
  passes_guard url = false ->
  EmailExtractor.extract_emails_from_website w url sleep_seconds max_pages
  = ([], Ok ([], "")).
Proof. apply guard_rejects. Qed.

(** C9 (as amended).  For every website URL whose robots check answers
    "disallowed", [extract_emails_from_website] requests no content page and
    returns no address.  When the URL begins with [http://] or [https://],
    written in lower case, the only event of the call is the reading of
    robots.txt and the hint is ["robots_blocked"]; any other URL is turned
    away before robots.txt is read: the call requests nothing at all and
    the hint is the empty string. *)
Theorem robots_compliance (w : EmailExtractor.Web) (url sleep_seconds : string)
    (max_pages : nat) :
  snd (EmailExtractor._check_robots_allowed w url) = false ->
  EmailExtractor.content_fetches
    (fst (EmailExtractor.extract_emails_from_website w url sleep_seconds max_pages)) = [] /\
  (exists hint,
     snd (EmailExtractor.extract_emails_from_website w url sleep_seconds max_pages)
     = Ok ([], hint)) /\
  (startswith url "http://" = true \/ startswith url "https://" = true ->
   fst (EmailExtractor.extract_emails_from_website w url sleep_seconds max_pages)
   = fst (EmailExtractor._check_robots_allowed w url) /\
   (exists robots_url,
      fst (EmailExtractor.extract_emails_from_website w url sleep_seconds max_pages)
      = [EmailExtractor.EvRobotsTxt robots_url]) /\
   snd (EmailExtractor.extract_emails_from_website w url sleep_seconds max_pages)
   = Ok ([], "robots_blocked")) /\
  (startswith url "http://" = false /\ startswith url "https://" = false ->
   EmailExtractor.extract_emails_from_website w url sleep_seconds max_pages
   = ([], Ok ([], ""))).
Proof.
  intros Hrobots.
  pose proof (guard_reads_scheme url) as G.
  destruct (passes_guard url) eqn:Hg.
  - rewrite (blocked_site w url sleep_seconds max_pages Hg Hrobots). cbn [fst snd].
    split; [apply robots_events_no_content|].
    split; [eexists; reflexivity|].
    split; [intros _; split; [reflexivity|split; [|reflexivity]];
            exact (disallowed_was_read w url Hrobots)|].
    intros [H1 H2]. rewrite H1, H2 in G. discriminate G.
  - rewrite (guard_rejects w url sleep_seconds max_pages Hg). cbn [fst snd].
    split; [reflexivity|]. split; [eexists; reflexivity|].
    split; [|intros _; reflexivity].
    intros H. apply orb_true_iff in H. rewrite H in G. discriminate G.
Qed.

(** C9, applied to the closed site. *)
Lemma robots_compliance_witness :
  snd (EmailExtractor._check_robots_allowed closed_site "https://business.de/") = false /\
  EmailExtractor.extract_emails_from_website closed_site "https://business.de/" "1.0" 2
  = ([EmailExtractor.EvRobotsTxt "https://business.de/robots.txt"],
     Ok ([], "robots_blocked")).
Proof.
  split; [reflexivity|].
  pose proof (robots_compliance closed_site "https://business.de/" "1.0" 2 eq_refl)
    as (_ & _ & H & _).
  destruct (H (or_intror eq_refl)) as (Hev & _ & Hout).
  destruct (EmailExtractor.extract_emails_from_website closed_site "https://business.de/"
              "1.0" 2) as [evs out].
  simpl in Hev, Hout. subst evs out. reflexivity.
Defined.

(** C9 as stated fails on a URL whose scheme is written in capitals:
    [_normalize_website] hands it on as it is, robots.txt of the site turns
    the harvester away, yet the call reads nothing and answers with the
    empty hint, not with ["robots_blocked"]. *)
Lemma robots_compliance_counterexample :
  Places._normalize_website "HTTPS://business.de" = "HTTPS://business.de" /\
  snd (EmailExtractor._check_robots_allowed closed_site "HTTPS://business.de") = false /\
  EmailExtractor.extract_emails_from_website closed_site "HTTPS://business.de" "1.0" 2
  = ([], Ok ([], "")) /\
  snd (EmailExtractor.extract_emails_from_website closed_site "HTTPS://business.de" "1.0" 2)
  <> Ok ([], "robots_blocked").
Proof.
  split; [vm_compute; reflexivity|]. split; [vm_compute; reflexivity|].
  split; [vm_compute; reflexivity|]. vm_compute. discriminate.
Qed.




(** ** Checkpoint store (main.py) *)

(** What is read back is what was written: the list of leads as it is, and
    each set through its enumeration. *)
Lemma load_after_save (vercel : bool) (d : gmap string Main.file)
    (leads : list (gmap string string)) (ids doms : gset string)
    (checkpoint_file : option string) :
  Main.load_checkpoint vercel
    (Main.save_checkpoint vercel d leads ids doms checkpoint_file) checkpoint_file
  = (leads, ids, doms).
Proof.
  unfold Main.load_checkpoint, Main.save_checkpoint.
  rewrite lookup_insert_eq. simpl.
  rewrite !list_to_set_elements_L. reflexivity.
Qed.

(** C4.  Saving a ledger state and loading the same checkpoint file gives
    back the same leads in the same order, the same set of identity keys and
    the same set of domains, whatever the file held before. *)
Theorem checkpoint_round_trip (vercel : bool) (d : gmap string Main.file)
    (leads : list (gmap string string)) (ids doms : gset string)
    (checkpoint_file : option string) :
  Main.load_checkpoint vercel
    (Main.save_checkpoint vercel d leads ids doms checkpoint_file) checkpoint_file
  = (leads, ids, doms).
Proof.
  unfold Main.load_checkpoint, Main.save_checkpoint.
  rewrite lookup_insert_eq. cbn [default].
  f_equal; [f_equal|]; apply list_to_set_elements_L.
Qed.

(** Other checkpoint paths are left alone. *)
Lemma save_checkpoint_other vercel (d : gmap string Main.file) leads ids doms cf p :
  p <> Main._writable_checkpoint_path vercel cf ->
  Main.save_checkpoint vercel d leads ids doms cf !! p = d !! p.
Proof. intros H. unfold Main.save_checkpoint. by rewrite lookup_insert_ne. Qed.

(** A missing or unreadable file, and missing keys, load as empty. *)
Lemma load_checkpoint_missing vercel (d : gmap string Main.file) cf :
  d !! Main._writable_checkpoint_path vercel cf = None ->
  Main.load_checkpoint vercel d cf = ([], ∅, ∅).
Proof. intros H. unfold Main.load_checkpoint. rewrite H. reflexivity. Qed.

(** ** Exporter (main.py) *)

Section Exporter.

Implicit Types (lead : gmap string string) (leads : list (gmap string string)).

Lemma has_value_spec lead key : Main.has_value lead key = true <-> real_value lead key.
Proof.
  unfold Main.has_value, real_value. destruct (lead !! key) as [v|].
  - rewrite andb_true_iff, negb_true_iff, truthy_true, String.eqb_neq.
    split.
    + intros [H1 H2]. exists v. auto.
    + intros (v' & [= <-] & H1 & H2). auto.
  - split; [discriminate|]. intros (v & H & _). discriminate.
Qed.

Lemma filter_contactable leads :
  List.filter
    (fun lead => Main.has_value lead "emails_found" && Main.has_value lead "website_url")
    leads
  = filter contactable leads.
Proof.
  induction leads as [|lead leads IH]; [reflexivity|].
  simpl. rewrite filter_cons, IH.
  destruct (decide (contactable lead)) as [H | H];
    unfold contactable in H; rewrite <- !has_value_spec, <- andb_true_iff in H.
  - rewrite H. reflexivity.
  - apply not_true_is_false in H. rewrite H. reflexivity.
Qed.

End Exporter.

(** C8.  With [require_email_and_website] set, [export_csv] writes the
    header and then, in their order, exactly the input leads whose
    [emails_found] and [website_url] are both present (not empty) and not
    the sentinel ["Nill"] (white space around the value aside); the header is
    the first record whatever the flag and the leads, and it is the only
    record when no lead qualifies. *)
Theorem export_filtering :
  (forall leads : list (gmap string string),
     Main.export_csv leads true
     = Main.columns :: map Main.csv_row (filter contactable leads)) /\
  (forall (leads : list (gmap string string)) (flag : bool),
     exists rows, Main.export_csv leads flag = Main.columns :: rows) /\
  (forall leads : list (gmap string string),
     Forall (fun lead => ~ contactable lead) leads ->
     Main.export_csv leads true = [Main.columns]).
Proof.
  split; [|split].
  - intros leads. unfold Main.export_csv. rewrite filter_contactable. reflexivity.
  - intros leads flag. eexists. reflexivity.
  - intros leads H. unfold Main.export_csv. rewrite filter_contactable.
    replace (filter contactable leads) with (@nil (gmap string string)); [reflexivity|].
    symmetry. induction H as [|lead leads Hl _ IH]; [reflexivity|].
    rewrite filter_cons. destruct (decide (contactable lead)); [contradiction|exact IH].
Qed.

(** C8, applied: of the two leads only the first is written; two leads with
    placeholders give the header alone. *)
Lemma export_filtering_witness :
  Main.export_csv [lead_with_email; lead_with_placeholders] true
  = [Main.columns;
     ["Dentists"; "Heidelberg"; "Praxis A"; "Nill";
      "https://www.openstreetmap.org/node/1"; "https://praxis-a.de";
      "info@praxis-a.de"]] /\
  Forall (fun lead => ~ contactable lead) [lead_with_placeholders; lead_with_placeholders] /\
  Main.export_csv [lead_with_placeholders; lead_with_placeholders] true = [Main.columns].
Proof.
  assert (H : ~ contactable lead_with_placeholders).
  { intros [_ (v & Hv & _ & Hn)]. vm_compute in Hv. injection Hv as <-.
    apply Hn. reflexivity. }
  split; [vm_compute; reflexivity|].
  split; [repeat constructor; exact H|].
  apply (proj2 (proj2 export_filtering)). repeat constructor; exact H.
Defined.

(** ** The lead budget (main.py) *)

Section Budget.

Import Main.

Implicit Types (w : World) (a : Args) (st : state).

Lemma budget_reached_true a st :
  budget_reached a st = true <-> (max_leads a <= count st)%Z.
Proof. unfold budget_reached, count. apply Z.leb_le. Qed.

Lemma budget_reached_false a st :
  budget_reached a st = false <-> (count st < max_leads a)%Z.
Proof. unfold budget_reached, count. rewrite Z.leb_gt. reflexivity. Qed.

Lemma count_append lead st : count (append_lead lead st) = (count st + 1)%Z.
Proof. unfold count, append_lead. simpl. rewrite length_app. simpl. lia. Qed.

Lemma leads_checkpoint_if_due w a st : leads (checkpoint_if_due w a st) = leads st.
Proof. unfold checkpoint_if_due. destruct (_ =? _)%nat; reflexivity. Qed.

Lemma count_checkpoint_if_due w a st : count (checkpoint_if_due w a st) = count st.
Proof. unfold count. rewrite leads_checkpoint_if_due. reflexivity. Qed.

Lemma count_record_admission st sets : count (record_admission st sets) = count st.
Proof. reflexivity. Qed.

(** Entered below the budget, the loop over the places of a pair stops at
    the budget. *)
Lemma google_places_bound w a niche city places st :
  budget_reached a st = false ->
  (count (google_places w a niche city places st) <= max_leads a)%Z.
Proof.
  revert st. induction places as [|place rest IH]; intros st Hb; simpl.
  - apply budget_reached_false in Hb. lia.
  - destruct (google_admit _ _ place) as [sets|]; [|apply IH, Hb].
    match goal with
    | |- context [budget_reached a ?s] => destruct (budget_reached a s) eqn:Hb'
    end.
    + rewrite count_checkpoint_if_due, count_append, count_record_admission.
      apply budget_reached_false in Hb. lia.
    + apply IH, Hb'.
Qed.

Lemma google_cities_bound w a niche cities st :
  (count (google_cities w a niche cities st) <= Z.max (max_leads a) (count st))%Z.
Proof.
  revert st. induction cities as [|city rest IH]; intros st; simpl; [lia|].
  destruct (budget_reached a st) eqn:Hb; [lia|].
  destruct (collect_places_for_niche_city w niche city) as [places|e].
  - pose proof (google_places_bound w a niche city places st Hb) as H.
    specialize (IH (google_places w a niche city places st)). lia.
  - apply IH.
Qed.

Lemma google_niches_bound w a niches cities st :
  (count (google_niches w a niches cities st) <= Z.max (max_leads a) (count st))%Z.
Proof.
  revert st. induction niches as [|niche rest IH]; intros st; simpl; [lia|].
  destruct (budget_reached a st); [lia|].
  pose proof (google_cities_bound w a niche cities st) as H.
  specialize (IH (google_cities w a niche cities st)). lia.
Qed.

Lemma osm_places_bound a niche city places st candidates :
  budget_reached a st = false ->
  (count (osm_places a niche city places st candidates).1 <= max_leads a)%Z.
Proof.
  revert st candidates. induction places as [|place rest IH]; intros st cands Hb; simpl.
  - apply budget_reached_false in Hb. lia.
  - destruct (osm_admit _ _ place) as [sets|]; [|apply IH, Hb].
    destruct (extract_emails a && truthy (OsmPlaces.website place)).
    + destruct (budget_reached a (record_admission st sets)) eqn:Hb'; [|apply IH, Hb'].
      cbn [fst]. rewrite count_record_admission.
      apply budget_reached_false in Hb. lia.
    + cbn [fst]. rewrite count_record_admission.
      apply budget_reached_false in Hb. lia.
Qed.

Lemma collect_futures_bound w a futures st :
  (count (collect_futures w a futures st) <= Z.max (max_leads a) (count st))%Z.
Proof.
  revert st. induction futures as [|future rest IH]; intros st; simpl; [lia|].
  destruct (budget_reached a st) eqn:Hb; [lia|].
  apply budget_reached_false in Hb.
  destruct future as [[lead has]|e].
  - specialize (IH (checkpoint_if_due w a (append_lead lead st))).
    rewrite count_checkpoint_if_due, count_append in IH. lia.
  - apply IH.
Qed.

Lemma osm_cities_bound w a niche cities st :
  (count (osm_cities w a niche cities st) <= Z.max (max_leads a) (count st))%Z.
Proof.
  revert st. induction cities as [|city rest IH]; intros st; cbn [osm_cities]; [lia|].
  destruct (budget_reached a st) eqn:Hb; [lia|].
  destruct (collect_osm_places_for_niche_city w niche city) as [places|e]; [|apply IH].
  pose proof (osm_places_bound a niche city places st [] Hb) as H.
  destruct (osm_places a niche city places st []) as [st' [cands|e]]; cbn [fst] in H.
  - destruct cands as [|c cs].
    + specialize (IH (checkpoint_if_due w a st')).
      rewrite count_checkpoint_if_due in IH. lia.
    + pose proof (collect_futures_bound w a
                    (map (_process_place_emails w) (as_completed w (c :: cs))) st') as H'.
      match goal with
      | |- context [if budget_reached a ?s then _ else _] =>
          destruct (budget_reached a s); [lia|specialize (IH s); lia]
      end.
  - specialize (IH st'). lia.
Qed.

Lemma osm_niches_bound w a niches cities st :
  (count (osm_niches w a niches cities st) <= Z.max (max_leads a) (count st))%Z.
Proof.
  revert st. induction niches as [|niche rest IH]; intros st; simpl; [lia|].
  destruct (budget_reached a st); [lia|].
  pose proof (osm_cities_bound w a niche cities st) as H.
  specialize (IH (osm_cities w a niche cities st)). lia.
Qed.

Lemma run_source_bound w a niches cities st st' :
  run_source w a niches cities st = Ok st' ->
  (count st' <= Z.max (max_leads a) (count st))%Z.
Proof.
  unfold run_source, _run_google, _run_osm.
  destruct (String.eqb (source a) "google").
  - destruct (google_client w); [|discriminate]. intros [= <-].
    apply google_niches_bound.
  - intros [= <-]. apply osm_niches_bound.
Qed.

Lemma exported_bound (leads : list (gmap string string)) flag :
  (exported (export_csv leads flag) <= Z.of_nat (length leads))%Z.
Proof.
  unfold exported, export_csv. simpl. rewrite Nat.sub_0_r, length_map.
  destruct flag; [|lia].
  pose proof (List.filter_length_le
                (fun lead => has_value lead "emails_found" && has_value lead "website_url")
                leads).
  lia.
Qed.

Lemma leads_loaded_state w (d : gmap string file) cf :
  leads (loaded_state w d cf) = (load_checkpoint (vercel w) d cf).1.1.
Proof.
  unfold loaded_state. destruct (load_checkpoint (vercel w) d cf) as [[l i] m].
  reflexivity.
Qed.

Lemma resumed_after_clear w (d : gmap string file) cf p :
  (resumed w (delete p d) cf <= resumed w d cf)%Z.
Proof.
  unfold resumed, count. rewrite !leads_loaded_state. unfold load_checkpoint.
  destruct (decide (p = _writable_checkpoint_path (vercel w) cf)) as [-> | Hne].
  - rewrite lookup_delete_eq. simpl. lia.
  - rewrite lookup_delete_ne by exact Hne. apply Z.le_refl.
Qed.

Lemma main_bound w a (d d' : gmap string file) rows :
  main w a d = Ok (d', rows) ->
  (exported rows <= Z.max (max_leads a) (resumed w d None))%Z.
Proof.
  unfold main.
  set (a' := {| source := source a; max_leads := max_leads a;
                extract_emails := extract_emails a;
                clear_checkpoint := clear_checkpoint a; checkpoint_file := None |}).
  set (d0 := if clear_checkpoint a' && bool_decide (is_Some (d !! CHECKPOINT_FILE))
             then delete CHECKPOINT_FILE d else d).
  assert (Hd0 : (resumed w d0 None <= resumed w d None)%Z).
  { subst d0. destruct (_ && _); [apply resumed_after_clear|lia]. }
  unfold resumed in *.
  destruct (budget_reached a' (loaded_state w d0 None)).
  - intros [= <- <-].
    pose proof (exported_bound (leads (loaded_state w d0 None)) true). unfold count in *. lia.
  - destruct (run_source w a' [] [] (loaded_state w d0 None)) as [st|e] eqn:R; [|discriminate].
    intros [= <- <-]. apply run_source_bound in R.
    pose proof (exported_bound (leads st) true). unfold count in *.
    change (max_leads a') with (max_leads a) in R. lia.
Qed.

Lemma run_collection_bound w niches cities budget harvest src clear work_dir
    (d d' : gmap string file) rows :
  run_collection w niches cities budget harvest src clear work_dir d = Ok (d', rows) ->
  (exported rows <= Z.max budget (resumed w d (collection_checkpoint w work_dir)))%Z.
Proof.
  unfold run_collection, collection_checkpoint.
  destruct niches as [|n ns]; [discriminate|].
  destruct cities as [|c cs]; [discriminate|].
  set (wd := match work_dir with
             | None => if vercel w then Some "/tmp" else None
             | Some p => Some p
             end).
  assert (Hcf : match wd with
                | Some _ => Some (default OUTPUT_DIR wd +:+ "/checkpoint.json")
                | None => None
                end
                = match wd with
                  | Some dir => Some (dir +:+ "/checkpoint.json")
                  | None => None
                  end) by (destruct wd; reflexivity).
  rewrite Hcf.
  set (cf := match wd with Some dir => Some (dir +:+ "/checkpoint.json") | None => None end).
  set (a := {| source := src; max_leads := budget; extract_emails := harvest;
               clear_checkpoint := clear; checkpoint_file := cf |}).
  set (d0 := if clear && bool_decide (is_Some (d !! _writable_checkpoint_path (vercel w) cf))
             then delete (_writable_checkpoint_path (vercel w) cf) d else d).
  assert (Hd0 : (resumed w d0 cf <= resumed w d cf)%Z).
  { subst d0. destruct (_ && _); [apply resumed_after_clear|lia]. }
  unfold resumed in *. rewrite andb_false_r.
  destruct (run_source w a (n :: ns) (c :: cs) (loaded_state w d0 cf)) as [st|e] eqn:R;
    [|discriminate].
  intros [= <- <-]. apply run_source_bound in R.
  pose proof (exported_bound (leads st) true). unfold count in *.
  change (max_leads a) with budget in R. lia.
Qed.

Lemma resumed_cleared w (d : gmap string file) cf :
  resumed w
    (if true && bool_decide (is_Some (d !! _writable_checkpoint_path (vercel w) cf))
     then delete (_writable_checkpoint_path (vercel w) cf) d else d) cf = 0%Z.
Proof.
  unfold resumed, count. rewrite leads_loaded_state. unfold load_checkpoint. simpl.
  case_bool_decide as H.
  - rewrite lookup_delete_eq. reflexivity.
  - apply eq_None_not_Some in H. rewrite H. reflexivity.
Qed.

(** With [clear_checkpoint] set the run starts empty. *)
Lemma run_collection_cleared w niches cities budget harvest src work_dir
    (d d' : gmap string file) rows :
  run_collection w niches cities budget harvest src true work_dir d = Ok (d', rows) ->
  (exported rows <= Z.max budget 0)%Z.
Proof.
  unfold run_collection.
  destruct niches as [|n ns]; [discriminate|].
  destruct cities as [|c cs]; [discriminate|].
  set (wd := match work_dir with
             | None => if vercel w then Some "/tmp" else None
             | Some p => Some p
             end).
  set (cf := match wd with
             | Some _ => Some (default OUTPUT_DIR wd +:+ "/checkpoint.json")
             | None => None
             end).
  set (a := {| source := src; max_leads := budget; extract_emails := harvest;
               clear_checkpoint := true; checkpoint_file := cf |}).
  pose proof (resumed_cleared w d cf) as Hd0.
  set (d0 := if true && bool_decide (is_Some (d !! _writable_checkpoint_path (vercel w) cf))
             then delete (_writable_checkpoint_path (vercel w) cf) d else d) in *.
  unfold resumed in Hd0. rewrite andb_false_r.
  destruct (run_source w a (n :: ns) (c :: cs) (loaded_state w d0 cf)) as [st|e] eqn:R;
    [|discriminate].
  intros [= <- <-]. apply run_source_bound in R.
  pose proof (exported_bound (leads st) true). unfold count in *.
  change (max_leads a) with budget in R. lia.
Qed.

(** The clearing of a checkpoint, as the two entry points write it. *)
Lemma cleared_eq clear p (d : gmap string file) :
  (if clear && bool_decide (is_Some (d !! p)) then delete p d else d) = cleared clear p d.
Proof.
  unfold cleared. destruct clear; cbn [andb]; [|reflexivity].
  case_bool_decide as H; [reflexivity|].
  symmetry. apply delete_id. apply eq_None_not_Some, H.
Qed.

Lemma resumed_cleared_le w clear p (d : gmap string file) cf :
  (resumed w (cleared clear p d) cf <= resumed w d cf)%Z.
Proof. unfold cleared. destruct clear; [apply resumed_after_clear|lia]. Qed.

Lemma resumed_cleared_own w (d : gmap string file) cf :
  resumed w (cleared true (_writable_checkpoint_path (vercel w) cf) d) cf = 0%Z.
Proof.
  unfold resumed, count, cleared. rewrite leads_loaded_state. unfold load_checkpoint.
  rewrite lookup_delete_eq. reflexivity.
Qed.

Lemma main_unfold w a (d : gmap string file) :
  main w a d =
  let a' := {| source := source a; max_leads := max_leads a;
               extract_emails := extract_emails a;
               clear_checkpoint := clear_checkpoint a; checkpoint_file := None |} in
  let d0 := cleared (clear_checkpoint a) CHECKPOINT_FILE d in
  let st := loaded_state w d0 None in
  if budget_reached a' st then Ok (d0, export_csv (leads st) true)
  else
    match run_source w a' [] [] st with
    | Raise e => Raise e
    | Ok st => Ok (final_save w None st, export_csv (leads st) true)
    end.
Proof. unfold main. cbn [clear_checkpoint]. rewrite cleared_eq. reflexivity. Qed.

(** [main], measured from the leads it loads. *)
Lemma main_from_start w a (d d' : gmap string file) rows :
  main w a d = Ok (d', rows) ->
  (exported rows <= Z.max (max_leads a) (main_start w a d))%Z /\
  ((max_leads a <= main_start w a d)%Z ->
   d' = cleared (clear_checkpoint a) CHECKPOINT_FILE d /\
   rows = export_csv (leads (loaded_state w d' None)) true).
Proof.
  rewrite main_unfold. cbv zeta. unfold main_start, resumed.
  set (a' := {| source := source a; max_leads := max_leads a;
                extract_emails := extract_emails a;
                clear_checkpoint := clear_checkpoint a; checkpoint_file := None |}).
  set (d0 := cleared (clear_checkpoint a) CHECKPOINT_FILE d).
  destruct (budget_reached a' (loaded_state w d0 None)) eqn:B.
  - intros [= <- <-].
    pose proof (exported_bound (leads (loaded_state w d0 None)) true).
    unfold count in *. split; [lia|]. intros _. split; reflexivity.
  - destruct (run_source w a' [] [] (loaded_state w d0 None)) as [st|e] eqn:R;
      [|discriminate].
    intros [= <- <-]. apply run_source_bound in R.
    apply budget_reached_false in B.
    pose proof (exported_bound (leads st) true). unfold count in *.
    change (max_leads a') with (max_leads a) in *. split; lia.
Qed.

(** [run_collection], measured from the leads it loads. *)
Lemma run_collection_from_start w niches cities budget harvest src clear work_dir
    (d d' : gmap string file) rows :
  run_collection w niches cities budget harvest src clear work_dir d = Ok (d', rows) ->
  (exported rows <= Z.max budget (collection_start w clear work_dir d))%Z.
Proof.
  destruct niches as [|n ns]; [discriminate|].
  destruct cities as [|c cs]; [destruct ns; discriminate|].
  unfold run_collection. fold (collection_checkpoint w work_dir).
  assert (Hcf : match match work_dir with
                      | None => if vercel w then Some "/tmp" else None
                      | Some p => Some p
                      end with
                | Some _ =>
                    Some (default OUTPUT_DIR
                            match work_dir with
                            | None => if vercel w then Some "/tmp" else None
                            | Some p => Some p
                            end +:+ "/checkpoint.json")
                | None => None
                end = collection_checkpoint w work_dir).
  { unfold collection_checkpoint. destruct work_dir as [p|]; [reflexivity|].
    destruct (vercel w); reflexivity. }
  rewrite Hcf, cleared_eq, andb_false_r. unfold collection_start, resumed.
  set (cf := collection_checkpoint w work_dir).
  set (a := {| source := src; max_leads := budget; extract_emails := harvest;
               clear_checkpoint := clear; checkpoint_file := cf |}).
  set (d0 := cleared clear (_writable_checkpoint_path (vercel w) cf) d).
  destruct (run_source w a (n :: ns) (c :: cs) (loaded_state w d0 cf)) as [st|e] eqn:R;
    [|discriminate].
  intros [= <- <-]. apply run_source_bound in R.
  pose proof (exported_bound (leads st) true). unfold count in *.
  change (max_leads a) with budget in R. lia.
Qed.

End Budget.

(** C2 (as amended).  The number of leads in the file a run exports never
    exceeds the larger of the requested budget and the number of leads the
    run loads from its checkpoint.  The checkpoint is loaded after the
    clearing the run was asked for ([--clear-checkpoint] of [main] removes
    outputs/checkpoint.json, [clear_checkpoint] of [run_collection] removes
    the checkpoint of its working directory), and clearing never adds
    leads.  So a run of either entry point that loads no more leads than the
    budget stays within the budget; with a budget that is not negative this
    holds of every run of [run_collection] with [clear_checkpoint] set and of
    every run of [main] with [--clear-checkpoint] outside Vercel.  A run of
    [main] that loads at least as many leads as the budget collects
    nothing: it leaves the store as the clearing left it and exports, of the
    leads it loaded and in their order, those whose [emails_found] and
    [website_url] are both present and not the sentinel ["Nill"]. *)
Theorem budget_enforcement :
  (forall (w : Main.World) (a : Main.Args) (d d' : gmap string Main.file) rows,
     Main.main w a d = Ok (d', rows) ->
     (exported rows <= Z.max (Main.max_leads a) (main_start w a d))%Z /\
     (main_start w a d <= resumed w d None)%Z /\
     ((main_start w a d <= Main.max_leads a)%Z -> (exported rows <= Main.max_leads a)%Z) /\
     (Main.clear_checkpoint a = true -> Main.vercel w = false ->
      (0 <= Main.max_leads a)%Z -> (exported rows <= Main.max_leads a)%Z) /\
     ((Main.max_leads a <= main_start w a d)%Z ->
      d' = cleared (Main.clear_checkpoint a) Main.CHECKPOINT_FILE d /\
      rows = Main.columns
             :: map Main.csv_row
                  (filter contactable (Main.leads (Main.loaded_state w d' None))))) /\
  (forall (w : Main.World) niches cities budget harvest src clear work_dir
          (d d' : gmap string Main.file) rows,
     Main.run_collection w niches cities budget harvest src clear work_dir d = Ok (d', rows) ->
     (exported rows <= Z.max budget (collection_start w clear work_dir d))%Z /\
     (collection_start w clear work_dir d
      <= resumed w d (collection_checkpoint w work_dir))%Z /\
     ((collection_start w clear work_dir d <= budget)%Z -> (exported rows <= budget)%Z) /\
     (clear = true -> (0 <= budget)%Z -> (exported rows <= budget)%Z)).
Proof.
  split.
  - intros w a d d' rows H. destruct (main_from_start w a d d' rows H) as [B E].
    split; [exact B|]. split; [apply resumed_cleared_le|].
    split; [lia|]. split.
    2: { intros Hm. destruct (E Hm) as [Hd Hr]. split; [exact Hd|].
         rewrite Hr. unfold Main.export_csv. rewrite filter_contactable. reflexivity. }
    intros Hc Hv Hb. unfold main_start in B. rewrite Hc in B.
    pose proof (resumed_cleared_own w d None) as Z0. rewrite Hv in Z0.
    change (Main._writable_checkpoint_path false None) with Main.CHECKPOINT_FILE in Z0.
    rewrite Z0 in B. lia.
  - intros w niches cities budget harvest src clear work_dir d d' rows H.
    pose proof (run_collection_from_start _ _ _ _ _ _ _ _ _ _ _ H) as B.
    split; [exact B|]. split; [apply resumed_cleared_le|]. split; [lia|].
    intros -> Hb. unfold collection_start in B. rewrite resumed_cleared_own in B. lia.
Qed.

(** *** Worked runs *)

(** C2, applied: the fresh run exports two of the three places. *)
Lemma budget_enforcement_witness :
  Main.main heidelberg (cli "google" 2 true) ∅ = Ok (fresh_run_files, fresh_run_rows) /\
  (resumed heidelberg ∅ None <= 2)%Z /\
  exported fresh_run_rows = 2%Z /\
  (exported fresh_run_rows <= 2)%Z.
Proof.
  assert (E : Main.main heidelberg (cli "google" 2 true) ∅
              = Ok (fresh_run_files, fresh_run_rows)) by (vm_compute; reflexivity).
  assert (R : (resumed heidelberg ∅ None <= 2)%Z) by (vm_compute; discriminate).
  split; [exact E|]. split; [exact R|]. split; [reflexivity|].
  destruct (proj1 budget_enforcement heidelberg (cli "google" 2 true) ∅
              fresh_run_files fresh_run_rows E) as (_ & _ & H & _).
  apply H. unfold main_start.
  change (cleared (Main.clear_checkpoint (cli "google" 2 true)) Main.CHECKPOINT_FILE ∅)
    with (∅ : gmap string Main.file).
  exact R.
Defined.

(** C2 as stated fails on a resumed run: with three leads in the checkpoint
    and a budget of two, [main] exports the three leads. *)
Lemma budget_enforcement_counterexample :
  resumed heidelberg three_leads None = 3%Z /\
  Main.max_leads (cli "osm" 2 false) = 2%Z /\
  exported_by (Main.main heidelberg (cli "osm" 2 false) three_leads) = Some 3%Z /\
  exported_by (Main.main heidelberg (cli "google" 2 true) three_leads) = Some 3%Z.
Proof. repeat split; vm_compute; reflexivity. Qed.

(** [run_collection] called without clearing does the same. *)
Lemma run_collection_resumed_over_budget :
  exported_by (Main.run_collection heidelberg ["Dentists"] ["Heidelberg"] 2 false "osm"
                 false None three_leads) = Some 3%Z /\
  exported_by (Main.run_collection heidelberg ["Dentists"] ["Heidelberg"] 2 true "google"
                 false None three_leads) = Some 3%Z.
Proof. split; vm_compute; reflexivity. Qed.

(** ** Leads from OSM places (main.py) *)

Section OsmLeads.

Import Main.

Implicit Types (w : World) (a : Args) (st : state).

(** [osm_place_to_lead] never returns: the lookup of [owner] raises. *)
Lemma osm_place_to_lead_raises place niche city :
  osm_place_to_lead place niche city = Raise AttributeError.
Proof. reflexivity. Qed.

Lemma process_place_emails_raises w c : _process_place_emails w c = Raise AttributeError.
Proof. destruct c as [[place niche] city]. reflexivity. Qed.

Lemma collect_futures_raised w a (cands : list (OsmPlaces.OSMPlace * string * string)) st :
  collect_futures w a (map (_process_place_emails w) cands) st = st.
Proof.
  induction cands as [|c cs IH]; [reflexivity|].
  cbn [map collect_futures]. rewrite process_place_emails_raises.
  destruct (budget_reached a st); [reflexivity|exact IH].
Qed.

End OsmLeads.

(** ** The dedup ledger (main.py) *)

Section Ledger.

Import Main.

Implicit Types (ids doms : gset string).

(** [_run_osm] follows the rule, and records what it admits. *)
Lemma osm_admit_rule ids doms place :
  is_Some (osm_admit ids doms place)
  <-> admission_rule ids doms (OsmPlaces.place_id place) (osm_domain place).
Proof.
  unfold osm_admit, admission_rule.
  case_bool_decide as Hid.
  - split; [intros [x Hx]; discriminate|]. intros [H _]. contradiction.
  - destruct (truthy (osm_domain place)) eqn:T; simpl.
    + apply truthy_true in T. case_bool_decide as Hd.
      * split; [intros [x Hx]; discriminate|]. intros [_ [H | H]]; contradiction.
      * split; [auto|]. intros _. eexists. reflexivity.
    + apply truthy_false in T. split; [auto|]. intros _. eexists. reflexivity.
Qed.

Lemma osm_admit_records ids doms place ids' doms' :
  osm_admit ids doms place = Some (ids', doms') ->
  ids' = {[OsmPlaces.place_id place]} ∪ ids /\
  doms' = (if truthy (osm_domain place) then {[osm_domain place]} ∪ doms else doms).
Proof.
  unfold osm_admit. case_bool_decide; [discriminate|].
  destruct (truthy (osm_domain place) && _); [discriminate|].
  intros [= <- <-]. auto.
Qed.

(** [_run_google] tests every domain, the empty one included. *)
Lemma google_admit_rule ids doms place :
  is_Some (google_admit ids doms place)
  <-> (Places.place_id place ∉ ids)
      /\ (Places.get_domain_for_dedup (Places.website place) ∉ doms).
Proof.
  unfold google_admit.
  case_bool_decide as Hid.
  - split; [intros [x Hx]; discriminate|]. intros [H _]. contradiction.
  - case_bool_decide as Hd.
    + split; [intros [x Hx]; discriminate|]. intros [_ H]. contradiction.
    + split; [auto|]. intros _. eexists. reflexivity.
Qed.

Lemma google_admit_records ids doms place ids' doms' :
  google_admit ids doms place = Some (ids', doms') ->
  ids' = {[Places.place_id place]} ∪ ids /\
  doms' = {[Places.get_domain_for_dedup (Places.website place)]} ∪ doms.
Proof.
  unfold google_admit. case_bool_decide; [discriminate|].
  case_bool_decide; [discriminate|]. intros [= <- <-]. auto.
Qed.

(** On a place with a domain the two tests agree with the rule. *)
Lemma google_admit_rule_domain ids doms place :
  Places.get_domain_for_dedup (Places.website place) <> "" ->
  is_Some (google_admit ids doms place)
  <-> admission_rule ids doms (Places.place_id place)
        (Places.get_domain_for_dedup (Places.website place)).
Proof.
  intros Hne. rewrite google_admit_rule. unfold admission_rule.
  split; intros [H1 H2]; split; auto. destruct H2; [contradiction|assumption].
Qed.

Lemma osm_admitted_fresh ids doms places q :
  q ∈ osm_admitted ids doms places ->
  (OsmPlaces.place_id q ∉ ids) /\ (osm_domain q <> "" -> osm_domain q ∉ doms).
Proof.
  revert ids doms. induction places as [|place rest IH]; intros ids doms; simpl.
  - intros H. inversion H.
  - destruct (osm_admit ids doms place) as [[ids' doms']|] eqn:E; [|apply IH].
    pose proof (proj1 (osm_admit_rule ids doms place) ltac:(rewrite E; eauto)) as [R1 R2].
    apply osm_admit_records in E as [-> ->].
    intros H. apply elem_of_cons in H as [-> | H].
    + split; [exact R1|]. intros Hne. destruct R2; [contradiction|assumption].
    + apply IH in H as [H1 H2]. split; [set_solver|].
      intros Hne. specialize (H2 Hne). destruct (truthy (osm_domain place)); set_solver.
Qed.

Lemma google_admitted_fresh ids doms places q :
  q ∈ google_admitted ids doms places ->
  (Places.place_id q ∉ ids) /\ (Places.get_domain_for_dedup (Places.website q) ∉ doms).
Proof.
  revert ids doms. induction places as [|place rest IH]; intros ids doms; simpl.
  - intros H. inversion H.
  - destruct (google_admit ids doms place) as [[ids' doms']|] eqn:E; [|apply IH].
    pose proof (proj1 (google_admit_rule ids doms place) ltac:(rewrite E; eauto)) as [R1 R2].
    apply google_admit_records in E as [-> ->].
    intros H. apply elem_of_cons in H as [-> | H].
    + auto.
    + apply IH in H as [H1 H2]. split; set_solver.
Qed.

(** At most once: among the admitted places no identity key occurs twice,
    and no non-empty domain occurs twice. *)
Lemma osm_admitted_once ids doms places :
  NoDup (OsmPlaces.place_id <$> osm_admitted ids doms places) /\
  NoDup (filter (fun d => d <> "") (osm_domain <$> osm_admitted ids doms places)).
Proof.
  revert ids doms. induction places as [|place rest IH]; intros ids doms; simpl.
  - split; constructor.
  - destruct (osm_admit ids doms place) as [[ids' doms']|] eqn:E; [|apply IH].
    apply osm_admit_records in E as [-> ->].
    destruct (IH ({[OsmPlaces.place_id place]} ∪ ids)
                 (if truthy (osm_domain place) then {[osm_domain place]} ∪ doms else doms))
      as [N1 N2].
    split.
    + rewrite fmap_cons. constructor; [|exact N1].
      intros H. apply list_elem_of_fmap in H as (q & Hq & Hin).
      apply osm_admitted_fresh in Hin as [Hin _]. set_solver.
    + rewrite fmap_cons, filter_cons.
      destruct (decide (osm_domain place <> "")) as [Hne | He]; [|exact N2].
      constructor; [|exact N2].
      intros H. apply list_elem_of_filter in H as [_ H].
      apply list_elem_of_fmap in H as (q & Hq & Hin).
      apply osm_admitted_fresh in Hin as [_ Hin].
      apply truthy_true in Hne as T. rewrite T in Hin.
      rewrite <- Hq in Hin. specialize (Hin Hne). set_solver.
Qed.

Lemma google_admitted_once ids doms places :
  NoDup (Places.place_id <$> google_admitted ids doms places) /\
  NoDup ((fun p => Places.get_domain_for_dedup (Places.website p))
           <$> google_admitted ids doms places).
Proof.
  revert ids doms. induction places as [|place rest IH]; intros ids doms; simpl.
  - split; constructor.
  - destruct (google_admit ids doms place) as [[ids' doms']|] eqn:E; [|apply IH].
    apply google_admit_records in E as [-> ->].
    destruct (IH ({[Places.place_id place]} ∪ ids)
                 ({[Places.get_domain_for_dedup (Places.website place)]} ∪ doms))
      as [N1 N2].
    split; rewrite fmap_cons; (constructor; [|assumption]);
      intros H; apply list_elem_of_fmap in H as (q & Hq & Hin);
      apply google_admitted_fresh in Hin as [H1 H2]; set_solver.
Qed.

(** The same, pair by pair. *)
Lemma osm_admitted_pairwise ids doms places i j p q :
  osm_admitted ids doms places !! i = Some p ->
  osm_admitted ids doms places !! j = Some q ->
  i <> j ->
  OsmPlaces.place_id p <> OsmPlaces.place_id q /\
  (osm_domain p <> "" -> osm_domain p <> osm_domain q).
Proof.
  intros Hi Hj Hne. destruct (osm_admitted_once ids doms places) as [N1 N2].
  split.
  - intros Heq. apply Hne.
    apply (NoDup_lookup _ i j (OsmPlaces.place_id p) N1).
    + rewrite list_lookup_fmap, Hi. reflexivity.
    + rewrite list_lookup_fmap, Hj. simpl. congruence.
  - intros Hd Heq.
    assert (Hp : osm_admitted ids doms places = firstn i (osm_admitted ids doms places)
                   ++ p :: skipn (S i) (osm_admitted ids doms places))
      by (symmetry; apply take_drop_middle, Hi).
    revert N2. rewrite Hp, fmap_app, fmap_cons, filter_app, filter_cons.
    destruct (decide (osm_domain p <> "")); [|contradiction].
    intros N2. apply NoDup_app in N2 as (_ & Hl & Hr).
    apply NoDup_cons in Hr as [Hr _].
    assert (Hq : osm_domain q ∈ filter (fun d => d <> "")
                   (osm_domain <$> firstn i (osm_admitted ids doms places))
                 \/ osm_domain q ∈ filter (fun d => d <> "")
                      (osm_domain <$> skipn (S i) (osm_admitted ids doms places))).
    { destruct (Nat.lt_total j i) as [Hlt | [-> | Hgt]]; [left| contradiction |right];
        apply list_elem_of_filter; (split; [congruence|]);
        apply list_elem_of_fmap; exists q; (split; [reflexivity|]);
        apply list_elem_of_lookup.
      - exists j. rewrite lookup_take_lt by exact Hlt. exact Hj.
      - exists (j - S i). rewrite lookup_drop. replace (S i + (j - S i)) with j by lia.
        exact Hj. }
    destruct Hq as [Hq | Hq].
    + apply (Hl (osm_domain p)); [rewrite Heq; exact Hq|]. by left.
    + apply Hr. rewrite Heq. exact Hq.
Qed.

Lemma google_admitted_pairwise ids doms places i j p q :
  google_admitted ids doms places !! i = Some p ->
  google_admitted ids doms places !! j = Some q ->
  i <> j ->
  Places.place_id p <> Places.place_id q /\
  Places.get_domain_for_dedup (Places.website p)
  <> Places.get_domain_for_dedup (Places.website q).
Proof.
  intros Hi Hj Hne. destruct (google_admitted_once ids doms places) as [N1 N2].
  split; intros Heq; apply Hne.
  - apply (NoDup_lookup _ i j (Places.place_id p) N1).
    + rewrite list_lookup_fmap, Hi. reflexivity.
    + rewrite list_lookup_fmap, Hj. simpl. congruence.
  - apply (NoDup_lookup _ i j (Places.get_domain_for_dedup (Places.website p)) N2).
    + rewrite list_lookup_fmap, Hi. reflexivity.
    + rewrite list_lookup_fmap, Hj. simpl. congruence.
Qed.

(** *** The invariant of the ledger along a run *)

Lemma place_to_lead_key place niche city :
  lead_key (place_to_lead place niche city) = Some (Places.place_id place).
Proof. vm_compute. reflexivity. Qed.

Lemma with_emails_key lead emails src :
  lead_key (with_emails lead emails src) = lead_key lead.
Proof.
  unfold lead_key, with_emails. rewrite !lookup_insert_ne by discriminate. reflexivity.
Qed.

Lemma osm_place_to_lead_key place niche city lead :
  osm_place_to_lead place niche city = Ok lead ->
  lead_key lead = Some (OsmPlaces.place_id place).
Proof. discriminate. Qed.

Lemma ledger_consistent_checkpoint w a st :
  ledger_consistent st -> ledger_consistent (checkpoint_if_due w a st).
Proof. unfold checkpoint_if_due. destruct (_ =? _)%nat; auto. Qed.

(** Appending the lead of a place whose key is new, and recording the key. *)
Lemma ledger_consistent_admit st lead pid ids' doms' :
  ledger_consistent st ->
  lead_key lead = Some pid -> pid ∉ seen_place_ids st ->
  {[pid]} ∪ seen_place_ids st ⊆ ids' ->
  ledger_consistent (append_lead lead (record_admission st (ids', doms'))).
Proof.
  intros [Hnd Hin] Hk Hnew Hsub. unfold ledger_consistent. simpl.
  rewrite omap_app. simpl. rewrite Hk.
  split.
  - apply NoDup_app. split; [exact Hnd|]. split; [|apply NoDup_singleton].
    intros x Hx Hx'. apply list_elem_of_singleton in Hx'. subst x.
    apply Hnew, Hin, Hx.
  - intros x Hx. apply elem_of_app in Hx as [Hx | Hx]; [set_solver|].
    apply list_elem_of_singleton in Hx. set_solver.
Qed.

Lemma ledger_consistent_record st ids' doms' :
  ledger_consistent st -> seen_place_ids st ⊆ ids' ->
  ledger_consistent (record_admission st (ids', doms')).
Proof. intros [Hnd Hin] Hsub. split; [exact Hnd|]. simpl. set_solver. Qed.

Lemma google_places_consistent w a niche city places st :
  ledger_consistent st -> ledger_consistent (google_places w a niche city places st).
Proof.
  revert st. induction places as [|place rest IH]; intros st Hc; cbn [google_places];
    [exact Hc|].
  destruct (google_admit (seen_place_ids st) (seen_domains st) place) as [[ids' doms']|] eqn:E;
    [|apply IH, Hc].
  assert (Hnew : Places.place_id place ∉ seen_place_ids st).
  { apply (google_admit_rule (seen_place_ids st) (seen_domains st) place).
    rewrite E. eauto. }
  apply google_admit_records in E as [-> ->].
  match goal with
  | |- context [checkpoint_if_due w a (append_lead ?l ?s)] =>
      assert (Hc' : ledger_consistent (checkpoint_if_due w a (append_lead l s)))
  end.
  { apply ledger_consistent_checkpoint.
    apply (ledger_consistent_admit st _ (Places.place_id place));
      [exact Hc| |exact Hnew|reflexivity].
    destruct (extract_emails a && truthy (Places.website place));
      [|apply place_to_lead_key].
    destruct (EmailExtractor.extract_emails_from_website _ _ _ _).2 as [[emails src]|e];
      [rewrite with_emails_key|]; apply place_to_lead_key. }
  destruct (budget_reached a _); [exact Hc'|apply IH, Hc'].
Qed.

Lemma google_cities_consistent w a niche cities st :
  ledger_consistent st -> ledger_consistent (google_cities w a niche cities st).
Proof.
  revert st. induction cities as [|city rest IH]; intros st Hc; cbn [google_cities];
    [exact Hc|].
  destruct (budget_reached a st); [exact Hc|].
  destruct (collect_places_for_niche_city w niche city); [|apply IH, Hc].
  apply IH, google_places_consistent, Hc.
Qed.

Lemma google_niches_consistent w a niches cities st :
  ledger_consistent st -> ledger_consistent (google_niches w a niches cities st).
Proof.
  revert st. induction niches as [|niche rest IH]; intros st Hc; cbn [google_niches];
    [exact Hc|].
  destruct (budget_reached a st); [exact Hc|].
  apply IH, google_cities_consistent, Hc.
Qed.

Lemma osm_places_consistent a niche city places st cands :
  ledger_consistent st -> ledger_consistent (osm_places a niche city places st cands).1.
Proof.
  revert st cands. induction places as [|place rest IH]; intros st cands Hc;
    cbn [osm_places]; [exact Hc|].
  destruct (osm_admit (seen_place_ids st) (seen_domains st) place) as [[ids' doms']|] eqn:E;
    [|apply IH, Hc].
  apply osm_admit_records in E as [-> ->].
  match goal with
  | |- context [record_admission st ?sets] =>
      assert (Hc' : ledger_consistent (record_admission st sets))
        by (apply ledger_consistent_record; [exact Hc|set_solver])
  end.
  destruct (extract_emails a && truthy (OsmPlaces.website place)).
  - destruct (budget_reached a _); [exact Hc'|apply IH, Hc'].
  - destruct (osm_place_to_lead place niche city) as [lead|e] eqn:L; [|exact Hc'].
    discriminate L.
Qed.

Lemma collect_futures_consistent w a (cands : list (OsmPlaces.OSMPlace * string * string)) st :
  ledger_consistent st ->
  ledger_consistent (collect_futures w a (map (_process_place_emails w) cands) st).
Proof. intros Hc. rewrite collect_futures_raised. exact Hc. Qed.

Lemma osm_cities_consistent w a niche cities st :
  ledger_consistent st -> ledger_consistent (osm_cities w a niche cities st).
Proof.
  revert st. induction cities as [|city rest IH]; intros st Hc; cbn [osm_cities];
    [exact Hc|].
  destruct (budget_reached a st); [exact Hc|].
  destruct (collect_osm_places_for_niche_city w niche city) as [places|e]; [|apply IH, Hc].
  pose proof (osm_places_consistent a niche city places st [] Hc) as H.
  destruct (osm_places a niche city places st []) as [st' [cands|e]]; cbn [fst] in H.
  - destruct cands as [|c cs].
    + apply IH, ledger_consistent_checkpoint, H.
    + rewrite collect_futures_raised.
      destruct (budget_reached a st'); [exact H|apply IH, H].
  - apply IH, H.
Qed.

Lemma osm_niches_consistent w a niches cities st :
  ledger_consistent st -> ledger_consistent (osm_niches w a niches cities st).
Proof.
  revert st. induction niches as [|niche rest IH]; intros st Hc; cbn [osm_niches];
    [exact Hc|].
  destruct (budget_reached a st); [exact Hc|].
  apply IH, osm_cities_consistent, Hc.
Qed.

(** Whatever the source, a run keeps the invariant: no two leads of the
    result carry the same identity key. *)
Lemma run_source_consistent w a niches cities st st' :
  ledger_consistent st -> run_source w a niches cities st = Ok st' ->
  ledger_consistent st'.
Proof.
  intros Hc. unfold run_source, _run_google, _run_osm.
  destruct (String.eqb (source a) "google").
  - destruct (google_client w); [|discriminate]. intros [= <-].
    apply google_niches_consistent, Hc.
  - intros [= <-]. apply osm_niches_consistent, Hc.
Qed.

End Ledger.

(** C1, evaluated.  The website ["https://www."] has the empty domain.  The
    ledger of [_run_google] records the empty domain with the first such
    place and turns the second one away, although its identity key is new
    and, by the rule, it has no domain to check; the ledger of [_run_osm]
    admits both. *)
Theorem google_ledger_rejects_empty_domain :
  Places.get_domain_for_dedup "https://www." = "" /\
  Main.google_admit ∅ ∅ (google_place "ChIJ-A" "https://www.")
  = Some ({["ChIJ-A"]}, {[""]}) /\
  Main.google_admit {["ChIJ-A"]} {[""]} (google_place "ChIJ-B" "https://www.") = None /\
  admission_rule {["ChIJ-A"]} {[""]} "ChIJ-B" "" /\
  Main.seen_place_ids
    (Main.google_niches hostless (cli "google" 10 false) ["Dentists"]
       ["Mannheim"; "Heidelberg"] empty_state) = {["ChIJ-A"]} /\
  Main.osm_admit ∅ ∅ (osm_place "osm:node:1" "https://www.")
  = Some ({["osm:node:1"]}, ∅) /\
  is_Some (Main.osm_admit {["osm:node:1"]} ∅ (osm_place "osm:node:2" "https://www.")).
Proof.
  split; [reflexivity|].
  split; [vm_compute; reflexivity|].
  split; [vm_compute; reflexivity|].
  split; [split; [set_solver|left; reflexivity]|].
  split; [vm_compute; reflexivity|].
  split; [vm_compute; reflexivity|].
  vm_compute. eexists. reflexivity.
Qed.

(** ** Resuming a run (main.py) *)

Section Resume.

Import Main.

Implicit Types (w : World) (a : Args) (st : state).

(** *** The OSM loops never append *)

Lemma osm_places_leads a niche city places st cands :
  leads (osm_places a niche city places st cands).1 = leads st.
Proof.
  revert st cands. induction places as [|place rest IH]; intros st cands; simpl;
    [reflexivity|].
  destruct (osm_admit _ _ place) as [sets|]; [|apply IH].
  destruct (extract_emails a && truthy (OsmPlaces.website place)); [|reflexivity].
  destruct (budget_reached a (record_admission st sets)); [reflexivity|].
  rewrite IH. reflexivity.
Qed.

Lemma osm_cities_leads w a niche cities st :
  leads (osm_cities w a niche cities st) = leads st.
Proof.
  revert st. induction cities as [|city rest IH]; intros st; cbn [osm_cities];
    [reflexivity|].
  destruct (budget_reached a st); [reflexivity|].
  destruct (collect_osm_places_for_niche_city w niche city) as [places|e]; [|apply IH].
  pose proof (osm_places_leads a niche city places st []) as H.
  destruct (osm_places a niche city places st []) as [st' [cands|e]]; cbn [fst] in H.
  - destruct cands as [|c cs].
    + rewrite IH, leads_checkpoint_if_due. exact H.
    + rewrite collect_futures_raised.
      destruct (budget_reached a st'); [exact H|]. rewrite IH. exact H.
  - rewrite IH. exact H.
Qed.

Lemma osm_niches_leads w a niches cities st :
  leads (osm_niches w a niches cities st) = leads st.
Proof.
  revert st. induction niches as [|niche rest IH]; intros st; simpl; [reflexivity|].
  destruct (budget_reached a st); [reflexivity|].
  rewrite IH. apply osm_cities_leads.
Qed.

(** *** The Google loops leave every place they examined covered *)

Lemma extends_refl st : extends st st.
Proof. unfold extends. auto. Qed.

Lemma extends_trans st1 st2 st3 : extends st1 st2 -> extends st2 st3 -> extends st1 st3.
Proof. unfold extends. intros (? & ? & ?) (? & ? & ?). repeat split; [set_solver..|lia]. Qed.

Lemma budget_reached_extends a st st' :
  extends st st' -> budget_reached a st = true -> budget_reached a st' = true.
Proof.
  intros (_ & _ & H). rewrite !budget_reached_true. unfold count. lia.
Qed.

Lemma covered_extends st st' place : extends st st' -> covered st place -> covered st' place.
Proof.
  unfold covered. intros (Hi & Hd & _) H.
  destruct (google_admit (seen_place_ids st') (seen_domains st') place) eqn:E;
    [|reflexivity].
  assert (Hs : is_Some (google_admit (seen_place_ids st') (seen_domains st') place))
    by (rewrite E; eauto).
  apply google_admit_rule in Hs as [H1 H2].
  assert (Hs' : is_Some (google_admit (seen_place_ids st) (seen_domains st) place))
    by (apply google_admit_rule; set_solver).
  rewrite H in Hs'. destruct Hs' as [x Hx]. discriminate.
Qed.

Lemma admitted_step w a lead st sets place :
  google_admit (seen_place_ids st) (seen_domains st) place = Some sets ->
  extends st (checkpoint_if_due w a (append_lead lead (record_admission st sets))) /\
  covered (checkpoint_if_due w a (append_lead lead (record_admission st sets))) place.
Proof.
  intros E. destruct sets as [ids' doms'].
  apply google_admit_records in E as [-> ->].
  assert (Hsets : forall s, seen_place_ids (checkpoint_if_due w a s) = seen_place_ids s
                            /\ seen_domains (checkpoint_if_due w a s) = seen_domains s).
  { intros s. unfold checkpoint_if_due. destruct (_ =? _)%nat; auto. }
  split.
  - unfold extends. destruct (Hsets (append_lead lead (record_admission st
      ({[Places.place_id place]} ∪ seen_place_ids st,
       {[Places.get_domain_for_dedup (Places.website place)]} ∪ seen_domains st))))
      as [-> ->].
    rewrite leads_checkpoint_if_due. simpl. rewrite length_app. simpl.
    repeat split; [set_solver..|lia].
  - unfold covered. destruct (Hsets (append_lead lead (record_admission st
      ({[Places.place_id place]} ∪ seen_place_ids st,
       {[Places.get_domain_for_dedup (Places.website place)]} ∪ seen_domains st))))
      as [-> ->].
    simpl. unfold google_admit. rewrite bool_decide_eq_true_2 by set_solver. reflexivity.
Qed.

Lemma google_places_covers w a niche city places st :
  extends st (google_places w a niche city places st) /\
  (budget_reached a (google_places w a niche city places st) = true \/
   forall p, p ∈ places -> covered (google_places w a niche city places st) p).
Proof.
  revert st. induction places as [|place rest IH]; intros st; cbn [google_places].
  - split; [apply extends_refl|]. right. intros p Hp. inversion Hp.
  - destruct (google_admit (seen_place_ids st) (seen_domains st) place) as [sets|] eqn:E.
    + match goal with
      | |- context [checkpoint_if_due w a (append_lead ?l _)] =>
          destruct (admitted_step w a l st sets place E) as [Hx Hc];
          set (st1 := checkpoint_if_due w a (append_lead l (record_admission st sets))) in *
      end.
      destruct (budget_reached a st1) eqn:Hb; [split; [exact Hx|left; exact Hb]|].
      destruct (IH st1) as [Hx' Hcov].
      split; [eapply extends_trans; eassumption|].
      destruct Hcov as [Hcov | Hcov]; [left; exact Hcov|right].
      intros p Hp. apply elem_of_cons in Hp as [-> | Hp]; [|apply Hcov, Hp].
      eapply covered_extends; eassumption.
    + destruct (IH st) as [Hx Hcov]. split; [exact Hx|].
      destruct Hcov as [Hcov | Hcov]; [left; exact Hcov|right].
      intros p Hp. apply elem_of_cons in Hp as [-> | Hp]; [|apply Hcov, Hp].
      eapply covered_extends; [exact Hx|exact E].
Qed.

Lemma cities_covered_extends w niche cities st st' :
  extends st st' -> cities_covered w niche cities st -> cities_covered w niche cities st'.
Proof.
  intros Hx H city places p Hc Hp Hin. eapply covered_extends; [exact Hx|].
  eapply H; eassumption.
Qed.

Lemma google_cities_covers w a niche cities st :
  extends st (google_cities w a niche cities st) /\
  (budget_reached a (google_cities w a niche cities st) = true \/
   cities_covered w niche cities (google_cities w a niche cities st)).
Proof.
  revert st. induction cities as [|city rest IH]; intros st; cbn [google_cities].
  - split; [apply extends_refl|]. right. intros c ps p Hc. inversion Hc.
  - destruct (budget_reached a st) eqn:Hb; [split; [apply extends_refl|left; exact Hb]|].
    destruct (collect_places_for_niche_city w niche city) as [places|e] eqn:C.
    + destruct (google_places_covers w a niche city places st) as [Hx Hcov].
      set (st1 := google_places w a niche city places st) in *.
      destruct (IH st1) as [Hx' Hcov'].
      split; [eapply extends_trans; eassumption|].
      destruct Hcov' as [Hcov' | Hcov']; [left; exact Hcov'|].
      destruct Hcov as [Hcov | Hcov].
      * left. eapply budget_reached_extends; eassumption.
      * right. intros c ps p Hc Hps Hin.
        apply elem_of_cons in Hc as [-> | Hc]; [|eapply Hcov'; eassumption].
        rewrite C in Hps. injection Hps as <-.
        eapply covered_extends; [exact Hx'|]. apply Hcov, Hin.
    + destruct (IH st) as [Hx Hcov]. split; [exact Hx|].
      destruct Hcov as [Hcov | Hcov]; [left; exact Hcov|right].
      intros c ps p Hc Hps Hin.
      apply elem_of_cons in Hc as [-> | Hc]; [|eapply Hcov; eassumption].
      rewrite C in Hps. discriminate.
Qed.

Lemma google_niches_covers w a niches cities st :
  extends st (google_niches w a niches cities st) /\
  (budget_reached a (google_niches w a niches cities st) = true \/
   forall niche, niche ∈ niches ->
     cities_covered w niche cities (google_niches w a niches cities st)).
Proof.
  revert st. induction niches as [|niche rest IH]; intros st; cbn [google_niches].
  - split; [apply extends_refl|]. right. intros n Hn. inversion Hn.
  - destruct (budget_reached a st) eqn:Hb; [split; [apply extends_refl|left; exact Hb]|].
    destruct (google_cities_covers w a niche cities st) as [Hx Hcov].
    set (st1 := google_cities w a niche cities st) in *.
    destruct (IH st1) as [Hx' Hcov'].
    split; [eapply extends_trans; eassumption|].
    destruct Hcov' as [Hcov' | Hcov']; [left; exact Hcov'|].
    destruct Hcov as [Hcov | Hcov].
    + left. eapply budget_reached_extends; eassumption.
    + right. intros n Hn. apply elem_of_cons in Hn as [-> | Hn]; [|apply Hcov', Hn].
      eapply cities_covered_extends; eassumption.
Qed.

(** *** A run over covered places changes nothing *)

Lemma google_places_noop w a niche city places st :
  (forall p, p ∈ places -> covered st p) ->
  google_places w a niche city places st = st.
Proof.
  induction places as [|place rest IH]; intros H; cbn [google_places]; [reflexivity|].
  rewrite (H place) by (by left). apply IH. intros p Hp. apply H. by right.
Qed.

Lemma google_cities_noop w a niche cities st :
  budget_reached a st = true \/ cities_covered w niche cities st ->
  google_cities w a niche cities st = st.
Proof.
  induction cities as [|city rest IH]; intros H; cbn [google_cities]; [reflexivity|].
  destruct (budget_reached a st) eqn:Hb; [reflexivity|].
  destruct H as [H | H]; [discriminate|].
  assert (Hrest : cities_covered w niche rest st).
  { intros c ps p Hc. apply H. by right. }
  destruct (collect_places_for_niche_city w niche city) as [places|e] eqn:C.
  - rewrite google_places_noop; [apply IH; right; exact Hrest|].
    intros p Hp. eapply H; [by left|exact C|exact Hp].
  - apply IH. right. exact Hrest.
Qed.

Lemma google_niches_noop w a niches cities st :
  budget_reached a st = true \/
  (forall niche, niche ∈ niches -> cities_covered w niche cities st) ->
  google_niches w a niches cities st = st.
Proof.
  induction niches as [|niche rest IH]; intros H; cbn [google_niches]; [reflexivity|].
  destruct (budget_reached a st) eqn:Hb; [reflexivity|].
  destruct H as [H | H]; [discriminate|].
  rewrite google_cities_noop by (right; apply H; by left).
  apply IH. right. intros n Hn. apply H. by right.
Qed.

Lemma loaded_after_save w1 w2 cf st :
  vercel w2 = vercel w1 ->
  leads (loaded_state w2 (final_save w1 cf st) cf) = leads st /\
  seen_place_ids (loaded_state w2 (final_save w1 cf st) cf) = seen_place_ids st /\
  seen_domains (loaded_state w2 (final_save w1 cf st) cf) = seen_domains st.
Proof.
  intros Hv. unfold loaded_state, final_save.
  rewrite Hv, load_after_save. auto.
Qed.

(** No lead is appended by the second run. *)
Lemma resume_appends_nothing w1 w2 a1 a2 niches cities st0 st1 st2 :
  same_sources w1 w2 -> same_request a1 a2 ->
  run_source w1 a1 niches cities st0 = Ok st1 ->
  run_source w2 a2 niches cities
    (loaded_state w2 (final_save w1 (checkpoint_file a1) st1) (checkpoint_file a1))
  = Ok st2 ->
  leads st2 = leads st1.
Proof.
  intros (Hv & Hg & Ho) (Hs & Hm & Hc).
  destruct (loaded_after_save w1 w2 (checkpoint_file a1) st1 Hv) as (Hl & Hi & Hd).
  set (st := loaded_state w2 (final_save w1 (checkpoint_file a1) st1) (checkpoint_file a1))
    in *.
  unfold run_source. rewrite Hs.
  destruct (String.eqb (source a1) "google").
  - unfold _run_google.
    destruct (google_client w1); [|discriminate]. intros [= <-].
    destruct (google_client w2); [|discriminate]. intros [= <-].
    set (ns := or_default niches NICHES). set (cs := or_default cities CITIES).
    destruct (google_niches_covers w1 a1 ns cs st0) as [_ Hcov].
    rewrite google_niches_noop; [exact Hl|].
    destruct Hcov as [Hcov | Hcov]; [left|right].
    + rewrite budget_reached_true in *. unfold count in *. rewrite Hl, Hm. exact Hcov.
    + intros n Hn c ps p Hc' Hps Hin. rewrite Hg in Hps.
      specialize (Hcov n Hn c ps p Hc' Hps Hin).
      unfold covered in *. rewrite Hi, Hd. exact Hcov.
  - intros [= <-] [= <-]. unfold _run_osm in *.
    rewrite osm_niches_leads in Hl. rewrite !osm_niches_leads. exact Hl.
Qed.

(** On the Google path the second run changes nothing at all: every place
    it examines is turned away by the ledger. *)
Lemma google_resume_changes_nothing w1 w2 a1 a2 niches cities st0 st1 st :
  same_sources w1 w2 -> max_leads a2 = max_leads a1 ->
  _run_google w1 a1 niches cities st0 = Ok st1 ->
  leads st = leads st1 -> seen_place_ids st = seen_place_ids st1 ->
  seen_domains st = seen_domains st1 ->
  google_client w2 = Ok tt ->
  _run_google w2 a2 niches cities st = Ok st.
Proof.
  intros (Hv & Hg & Ho) Hm. unfold _run_google.
  destruct (google_client w1); [|discriminate]. intros [= <-] Hl Hi Hd ->.
  set (ns := or_default niches NICHES). set (cs := or_default cities CITIES).
  destruct (google_niches_covers w1 a1 ns cs st0) as [_ Hcov].
  rewrite google_niches_noop; [reflexivity|].
  destruct Hcov as [Hcov | Hcov]; [left|right].
  - rewrite budget_reached_true in *. unfold count in *. rewrite Hl, Hm. exact Hcov.
  - intros n Hn c ps p Hc' Hps Hin. rewrite Hg in Hps.
    specialize (Hcov n Hn c ps p Hc' Hps Hin).
    unfold covered in *. rewrite Hi, Hd. exact Hcov.
Qed.

(** The same for two calls of [run_collection], the second without
    clearing: it exports what the first exported. *)
Lemma run_collection_resume w1 w2 niches cities budget harvest1 harvest2 src clear
    work_dir (d0 d1 d2 : gmap string file) rows1 rows2 :
  same_sources w1 w2 ->
  run_collection w1 niches cities budget harvest1 src clear work_dir d0 = Ok (d1, rows1) ->
  run_collection w2 niches cities budget harvest2 src false work_dir d1 = Ok (d2, rows2) ->
  rows2 = rows1.
Proof.
  intros Hsame. pose proof Hsame as (Hv & _).
  unfold run_collection. rewrite Hv.
  destruct niches as [|n ns]; [discriminate|].
  destruct cities as [|c cs]; [discriminate|].
  set (wd := match work_dir with
             | None => if vercel w1 then Some "/tmp" else None
             | Some p => Some p
             end).
  set (cf := match wd with
             | Some _ => Some (default OUTPUT_DIR wd +:+ "/checkpoint.json")
             | None => None
             end).
  set (a1 := {| source := src; max_leads := budget; extract_emails := harvest1;
                clear_checkpoint := clear; checkpoint_file := cf |}).
  set (a2 := {| source := src; max_leads := budget; extract_emails := harvest2;
                clear_checkpoint := false; checkpoint_file := cf |}).
  rewrite !andb_false_r. cbn [andb].
  match goal with
  | |- context [run_source w1 a1 _ _ ?s] =>
      destruct (run_source w1 a1 (n :: ns) (c :: cs) s) as [st1|e] eqn:R1; [|discriminate]
  end.
  intros [= <- <-].
  destruct (run_source w2 a2 (n :: ns) (c :: cs)
              (loaded_state w2 (final_save w1 cf st1) cf)) as [st2|e] eqn:R2;
    [|discriminate].
  intros [= <- <-].
  rewrite (resume_appends_nothing w1 w2 a1 a2 (n :: ns) (c :: cs) _ st1 st2 Hsame
             ltac:(repeat split) R1 R2).
  reflexivity.
Qed.

(** And for two runs of the CLI, the second without [--clear-checkpoint]. *)
Lemma main_resume w1 w2 a1 a2 (d0 d1 d2 : gmap string file) rows1 rows2 :
  same_sources w1 w2 ->
  source a2 = source a1 -> max_leads a2 = max_leads a1 -> clear_checkpoint a2 = false ->
  main w1 a1 d0 = Ok (d1, rows1) ->
  main w2 a2 d1 = Ok (d2, rows2) ->
  rows2 = rows1.
Proof.
  intros Hsame Hs Hm Hc. pose proof Hsame as (Hv & _).
  unfold main. rewrite Hc, Hs, Hm. cbn [andb clear_checkpoint].
  set (b1 := {| source := source a1; max_leads := max_leads a1;
                extract_emails := extract_emails a1;
                clear_checkpoint := clear_checkpoint a1; checkpoint_file := None |}).
  set (b2 := {| source := source a1; max_leads := max_leads a1;
                extract_emails := extract_emails a2;
                clear_checkpoint := false; checkpoint_file := None |}).
  set (c0 := if clear_checkpoint a1 && bool_decide (is_Some (d0 !! CHECKPOINT_FILE))
             then delete CHECKPOINT_FILE d0 else d0).
  assert (Hb : forall st st', leads st' = leads st ->
                 budget_reached b2 st' = budget_reached b1 st).
  { intros st st' Hl. unfold budget_reached. rewrite Hl. reflexivity. }
  assert (Hload : forall d, leads (loaded_state w2 d None) = leads (loaded_state w1 d None)).
  { intros d. rewrite !leads_loaded_state, Hv. reflexivity. }
  destruct (budget_reached b1 (loaded_state w1 c0 None)) eqn:B1.
  - intros [= <- <-].
    rewrite (Hb (loaded_state w1 c0 None)), B1 by apply Hload.
    intros [= <- <-]. rewrite Hload. reflexivity.
  - destruct (run_source w1 b1 [] [] (loaded_state w1 c0 None)) as [st1|e] eqn:R1;
      [|discriminate].
    intros [= <- <-].
    destruct (loaded_after_save w1 w2 None st1 Hv) as (Hl & _).
    destruct (budget_reached b2 (loaded_state w2 (final_save w1 None st1) None)).
    + intros [= <- <-]. rewrite Hl. reflexivity.
    + destruct (run_source w2 b2 [] [] (loaded_state w2 (final_save w1 None st1) None))
        as [st2|e] eqn:R2; [|discriminate].
      intros [= <- <-].
      rewrite (resume_appends_nothing w1 w2 b1 b2 [] [] _ st1 st2 Hsame
                 ltac:(repeat split) R1 R2).
      reflexivity.
Qed.

End Resume.

(** C3, evaluated.  On the OSM path without harvesting, [osm_place_to_lead]
    raises on the first admitted place of a pair (an [OSMPlace] has no
    [owner]), which ends the pass before the second place reaches the
    ledger.  The second run, resumed from the checkpoint of the first, does
    not turn that place away: it admits it.  Neither run appends a lead. *)
Theorem osm_resume_admits_new_place :
  let a := cli "osm" 5 false in
  let st1 :=
    Main._run_osm heidelberg a ["Dentists"] ["Heidelberg"]
      (Main.loaded_state heidelberg ∅ None) in
  let st2 :=
    Main._run_osm heidelberg a ["Dentists"] ["Heidelberg"]
      (Main.loaded_state heidelberg (Main.final_save heidelberg None st1) None) in
  Main.osm_place_to_lead (osm_place "osm:node:1" "https://praxis-a.de")
    "Dentists" "Heidelberg" = Raise AttributeError /\
  Main.leads st1 = [] /\
  Main.seen_place_ids st1 = {["osm:node:1"]} /\
  is_Some (Main.osm_admit (Main.seen_place_ids st1) (Main.seen_domains st1)
             (osm_place "osm:node:2" "https://praxis-b.de")) /\
  Main.leads st2 = [] /\
  Main.seen_place_ids st2 = {["osm:node:1"; "osm:node:2"]}.
Proof.
  cbv zeta.
  split; [reflexivity|].
  split; [vm_compute; reflexivity|].
  split; [vm_compute; reflexivity|].
  split; [vm_compute; eexists; reflexivity|].
  split; [vm_compute; reflexivity|].
  vm_compute. reflexivity.
Qed.

Import Props.

(** ** The pages of a site (utils/email_extractor.py) *)

Section Pages.

Import EmailExtractor.

Implicit Types (w : Web) (urls cands : list string) (seen : gset string).

Lemma unique_urls_unfold u cands seen :
  unique_urls (u :: cands) seen =
  if bool_decide (url_norm u ∈ seen) then unique_urls cands seen
  else u :: unique_urls cands ({[url_norm u]} ∪ seen).
Proof. reflexivity. Qed.

Lemma unique_urls_sublist cands seen : unique_urls cands seen `sublist_of` cands.
Proof.
  revert seen. induction cands as [|u cands IH]; intros seen.
  - constructor.
  - rewrite unique_urls_unfold. case_bool_decide.
    + apply sublist_cons, IH.
    + apply sublist_skip, IH.
Qed.

Lemma unique_urls_fresh cands seen u :
  u ∈ unique_urls cands seen -> url_norm u ∉ seen.
Proof.
  revert seen. induction cands as [|c cands IH]; intros seen.
  - intros H. inversion H.
  - rewrite unique_urls_unfold. case_bool_decide as Hc.
    + apply IH.
    + intros [-> | Hin]%elem_of_cons; [exact Hc|].
      apply IH in Hin. set_solver.
Qed.

Lemma unique_urls_NoDup cands seen : NoDup (url_norm <$> unique_urls cands seen).
Proof.
  revert seen. induction cands as [|c cands IH]; intros seen.
  - constructor.
  - rewrite unique_urls_unfold. case_bool_decide as Hc; [apply IH|].
    rewrite fmap_cons. constructor; [|apply IH].
    intros (u & Hu & Hin)%list_elem_of_fmap.
    apply unique_urls_fresh in Hin. set_solver.
Qed.

(** Nothing but a duplicate is dropped. *)
Lemma unique_urls_complete cands seen u :
  u ∈ cands -> url_norm u ∈ seen \/ url_norm u ∈ url_norm <$> unique_urls cands seen.
Proof.
  revert seen. induction cands as [|c cands IH]; intros seen Hin.
  - inversion Hin.
  - rewrite unique_urls_unfold. apply elem_of_cons in Hin as [-> | Hin].
    + case_bool_decide as Hc; [left; exact Hc|].
      right. rewrite fmap_cons. apply elem_of_cons. left. reflexivity.
    + case_bool_decide as Hc; [apply IH, Hin|].
      destruct (IH ({[url_norm c]} ∪ seen) Hin) as [Hs | Hr].
      * apply elem_of_union in Hs as [->%elem_of_singleton | Hs]; [|left; exact Hs].
        right. rewrite fmap_cons. apply elem_of_cons. left. reflexivity.
      * right. rewrite fmap_cons. apply elem_of_cons. right. exact Hr.
Qed.

Lemma candidate_urls_unfold w website n :
  _get_candidate_urls w website n =
  match UrlLib.urlparse website with
  | Raise e => Raise e
  | Ok parsed => Ok (firstn n (unique_urls (candidate_pages w parsed) ∅))
  end.
Proof. reflexivity. Qed.

Lemma candidate_urls_distinct_aux w website n urls :
  _get_candidate_urls w website n = Ok urls ->
  (exists parsed, UrlLib.urlparse website = Ok parsed /\
     urls = firstn n (unique_urls (candidate_pages w parsed) ∅)) /\
  length urls <= Nat.min n 4 /\
  NoDup (url_norm <$> urls).
Proof.
  rewrite candidate_urls_unfold.
  destruct (UrlLib.urlparse website) as [parsed|e]; [|discriminate].
  intros H.
  assert (urls = firstn n (unique_urls (candidate_pages w parsed) ∅)) as -> by congruence.
  clear H. set (cands := candidate_pages w parsed).
  pose proof (unique_urls_sublist cands ∅) as Hsub.
  assert (Hlen : length (unique_urls cands ∅) <= 4).
  { apply sublist_length in Hsub. exact Hsub. }
  split; [exists parsed; split; reflexivity|]. split.
  - rewrite length_take. lia.
  - rewrite fmap_take. apply (sublist_NoDup _ (url_norm <$> unique_urls cands ∅));
      [apply unique_urls_NoDup|apply sublist_take].
Qed.

Lemma paced_cons u urls :
  paced (u :: urls) = EvGet u :: flat_map (fun u => [EvSleep; EvGet u]) urls.
Proof.
  revert u. induction urls as [|v urls IH]; intros u; [reflexivity|].
  change (paced (u :: v :: urls)) with (EvGet u :: EvSleep :: paced (v :: urls)).
  rewrite IH. reflexivity.
Qed.

Lemma fetch_pages_later w s i urls :
  sleep w s = Ok tt ->
  exists all,
    fetch_pages w s (S i) urls = (flat_map (fun u => [EvSleep; EvGet u]) urls, Ok all).
Proof.
  intros Hs. revert i. induction urls as [|u urls IH]; intros i; [eexists; reflexivity|].
  cbn [fetch_pages]. change (0 <? S i)%nat with true. cbv iota. rewrite Hs.
  destruct (IH (S i)) as [all E]. rewrite E. eexists. reflexivity.
Qed.

Lemma fetch_pages_paced w s urls :
  sleep w s = Ok tt -> exists all, fetch_pages w s 0 urls = (paced urls, Ok all).
Proof.
  intros Hs. destruct urls as [|u urls]; [eexists; reflexivity|].
  rewrite paced_cons. cbn [fetch_pages]. change (0 <? 0)%nat with false. cbv iota.
  destruct (fetch_pages_later w s 0 urls Hs) as [all E]. rewrite E.
  eexists. reflexivity.
Qed.

(** A pause the clock refuses ends the walk where it stands. *)
Lemma fetch_pages_refused w s i u urls e :
  sleep w s = Raise e -> fetch_pages w s (S i) (u :: urls) = ([EvSleep], Raise e).
Proof.
  intros Hs. cbn [fetch_pages]. change (0 <? S i)%nat with true. cbv iota.
  rewrite Hs. reflexivity.
Qed.

Lemma fetch_pages_one w s u :
  exists all, fetch_pages w s 0 [u] = ([EvGet u], Ok all).
Proof. cbn [fetch_pages]. change (0 <? 0)%nat with false. cbv iota. eexists. reflexivity. Qed.

Lemma fetch_pages_cut_short w s u v urls e :
  sleep w s = Raise e ->
  fetch_pages w s 0 (u :: v :: urls) = ([EvGet u; EvSleep], Raise e).
Proof.
  intros Hs. cbn [fetch_pages]. change (0 <? 0)%nat with false. cbv iota.
  change (0 <? 1)%nat with true. cbv iota. rewrite Hs. reflexivity.
Qed.

Lemma content_fetches_later urls :
  content_fetches (flat_map (fun u => [EvSleep; EvGet u]) urls) = urls.
Proof.
  induction urls as [|v urls IH]; [reflexivity|].
  cbn [flat_map app]. unfold content_fetches in *. simpl. f_equal. exact IH.
Qed.

Lemma content_fetches_paced urls : content_fetches (paced urls) = urls.
Proof.
  destruct urls as [|u urls]; [reflexivity|]. rewrite paced_cons.
  pose proof (content_fetches_later urls) as H.
  unfold content_fetches in *. simpl. f_equal. exact H.
Qed.

Lemma pauses_later urls :
  pauses (flat_map (fun u => [EvSleep; EvGet u]) urls) = length urls.
Proof.
  induction urls as [|v urls IH]; [reflexivity|].
  unfold pauses in *. simpl. f_equal. exact IH.
Qed.

Lemma pauses_paced urls : pauses (paced urls) = length urls - 1.
Proof.
  destruct urls as [|u urls]; [reflexivity|]. rewrite paced_cons.
  pose proof (pauses_later urls) as H. unfold pauses in *. simpl.
  rewrite Nat.sub_0_r. exact H.
Qed.

Lemma robots_reads_paced urls : robots_reads (paced urls) = 0.
Proof.
  destruct urls as [|u urls]; [reflexivity|]. rewrite paced_cons.
  unfold robots_reads. simpl.
  induction urls as [|v urls IH]; [reflexivity|]. simpl. exact IH.
Qed.

End Pages.

(** X1.  The pages [_get_candidate_urls] returns are candidates in their order,
    at most [max_pages] and at most four, pairwise different once trailing
    slashes are dropped; the home page comes first, and with room for all
    four nothing but a duplicate is left out. *)
Theorem candidate_urls_distinct (w : EmailExtractor.Web) (website : string)
    (max_pages : nat) (urls : list string) :
  EmailExtractor._get_candidate_urls w website max_pages = Ok urls ->
  exists parsed,
    UrlLib.urlparse website = Ok parsed /\
    urls `sublist_of` candidate_pages w parsed /\
    length urls <= Nat.min max_pages 4 /\
    NoDup (url_norm <$> urls) /\
    (0 < max_pages -> head urls = head (candidate_pages w parsed)) /\
    (4 <= max_pages ->
     forall u, u ∈ candidate_pages w parsed -> url_norm u ∈ url_norm <$> urls).
Proof.
  intros C.
  destruct (candidate_urls_distinct_aux w website max_pages urls C)
    as ((parsed & P & ->) & L & N).
  exists parsed. split; [exact P|].
  set (cands := candidate_pages w parsed).
  split; [|split; [exact L|split; [exact N|split]]].
  - etrans; [apply sublist_take|apply unique_urls_sublist].
  - intros Hpos. destruct max_pages as [|n]; [lia|].
    unfold cands, candidate_pages. rewrite unique_urls_unfold.
    rewrite bool_decide_eq_false_2 by apply not_elem_of_empty. reflexivity.
  - intros Hfour u Hu.
    pose proof (unique_urls_sublist cands ∅) as Hsub%sublist_length.
    rewrite firstn_all2 by (etrans; [exact Hsub|exact Hfour]).
    destruct (unique_urls_complete cands ∅ u Hu) as [He | Hr]; [|exact Hr].
    exfalso. exact (not_elem_of_empty _ He).
Qed.

Lemma candidate_urls_distinct_witness :
  EmailExtractor._get_candidate_urls open_site "https://business.de/kontakt/" 4
  = Ok ["https://business.de/kontakt"; "https://business.de/contact";
        "https://business.de/impressum"] /\
  NoDup (url_norm <$> ["https://business.de/kontakt"; "https://business.de/contact";
                       "https://business.de/impressum"]).
Proof.
  assert (E : EmailExtractor._get_candidate_urls open_site "https://business.de/kontakt/" 4
              = Ok ["https://business.de/kontakt"; "https://business.de/contact";
                    "https://business.de/impressum"]) by (vm_compute; reflexivity).
  split; [exact E|].
  destruct (candidate_urls_distinct open_site _ 4 _ E) as (parsed & _ & _ & _ & N & _).
  exact N.
Defined.

Section Pacing.

Import EmailExtractor.

Lemma robots_events_shape (w : Web) url :
  (_check_robots_allowed w url).1 = []
  \/ exists r, (_check_robots_allowed w url).1 = [EvRobotsTxt r].
Proof.
  unfold _check_robots_allowed. destruct (UrlLib.urlparse url); [right|left]; eauto.
Qed.

Lemma clock_answers (w : Web) s :
  sleep w s = Ok tt \/ exists e, sleep w s = Raise e.
Proof. destruct (sleep w s) as [[]|e]; eauto. Qed.

(** The walk over the pages of an allowed site. *)
Lemma harvest_allowed (w : Web) url s n urls :
  passes_guard url = true ->
  (_check_robots_allowed w url).2 = true ->
  _get_candidate_urls w url n = Ok urls ->
  extract_emails_from_website w url s n =
  match fetch_pages w s 0 urls with
  | (page_events, Raise e) => ((_check_robots_allowed w url).1 ++ page_events, Raise e)
  | (page_events, Ok all_emails) =>
      ((_check_robots_allowed w url).1 ++ page_events,
       Ok ((dedup_emails all_emails ∅).1, join "," (dedup_emails all_emails ∅).2))
  end.
Proof.
  intros G A C. rewrite (guard_passes w url s n G).
  destruct (_check_robots_allowed w url) as [re allowed]. cbn [fst snd] in *.
  subst allowed. cbn [negb]. rewrite C.
  destruct (fetch_pages w s 0 urls) as [pe [all|e]]; [|reflexivity].
  destruct (dedup_emails all ∅) as [ue sp]. reflexivity.
Qed.

(** The pages of a walk, whether it ends or is cut short. *)
Lemma walk_of (w : Web) s urls :
  (sleep w s = Ok tt /\ (fetch_pages w s 0 urls).1 = paced urls)
  \/ (length urls <= 1 /\ (fetch_pages w s 0 urls).1 = paced urls)
  \/ (exists e u v rest, sleep w s = Raise e /\ urls = u :: v :: rest /\
        (fetch_pages w s 0 urls).1 = [EvGet u; EvSleep]).
Proof.
  destruct (clock_answers w s) as [Hs | [e Hs]].
  - left. split; [exact Hs|]. destruct (fetch_pages_paced w s urls Hs) as [all ->].
    reflexivity.
  - right. destruct urls as [|u [|v rest]].
    + left. split; [cbn; lia|reflexivity].
    + left. split; [cbn; lia|]. destruct (fetch_pages_one w s u) as [all ->].
      reflexivity.
    + right. exists e, u, v, rest. split; [exact Hs|]. split; [reflexivity|].
      rewrite (fetch_pages_cut_short w s u v rest e Hs). reflexivity.
Qed.

(** The events of a call: the read of robots.txt, if any, then the walk. *)
Lemma harvest_events (w : Web) url s n :
  exists robots urls walk,
    (extract_emails_from_website w url s n).1 = robots ++ walk /\
    (robots = [] \/ exists r, robots = [EvRobotsTxt r]) /\
    (urls = [] \/ _get_candidate_urls w url n = Ok urls) /\
    (walk = paced urls
     \/ exists e u v rest, sleep w s = Raise e /\ urls = u :: v :: rest /\
                           walk = [EvGet u; EvSleep]).
Proof.
  destruct (passes_guard url) eqn:G.
  - rewrite (guard_passes w url s n G).
    pose proof (robots_events_shape w url) as Hr.
    destruct (_check_robots_allowed w url) as [re allowed]. cbn [fst snd] in *.
    destruct allowed; cbn [negb].
    + destruct (_get_candidate_urls w url n) as [urls|e] eqn:C.
      * exists re, urls, (fetch_pages w s 0 urls).1.
        split; [|split; [exact Hr|split; [right; reflexivity|]]].
        -- destruct (fetch_pages w s 0 urls) as [pe [all|e]]; [|reflexivity].
           destruct (dedup_emails all ∅) as [ue sp]. reflexivity.
        -- destruct (walk_of w s urls) as [[_ H] | [[_ H] | H]]; [left; exact H..|].
           right. exact H.
      * exists re, [], []. cbn [fst]. rewrite app_nil_r. auto.
    + exists re, [], []. cbn [fst]. rewrite app_nil_r. auto.
  - rewrite (guard_rejects w url s n G). exists [], [], []. cbn. auto.
Qed.

End Pacing.

(** X2.  A call of [extract_emails_from_website] asks for at most [max_pages]
    pages and at most four, no page twice (trailing slashes aside), reads
    robots.txt at most once, and calls [time.sleep] at most once per page
    it asks for.  When the clock accepts [sleep_seconds], the call pauses
    between two page requests and nowhere else, and a page that fails does
    not end the walk: on an allowed site the events are the read of
    robots.txt and then every candidate page in order, and the call
    returns.  When the clock refuses [sleep_seconds] (a negative number),
    the same holds of a site with at most one candidate page; with two or
    more, the call asks for the first page, attempts the pause, and ends
    with the exception of the clock. *)
Theorem harvest_is_paced (w : EmailExtractor.Web) (url sleep_seconds : string)
    (max_pages : nat) :
  let call := EmailExtractor.extract_emails_from_website w url sleep_seconds max_pages in
  let evs := fst call in
  length (EmailExtractor.content_fetches evs) <= Nat.min max_pages 4 /\
  NoDup (url_norm <$> EmailExtractor.content_fetches evs) /\
  robots_reads evs <= 1 /\
  pauses evs <= length (EmailExtractor.content_fetches evs) /\
  (EmailExtractor.sleep w sleep_seconds = Ok tt ->
   pauses evs = length (EmailExtractor.content_fetches evs) - 1) /\
  (forall urls,
     passes_guard url = true ->
     snd (EmailExtractor._check_robots_allowed w url) = true ->
     EmailExtractor._get_candidate_urls w url max_pages = Ok urls ->
     (EmailExtractor.sleep w sleep_seconds = Ok tt \/ length urls <= 1 ->
      evs = fst (EmailExtractor._check_robots_allowed w url) ++ paced urls /\
      exists found, snd call = Ok found) /\
     (forall e u v rest,
        EmailExtractor.sleep w sleep_seconds = Raise e ->
        urls = u :: v :: rest ->
        call = (fst (EmailExtractor._check_robots_allowed w url)
                ++ [EmailExtractor.EvGet u; EmailExtractor.EvSleep],
                Raise e))).
Proof.
  intros call evs. subst evs call.
  destruct (harvest_events w url sleep_seconds max_pages)
    as (robots & urls & walk & E & Hrobots & Hurls & Hwalk).
  assert (Hu : length urls <= Nat.min max_pages 4 /\ NoDup (url_norm <$> urls)).
  { destruct Hurls as [-> | C]; [split; [cbn; lia|constructor]|].
    destruct (candidate_urls_distinct_aux w url max_pages urls C) as (_ & L & N).
    split; assumption. }
  assert (Hc : EmailExtractor.content_fetches (robots ++ walk)
               = EmailExtractor.content_fetches walk).
  { unfold EmailExtractor.content_fetches. rewrite omap_app.
    destruct Hrobots as [-> | [r ->]]; reflexivity. }
  assert (Hp : pauses (robots ++ walk) = pauses walk).
  { unfold pauses. rewrite List.filter_app, length_app.
    destruct Hrobots as [-> | [r ->]]; reflexivity. }
  assert (Hr : robots_reads (robots ++ walk) = robots_reads robots + robots_reads walk).
  { unfold robots_reads. rewrite List.filter_app, length_app. reflexivity. }
  assert (Hr1 : robots_reads robots <= 1).
  { destruct Hrobots as [-> | [r ->]]; cbn; lia. }
  destruct Hu as [L N].
  split; [|split; [|split; [|split; [|split]]]]; [rewrite E, ?Hc, ?Hp, ?Hr..|].
  - destruct Hwalk as [-> | (e & u & v & rest & _ & -> & ->)].
    + rewrite content_fetches_paced. exact L.
    + cbn in *. lia.
  - destruct Hwalk as [-> | (e & u & v & rest & _ & -> & ->)].
    + rewrite content_fetches_paced. exact N.
    + cbn. apply NoDup_singleton.
  - destruct Hwalk as [-> | (e & u & v & rest & _ & -> & ->)].
    + rewrite robots_reads_paced. lia.
    + cbn. lia.
  - destruct Hwalk as [-> | (e & u & v & rest & _ & -> & ->)].
    + rewrite content_fetches_paced, pauses_paced. lia.
    + cbn. lia.
  - intros Hs. destruct Hwalk as [-> | (e & u & v & rest & He & _ & _)].
    + rewrite content_fetches_paced, pauses_paced. reflexivity.
    + rewrite Hs in He. discriminate He.
  - clear E Hc Hp Hr Hr1 L N Hurls Hwalk Hrobots robots urls walk.
    intros urls G A C. rewrite (harvest_allowed w url sleep_seconds max_pages urls G A C).
    split.
    + intros [Hs | Hlen].
      * destruct (fetch_pages_paced w sleep_seconds urls Hs) as [all ->]. cbn [fst snd].
        split; [reflexivity|eexists; reflexivity].
      * destruct urls as [|u [|v rest]]; [| |cbn in Hlen; lia].
        -- cbn. split; [reflexivity|eexists; reflexivity].
        -- destruct (fetch_pages_one w sleep_seconds u) as [all ->]. cbn [fst snd].
           split; [reflexivity|eexists; reflexivity].
    + intros e u v rest Hs ->.
      rewrite (fetch_pages_cut_short w sleep_seconds u v rest e Hs). reflexivity.
Qed.

Lemma harvest_is_paced_witness :
  fst (EmailExtractor.extract_emails_from_website open_site "https://business.de" "1.0" 2)
  = [EmailExtractor.EvRobotsTxt "https://business.de/robots.txt";
     EmailExtractor.EvGet "https://business.de/";
     EmailExtractor.EvSleep;
     EmailExtractor.EvGet "https://business.de/kontakt"] /\
  EmailExtractor.extract_emails_from_website open_site "https://business.de" "-1.0" 2
  = ([EmailExtractor.EvRobotsTxt "https://business.de/robots.txt";
      EmailExtractor.EvGet "https://business.de/";
      EmailExtractor.EvSleep],
     Raise ValueError).
Proof.
  split.
  - pose proof (harvest_is_paced open_site "https://business.de" "1.0" 2)
      as (_ & _ & _ & _ & _ & H).
    destruct (H ["https://business.de/"; "https://business.de/kontakt"]
                eq_refl eq_refl eq_refl) as [H1 _].
    destruct (H1 (or_introl eq_refl)) as [-> _]. reflexivity.
  - pose proof (harvest_is_paced open_site "https://business.de" "-1.0" 2)
      as (_ & _ & _ & _ & _ & H).
    destruct (H ["https://business.de/"; "https://business.de/kontakt"]
                eq_refl eq_refl eq_refl) as [_ H2].
    rewrite (H2 ValueError _ _ _ eq_refl eq_refl). reflexivity.
Defined.

(** ** The addresses of a page (utils/email_extractor.py) *)

Section Matches.

Import EmailExtractor.

Implicit Types (s t m d : string) (p : ascii -> bool) (ms : list string)
  (found : gset string).

Lemma forallb_str_app p s t :
  forallb_str p (s +:+ t) = forallb_str p s && forallb_str p t.
Proof.
  induction s as [|a s IH]; [reflexivity|].
  rewrite str_app_cons. cbn [forallb_str]. rewrite IH, andb_assoc. reflexivity.
Qed.

Lemma forallb_str_weaken p q s :
  (forall a, p a = true -> q a = true) ->
  forallb_str p s = true -> forallb_str q s = true.
Proof.
  intros Hpq. induction s as [|a s IH]; [reflexivity|].
  cbn [forallb_str]. intros [Ha Hs]%andb_true_iff.
  rewrite (Hpq a Ha), (IH Hs). reflexivity.
Qed.

Lemma span_until_spec p s :
  s = (UrlLib.span_until p s).1 +:+ (UrlLib.span_until p s).2 /\
  forallb_str (fun a => negb (p a)) (UrlLib.span_until p s).1 = true.
Proof.
  induction s as [|a s [IH1 IH2]]; [split; reflexivity|].
  cbn [UrlLib.span_until]. destruct (p a) eqn:Pa.
  - split; reflexivity.
  - destruct (UrlLib.span_until p s) as [l r]. cbn [fst snd] in *.
    rewrite str_app_cons, <- IH1. split; [reflexivity|].
    cbn [forallb_str]. rewrite Pa, IH2. reflexivity.
Qed.

Lemma span_while_spec p s :
  s = (span_while p s).1 +:+ (span_while p s).2 /\
  forallb_str p (span_while p s).1 = true.
Proof.
  unfold span_while. destruct (span_until_spec (fun c => negb (p c)) s) as [H1 H2].
  split; [exact H1|].
  eapply forallb_str_weaken; [|exact H2].
  intros a Ha. cbv beta in Ha. destruct (p a); [reflexivity|discriminate].
Qed.

Lemma domain_match_prefix seen d m :
  domain_match seen d = Some m -> exists rest, d = m +:+ rest.
Proof.
  revert seen m. induction d as [|a d IH]; intros seen m; [discriminate|].
  cbn [domain_match]. destruct (domain_match true d) as [m'|] eqn:E.
  - intros [= <-]. destruct (IH true m' E) as [rest ->].
    exists rest. reflexivity.
  - destruct (seen && Ascii.eqb a "." && (2 <=? String.length (span_while is_alpha_ascii d).1));
      [|discriminate].
    intros [= <-]. destruct (span_while_spec is_alpha_ascii d) as [Hd _].
    exists (span_while is_alpha_ascii d).2. rewrite str_app_cons, <- Hd. reflexivity.
Qed.

Lemma local_char_address a : local_char a = true -> address_char a = true.
Proof. unfold address_char. intros ->. reflexivity. Qed.

Lemma domain_char_address a : domain_char a = true -> address_char a = true.
Proof.
  unfold address_char, local_char, domain_char, UrlLib.one_of.
  destruct (is_alpha_ascii a); [reflexivity|].
  destruct (is_digit a); [reflexivity|]. cbn [orb].
  intros H. apply orb_true_iff. left.
  destruct a as [[] [] [] [] [] [] [] []]; vm_compute in H |- *; congruence.
Qed.

Lemma address_char_plain a :
  address_char a = true ->
  is_space a = false /\ Ascii.eqb " " a = false /\ Ascii.eqb "010" a = false.
Proof.
  destruct a as [[] [] [] [] [] [] [] []]; vm_compute; intros H;
    repeat split; congruence.
Qed.

(** A match holds characters of the pattern only, one ["@"] among them, and
    is a prefix of the text it is found in. *)
Lemma match_at_spec s m :
  match_at s = Some m ->
  forallb_str address_char m = true /\ has "@" m = true /\ exists rest, s = m +:+ rest.
Proof.
  unfold match_at.
  destruct (span_while_spec local_char s) as [Hs Hl].
  destruct (span_while local_char s) as [loc rest]. cbn [fst snd] in *.
  destruct loc as [|c loc]; [discriminate|].
  destruct rest as [|b rest]; [discriminate|].
  destruct (Ascii.eqb_spec b "@") as [-> | Hb].
  2: { destruct b as [[] [] [] [] [] [] [] []]; try discriminate. contradiction. }
  destruct (span_while_spec domain_char rest) as [Hr Hd].
  destruct (domain_match false (span_while domain_char rest).1) as [dom|] eqn:D;
    [|discriminate].
  intros [= <-].
  destruct (domain_match_prefix _ _ _ D) as [tail Htail].
  assert (Hdom : forallb_str domain_char dom = true).
  { rewrite Htail, forallb_str_app in Hd. apply andb_true_iff in Hd as [Hd _]. exact Hd. }
  split; [|split].
  - rewrite forallb_str_app. apply andb_true_iff. split.
    + eapply forallb_str_weaken; [apply local_char_address|exact Hl].
    + change ("@" +:+ dom) with (String "@" dom). cbn [forallb_str].
      apply andb_true_iff. split; [reflexivity|].
      eapply forallb_str_weaken; [apply domain_char_address|exact Hdom].
  - rewrite has_app. apply orb_true_iff. right.
    change ("@" +:+ dom) with (String "@" dom). rewrite has_cons. reflexivity.
  - exists (tail +:+ (span_while domain_char rest).2).
    rewrite Hs at 1. rewrite Hr at 1. rewrite Htail.
    rewrite !str_app_assoc. reflexivity.
Qed.

Lemma finditer_go_matches skip s m :
  m ∈ finditer_go skip s -> exists pre t, s = pre +:+ t /\ match_at t = Some m.
Proof.
  revert skip. induction s as [|a s IH]; intros skip.
  - cbn. intros H. inversion H.
  - cbn [finditer_go]. destruct skip as [|k].
    + destruct (match_at (String a s)) as [m'|] eqn:E.
      * intros [-> | Hin]%elem_of_cons.
        -- exists "", (String a s). split; [reflexivity|exact E].
        -- destruct (IH _ Hin) as (pre & t & -> & Ht).
           exists (String a pre), t. split; [reflexivity|exact Ht].
      * intros Hin. destruct (IH _ Hin) as (pre & t & -> & Ht).
        exists (String a pre), t. split; [reflexivity|exact Ht].
    + intros Hin. destruct (IH _ Hin) as (pre & t & -> & Ht).
      exists (String a pre), t. split; [reflexivity|exact Ht].
Qed.

Lemma has_forallb c p s : p c = false -> forallb_str p s = true -> has c s = false.
Proof.
  intros Hc. induction s as [|a s IH]; [reflexivity|].
  cbn [forallb_str]. intros [Ha Hs]%andb_true_iff. rewrite has_cons, (IH Hs), orb_false_r.
  destruct (Ascii.eqb_spec c a) as [-> | ]; [congruence|reflexivity].
Qed.

Lemma rstrip_nothing p s :
  forallb_str (fun a => negb (p a)) s = true -> rstrip_with p s = s.
Proof.
  induction s as [|a s IH]; [reflexivity|].
  cbn [forallb_str]. intros [Ha Hs]%andb_true_iff.
  rewrite rstrip_keep_head by (destruct (p a); [discriminate|reflexivity]).
  rewrite (IH Hs). reflexivity.
Qed.

Lemma strip_nothing s :
  forallb_str (fun a => negb (is_space a)) s = true -> strip s = s.
Proof.
  intros H. unfold strip, strip_with.
  destruct s as [|a s]; [reflexivity|].
  cbn [forallb_str] in H. apply andb_true_iff in H as [Ha Hs].
  rewrite lstrip_id by (destruct (is_space a); [discriminate|reflexivity]).
  apply rstrip_nothing. cbn [forallb_str]. rewrite Ha, Hs. reflexivity.
Qed.

(** A match is kept as it is, and the two tests on white space pass. *)
Lemma match_plain m :
  forallb_str address_char m = true ->
  strip m = m /\ contains " " m = false /\ contains NL m = false.
Proof.
  intros H. split; [|split].
  - apply strip_nothing. eapply forallb_str_weaken; [|exact H].
    intros a Ha. apply address_char_plain in Ha as (-> & _). reflexivity.
  - apply (has_forallb " " address_char); [reflexivity|exact H].
  - apply (has_forallb "010" address_char); [reflexivity|exact H].
Qed.

Lemma valid_has_at e : _is_valid_email e = true -> has "@" e = true.
Proof.
  unfold _is_valid_email.
  destruct (negb (truthy e) || (254 <? String.length e)); [discriminate|].
  destruct (rsplit1 "@" (strip (lower e))) as [[l d]|] eqn:R; [|discriminate].
  intros _. destruct (has "@" e) eqn:H; [reflexivity|].
  assert (has "@" (strip (lower e)) = false) as N.
  { apply has_strip. rewrite has_at_lower. exact H. }
  apply rsplit1_none in N. congruence.
Qed.

Lemma collect_valid_spec ms found :
  Forall (fun m => forallb_str address_char m = true) ms ->
  NoDup (collect_valid ms found).*1 /\
  (collect_valid ms found).*1 `sublist_of` ms /\
  (forall e, e ∈ (collect_valid ms found).*1 <->
             e ∈ ms /\ (e ∉ found) /\ _is_valid_email e = true) /\
  (forall e h, (e, h) ∈ collect_valid ms found -> h = "page").
Proof.
  intros Hms. revert found. induction Hms as [|m ms Hm Hms IH]; intros found.
  - cbn. split; [constructor|]. split; [constructor|]. split.
    + intros e. split; [intros H; inversion H|intros [H _]; inversion H].
    + intros e h H. inversion H.
  - cbn [collect_valid]. destruct (match_plain m Hm) as (-> & -> & ->). cbn [orb].
    case_bool_decide as Hf.
    { destruct (IH found) as (N & S & M & P). split; [exact N|].
      split; [apply sublist_cons, S|]. split; [|exact P].
      intros e. rewrite M, elem_of_cons. split; [tauto|].
      intros [[-> | H] [H1 H2]]; [contradiction|tauto]. }
    destruct (_is_valid_email m) eqn:V.
    + destruct (IH ({[m]} ∪ found)) as (N & S & M & P).
      rewrite fmap_cons. cbn [fst]. split; [|split; [|split]].
      * constructor; [|exact N]. rewrite M. set_solver.
      * apply sublist_skip, S.
      * intros e. rewrite !elem_of_cons, M. split.
        -- intros [-> | (H1 & H2 & H3)]; [tauto|]. set_solver.
        -- intros [[-> | H1] [H2 H3]]; [tauto|].
           destruct (decide (e = m)) as [-> | Hne]; [tauto|]. right. set_solver.
      * intros e h [[= -> ->] | H]%elem_of_cons; [reflexivity|]. exact (P e h H).
    + destruct (IH found) as (N & S & M & P). split; [exact N|].
      split; [apply sublist_cons, S|]. split; [|exact P].
      intros e. rewrite M, elem_of_cons. split; [tauto|].
      intros [[-> | H] [H1 H2]]; [congruence|tauto].
Qed.

(** *** The order of the addresses *)

Lemma filter_swap {A} (p q : A -> bool) (l : list A) :
  List.filter p (List.filter q l) = List.filter q (List.filter p l).
Proof.
  induction l as [|x l IH]; [reflexivity|]. cbn [List.filter].
  destruct (q x) eqn:Q, (p x) eqn:P; cbn [List.filter]; rewrite ?Q, ?P, ?IH; reflexivity.
Qed.

Lemma filter_both {A} (p q : A -> bool) (l : list A) :
  List.filter p (List.filter q l) = List.filter (fun x => q x && p x) l.
Proof.
  induction l as [|x l IH]; [reflexivity|]. cbn [List.filter].
  destruct (q x) eqn:Q; cbn [List.filter andb]; [|exact IH].
  destruct (p x); rewrite IH; reflexivity.
Qed.

Lemma filter_all {A} (p : A -> bool) (l : list A) :
  (forall x, In x l -> p x = true) -> List.filter p l = l.
Proof.
  induction l as [|x l IH]; [reflexivity|]. intros H. cbn [List.filter].
  rewrite (H x) by (left; reflexivity). f_equal. apply IH. intros y Hy. apply H. right. exact Hy.
Qed.

Lemma first_occurrences_In x (l : list string) : In x (first_occurrences l) -> In x l.
Proof.
  induction l as [|y l IH]; [intros []|]. cbn [first_occurrences].
  intros [-> | H]; [left; reflexivity|]. right. apply IH.
  apply List.filter_In in H. tauto.
Qed.

Lemma filter_first_occurrences (q : string -> bool) (l : list string) :
  List.filter q (first_occurrences l) = first_occurrences (List.filter q l).
Proof.
  induction l as [|x l IH]; [reflexivity|].
  cbn [first_occurrences List.filter]. destruct (q x) eqn:Q.
  - cbn [first_occurrences]. f_equal. rewrite filter_swap, IH. reflexivity.
  - rewrite filter_swap, IH. apply filter_all. intros y Hy.
    apply first_occurrences_In, List.filter_In in Hy as [_ Hy].
    destruct (String.eqb_spec y x) as [-> | _]; [congruence|reflexivity].
Qed.

Lemma collect_valid_order ms found :
  Forall (fun m => forallb_str address_char m = true) ms ->
  (collect_valid ms found).*1
  = first_occurrences
      (List.filter (fun m => _is_valid_email m && negb (bool_decide (m ∈ found))) ms).
Proof.
  intros Hms. revert found. induction Hms as [|m ms Hm Hms IH]; intros found;
    [reflexivity|].
  cbn [collect_valid List.filter]. destruct (match_plain m Hm) as (-> & -> & ->).
  cbn [orb]. case_bool_decide as Hf.
  { rewrite andb_false_r. apply IH. }
  destruct (_is_valid_email m) eqn:V; cbn [andb negb]; [|apply IH].
  rewrite fmap_cons. cbn [fst first_occurrences]. f_equal.
  rewrite IH, filter_first_occurrences, filter_both. f_equal.
  apply List.filter_ext. intros y.
  destruct (_is_valid_email y); cbn [andb]; [|reflexivity].
  destruct (String.eqb_spec y m) as [-> | Hne].
  - rewrite bool_decide_eq_true_2 by set_solver. rewrite andb_false_r. reflexivity.
  - rewrite andb_true_r. f_equal. apply bool_decide_ext. set_solver.
Qed.

Lemma collect_valid_hints ms found :
  collect_valid ms found = map (fun e => (e, "page")) (collect_valid ms found).*1.
Proof.
  revert found. induction ms as [|m ms IH]; intros found; [reflexivity|].
  cbn [collect_valid].
  destruct (contains " " (strip m) || contains NL (strip m)); [apply IH|].
  case_bool_decide; [apply IH|].
  destruct (_is_valid_email (strip m)); [|apply IH].
  rewrite fmap_cons. cbn [fst map]. f_equal. apply IH.
Qed.

Lemma finditer_plain html :
  Forall (fun m => forallb_str address_char m = true) (EMAIL_PATTERN_finditer html).
Proof.
  apply Forall_forall. intros m Hm.
  destruct (finditer_go_matches 0 html m Hm) as (pre & t & _ & Ht).
  apply match_at_spec in Ht as (H & _). exact H.
Qed.

Lemma html_addresses_valid html e :
  e ∈ (extract_emails_from_html html).*1 ->
  e ∈ EMAIL_PATTERN_finditer html /\ _is_valid_email e = true.
Proof.
  unfold extract_emails_from_html. destruct (negb (truthy html)).
  - intros H. inversion H.
  - destruct (collect_valid_spec _ ∅ (finditer_plain html)) as (_ & _ & M & _).
    rewrite M. tauto.
Qed.

End Matches.

(** X3.  The addresses [extract_emails_from_html] returns are exactly the matches
    of [EMAIL_PATTERN] that [_is_valid_email] accepts, each once, in the
    order of their first match and unchanged: the list of the addresses is
    the list of the accepted matches, each left at its first occurrence.
    Each address is paired with the hint ["page"], has an ["@"] and no white
    space. *)
Theorem html_addresses_are_the_valid_matches (html : string) :
  let found := EmailExtractor.extract_emails_from_html html in
  found.*1
  = first_occurrences
      (List.filter EmailExtractor._is_valid_email
         (EmailExtractor.EMAIL_PATTERN_finditer html)) /\
  found = map (fun e => (e, "page")) found.*1 /\
  NoDup found.*1 /\
  found.*1 `sublist_of` EmailExtractor.EMAIL_PATTERN_finditer html /\
  (forall e, e ∈ found.*1 <->
             e ∈ EmailExtractor.EMAIL_PATTERN_finditer html
             /\ EmailExtractor._is_valid_email e = true) /\
  (forall e h, (e, h) ∈ found ->
     h = "page" /\ has "@" e = true /\ has " " e = false /\ strip e = e).
Proof.
  intros found. subst found. unfold EmailExtractor.extract_emails_from_html.
  destruct html as [|a html].
  - cbn. split; [reflexivity|]. split; [reflexivity|].
    split; [constructor|]. split; [constructor|]. split.
    + intros e. split; [intros H; inversion H|intros [H _]; inversion H].
    + intros e h H. inversion H.
  - cbn [truthy negb].
    pose proof (finditer_plain (String a html)) as Hplain.
    destruct (collect_valid_spec _ ∅ Hplain) as (N & S & M & P).
    split.
    { rewrite (collect_valid_order _ ∅ Hplain). f_equal.
      apply List.filter_ext. intros y.
      rewrite bool_decide_eq_false_2 by apply not_elem_of_empty.
      apply andb_true_r. }
    split; [apply collect_valid_hints|].
    split; [exact N|]. split; [exact S|]. split.
    + intros e. rewrite M. set_solver.
    + intros e h H. split; [exact (P e h H)|].
      assert (He : e ∈ (EmailExtractor.collect_valid
                          (EmailExtractor.EMAIL_PATTERN_finditer (String a html)) ∅).*1).
      { apply list_elem_of_fmap. exists (e, h). split; [reflexivity|exact H]. }
      apply M in He as (Hin & _ & V).
      rewrite Forall_forall in Hplain. specialize (Hplain e Hin).
      destruct (match_plain e Hplain) as (Hs & Hsp & _).
      split; [apply valid_has_at, V|]. split; [exact Hsp|exact Hs].
Qed.

Lemma html_addresses_are_the_valid_matches_witness :
  EmailExtractor.EMAIL_PATTERN_finditer
    "Mail Info@Business.de, info@business.de, Info@Business.de or support@example.com"
  = ["Info@Business.de"; "info@business.de"; "Info@Business.de"; "support@example.com"] /\
  EmailExtractor.extract_emails_from_html
    "Mail Info@Business.de, info@business.de, Info@Business.de or support@example.com"
  = [("Info@Business.de", "page"); ("info@business.de", "page")] /\
  NoDup ["Info@Business.de"; "info@business.de"].
Proof.
  assert (E : EmailExtractor.extract_emails_from_html
                "Mail Info@Business.de, info@business.de, Info@Business.de or support@example.com"
              = [("Info@Business.de", "page"); ("info@business.de", "page")])
    by (vm_compute; reflexivity).
  split; [vm_compute; reflexivity|]. split; [exact E|].
  pose proof (html_addresses_are_the_valid_matches
                "Mail Info@Business.de, info@business.de, Info@Business.de or support@example.com")
    as H.
  cbv zeta in H. rewrite E in H. exact (proj1 (proj2 (proj2 H))).
Defined.

(** ** The deny lists (utils/email_extractor.py) *)

Section DenyLists.

Import EmailExtractor.

Implicit Types (local domain email : string).

Lemma lstrip_app_stop (f : ascii -> bool) s c t :
  f c = false -> lstrip_with f (s +:+ String c t) = lstrip_with f s +:+ String c t.
Proof.
  intros Hc. induction s as [|a s IH].
  - rewrite str_app_nil. cbn [lstrip_with]. rewrite Hc. reflexivity.
  - rewrite str_app_cons. cbn [lstrip_with]. destruct (f a); [exact IH|].
    rewrite str_app_cons. reflexivity.
Qed.

(** What [_is_valid_email] splits an address into. *)
Lemma rsplit_compared local domain :
  has "@" domain = false ->
  rsplit1 "@" (strip (lower (local +:+ String "@" domain)))
  = Some (lstrip_with is_space (lower local), compared_domain domain).
Proof.
  intros Hd. unfold compared_domain.
  rewrite lower_app.
  change (lower (String "@" domain)) with (String "@" (lower domain)).
  unfold strip, strip_with.
  rewrite lstrip_app_stop by reflexivity.
  rewrite rstrip_app by (rewrite rstrip_keep_head by reflexivity; discriminate).
  rewrite rstrip_keep_head by reflexivity.
  apply rsplit1_app. apply has_rstrip. rewrite has_at_lower. exact Hd.
Qed.

Lemma valid_not_denied email local domain :
  _is_valid_email email = true -> rsplit1 "@" email = Some (local, domain) ->
  ~ denied (compared_domain domain).
Proof.
  intros V R. apply rsplit1_spec in R as [-> Hd]. unfold _is_valid_email in V.
  destruct (negb (truthy (local +:+ String "@" domain))
            || (254 <? String.length (local +:+ String "@" domain))); [discriminate V|].
  rewrite (rsplit_compared local domain Hd) in V.
  case_bool_decide as Hin; [discriminate V|].
  unfold INVALID_EMAIL_DOMAIN_SUFFIXES in V. cbn [existsb] in V.
  intros [H | [H | H]]; [contradiction| |]; rewrite H in V.
  - discriminate V.
  - rewrite orb_true_l, orb_true_r in V. discriminate V.
Qed.

Lemma fetch_pages_emails (w : Web) s i urls all e h :
  (fetch_pages w s i urls).2 = Ok all ->
  (e, h) ∈ all ->
  exists j u html,
    urls !! j = Some u /\ http_get w (i + j) u = Ok html /\
    e ∈ (extract_emails_from_html html).*1 /\ h = page_type (i + j).
Proof.
  revert i all. induction urls as [|u urls IH]; intros i all.
  - cbn. intros [= <-] H. inversion H.
  - cbn [fetch_pages]. specialize (IH (S i)).
    destruct (if (0 <? i)%nat then sleep w s else Ok tt) as [[]|x]; [|discriminate].
    destruct (fetch_pages w s (S i) urls) as [evs [more|x]]; [|discriminate].
    cbn [snd] in *. intros [= <-].
    intros [Hin | Hin]%elem_of_app.
    + exists 0, u. rewrite Nat.add_0_r. unfold _fetch_page in Hin.
      destruct (http_get w i u) as [html|]; [|inversion Hin].
      exists html. destruct (truthy html); [|inversion Hin].
      apply list_elem_of_fmap in Hin as ([e' h'] & [= <- ->] & Hin).
      repeat split; try reflexivity.
      apply list_elem_of_fmap. exists (e, h'). split; [reflexivity|exact Hin].
    + destruct (IH more eq_refl Hin) as (j & u' & html & Hj & Hg & He & Hh).
      exists (S j), u', html. rewrite Nat.add_succ_r. auto.
Qed.

End DenyLists.

(** X4.  An address on a deny-listed domain is rejected whatever the letter case
    of the domain and the white space after it, and whatever stands before
    the last ["@"]. *)
Theorem deny_list_ignores_case (local domain : string) :
  has "@" domain = false ->
  denied (compared_domain domain) ->
  EmailExtractor._is_valid_email (local +:+ "@" +:+ domain) = false.
Proof.
  intros Hd Hden. change (local +:+ "@" +:+ domain) with (local +:+ String "@" domain).
  unfold EmailExtractor._is_valid_email.
  destruct (negb (truthy (local +:+ String "@" domain))
            || (254 <? String.length (local +:+ String "@" domain))); [reflexivity|].
  rewrite (rsplit_compared local domain Hd).
  destruct Hden as [Hin | [Hw | Hs]].
  - rewrite bool_decide_eq_true_2 by exact Hin. reflexivity.
  - destruct (bool_decide (compared_domain domain ∈ EmailExtractor.INVALID_EMAIL_DOMAINS));
      [reflexivity|].
    unfold EmailExtractor.INVALID_EMAIL_DOMAIN_SUFFIXES. cbn [existsb].
    rewrite Hw. reflexivity.
  - destruct (bool_decide (compared_domain domain ∈ EmailExtractor.INVALID_EMAIL_DOMAINS));
      [reflexivity|].
    unfold EmailExtractor.INVALID_EMAIL_DOMAIN_SUFFIXES. cbn [existsb].
    rewrite Hs, orb_true_l, orb_true_r. reflexivity.
Qed.

Lemma deny_list_ignores_case_witness :
  has "@" "Mail.WixPress.COM " = false /\
  denied (compared_domain "Mail.WixPress.COM ") /\
  EmailExtractor._is_valid_email "Info@Mail.WixPress.COM " = false.
Proof.
  assert (H : denied (compared_domain "Mail.WixPress.COM ")) by (right; left; reflexivity).
  split; [reflexivity|]. split; [exact H|].
  exact (deny_list_ignores_case "Info" "Mail.WixPress.COM " eq_refl H).
Defined.

(** X5.  Every address [extract_emails_from_website] returns passed
    [_is_valid_email], so its domain is on neither deny list, and it is a
    match of [EMAIL_PATTERN] in the text of a candidate page that was
    fetched during the call. *)
Theorem harvested_addresses_are_valid (w : EmailExtractor.Web) (url sleep_seconds : string)
    (max_pages : nat) (emails : list string) (hint e : string) :
  snd (EmailExtractor.extract_emails_from_website w url sleep_seconds max_pages)
  = Ok (emails, hint) ->
  e ∈ emails ->
  EmailExtractor._is_valid_email e = true /\
  (forall local domain,
     rsplit1 "@" e = Some (local, domain) -> ~ denied (compared_domain domain)) /\
  exists urls j u html,
    EmailExtractor._get_candidate_urls w url max_pages = Ok urls /\
    urls !! j = Some u /\
    EmailExtractor.http_get w j u = Ok html /\
    e ∈ EmailExtractor.EMAIL_PATTERN_finditer html.
Proof.
  intros H He.
  assert (Hsrc : exists urls j u html,
             EmailExtractor._get_candidate_urls w url max_pages = Ok urls /\
             urls !! j = Some u /\ EmailExtractor.http_get w j u = Ok html /\
             e ∈ (EmailExtractor.extract_emails_from_html html).*1).
  { destruct (passes_guard url) eqn:G.
    - rewrite (guard_passes w url sleep_seconds max_pages G) in H.
      destruct (EmailExtractor._check_robots_allowed w url) as [re allowed].
      destruct allowed; cbn [negb snd] in H.
      + destruct (EmailExtractor._get_candidate_urls w url max_pages) as [urls|x];
          [|discriminate H].
        pose proof (fetch_pages_emails w sleep_seconds 0 urls) as Hf.
        destruct (EmailExtractor.fetch_pages w sleep_seconds 0 urls) as [pe [all|x]];
          [|discriminate H].
        cbn [snd] in Hf. specialize (Hf all e).
        pose proof (dedup_emails_fresh all ∅ e) as Hd.
        destruct (EmailExtractor.dedup_emails all ∅) as [ue sp]. cbn [fst snd] in *.
        injection H as -> _. destruct (Hd He) as [_ Hall].
        apply list_elem_of_fmap in Hall as ([e' h] & -> & Hall).
        destruct (Hf h eq_refl Hall) as (j & u & html & Hj & Hg & Hin & _).
        exists urls, j, u, html. auto.
      + injection H as <- _. inversion He.
    - rewrite (guard_rejects w url sleep_seconds max_pages G) in H.
      injection H as <- _. inversion He. }
  destruct Hsrc as (urls & j & u & html & C & Hj & Hg & Hin).
  destruct (html_addresses_valid html e Hin) as [Hm V].
  split; [exact V|]. split.
  - intros local domain R. exact (valid_not_denied e local domain V R).
  - exists urls, j, u, html. auto.
Qed.

Lemma harvested_addresses_are_valid_witness :
  snd (EmailExtractor.extract_emails_from_website mail_site "https://zahnarzt.de" "1.0" 2)
  = Ok (["praxis@zahnarzt.de"], "homepage") /\
  EmailExtractor._is_valid_email "praxis@zahnarzt.de" = true.
Proof.
  assert (E : snd (EmailExtractor.extract_emails_from_website mail_site
                     "https://zahnarzt.de" "1.0" 2)
              = Ok (["praxis@zahnarzt.de"], "homepage")) by (vm_compute; reflexivity).
  split; [exact E|].
  refine (proj1 (harvested_addresses_are_valid mail_site _ _ 2 _ _ "praxis@zahnarzt.de" E _)).
  apply list_elem_of_here.
Defined.

(** ** The two adapters (utils/places.py, utils/osm_places.py) *)

Section Adapters.

Implicit Types (site : string).

Lemma osm_normalize_same x : OsmPlaces._normalize_website x = Places._normalize_website x.
Proof. reflexivity. Qed.

Lemma normalize_canonical x :
  truthy (Places._normalize_website x) = true ->
  canonical_website (Places._normalize_website x).
Proof.
  intros H%truthy_true. split; [exact H|]. split.
  - apply normalize_http, H.
  - apply normalize_no_query.
Qed.

Lemma required_some x s : Places.required x = Some s -> x = Some s /\ s <> "".
Proof.
  unfold Places.required. destruct x as [t|]; [|discriminate].
  destruct (truthy t) eqn:T; [|discriminate].
  intros [= ->]. split; [reflexivity|]. apply truthy_true, T.
Qed.

Lemma or_else_truthy a b :
  truthy (OsmPlaces.or_else a b) = true ->
  (exists s, a = Some s /\ s <> "" /\ OsmPlaces.or_else a b = s)
  \/ (OsmPlaces.or_else a b = b /\ b <> "").
Proof.
  unfold OsmPlaces.or_else. destruct a as [s|].
  - destruct (truthy s) eqn:T.
    + intros _. left. exists s. repeat split. apply truthy_true, T.
    + intros H. right. split; [reflexivity|]. apply truthy_true, H.
  - intros H. right. split; [reflexivity|]. apply truthy_true, H.
Qed.

Lemma parse_place_details_some details p :
  Places._parse_place_details details = Some p ->
  exists site lat lng,
    Places.d_website details = Some site /\
    Places.d_location details = Some (Some lat, Some lng) /\
    Places.d_place_id details = Some (Places.place_id p) /\
    Places.d_formatted_address details = Some (Places.formatted_address p) /\
    Places.website p = Places._normalize_website site /\
    Places.latitude p = lat /\ Places.longitude p = lng /\
    Places.place_id p <> "" /\ Places.formatted_address p <> "" /\
    canonical_website (Places.website p).
Proof.
  unfold Places._parse_place_details.
  destruct (Places.required (Places.d_place_id details)) as [pid|] eqn:Hpid;
    [|discriminate].
  destruct (Places.d_location details) as [[[lat|] [lng|]]|] eqn:Hloc; try discriminate.
  cbn [mbind option_bind fst snd].
  destruct (Places.required (Places.d_formatted_address details)) as [address|] eqn:Haddr;
    [|discriminate].
  cbn [mbind option_bind].
  destruct (Places.required (Places.d_website details)) as [site|] eqn:Hsite;
    [|discriminate].
  cbn [mbind option_bind].
  destruct (truthy (Places._normalize_website site)) eqn:T; [|discriminate].
  cbn [negb]. intros [= <-]. cbn.
  apply required_some in Hpid as [-> Hp], Haddr as [-> Ha], Hsite as [Hs _].
  exists site, lat, lng. repeat split; auto.
  all: apply (normalize_canonical site T).
Qed.

Lemma element_to_place_some fixed4 elem tag_key tag_value p :
  OsmPlaces._element_to_place fixed4 elem tag_key tag_value = Some p ->
  exists tags site,
    OsmPlaces.e_tags elem = Some tags /\
    (tags !! "website" = Some site \/ tags !! "contact:website" = Some site) /\
    OsmPlaces.website p = OsmPlaces._normalize_website site /\
    (tags !! "name" = Some (OsmPlaces.name p) \/ tags !! "brand" = Some (OsmPlaces.name p)) /\
    OsmPlaces.name p <> "" /\
    canonical_website (OsmPlaces.website p) /\
    OsmPlaces.formatted_address p <> "" /\
    OsmPlaces.place_id p
    = "osm:" +:+ default "node" (OsmPlaces.e_type elem) +:+ ":"
      +:+ default "0" (OsmPlaces.e_id elem) /\
    OsmPlaces.types p = [tag_key +:+ "=" +:+ tag_value].
Proof.
  unfold OsmPlaces._element_to_place.
  set (tags := default ∅ (OsmPlaces.e_tags elem)).
  set (name := OsmPlaces.or_else (tags !! "name") (OsmPlaces.or_else (tags !! "brand") "")).
  set (raw := OsmPlaces.or_else (tags !! "website")
                (OsmPlaces.or_else (tags !! "contact:website") "")).
  destruct (truthy name) eqn:Tn; [|discriminate]. cbn [negb].
  destruct (if bool_decide (OsmPlaces.e_type elem = Some "node")
            then (OsmPlaces.e_lat elem, OsmPlaces.e_lon elem)
            else default (None, None) (OsmPlaces.e_center elem)) as [[lat|] [lon|]];
    try discriminate.
  destruct (truthy (OsmPlaces._normalize_website raw)) eqn:Ts; [|discriminate].
  cbn [negb]. intros [= <-]. cbn [OsmPlaces.website OsmPlaces.name OsmPlaces.place_id
    OsmPlaces.formatted_address OsmPlaces.types].
  assert (Hraw : truthy raw = true).
  { destruct raw; [discriminate Ts|reflexivity]. }
  assert (Htags : OsmPlaces.e_tags elem = Some tags).
  { subst tags. destruct (OsmPlaces.e_tags elem) as [t|]; [reflexivity|].
    exfalso. subst name. cbn in Tn. discriminate. }
  exists tags, raw. split; [exact Htags|]. split; [|split; [reflexivity|split; [|split]]].
  - subst raw. apply or_else_truthy in Hraw as [(s & Hs & _ & ->) | [-> Hb]].
    + left. exact Hs.
    + right. apply truthy_true in Hb.
      apply or_else_truthy in Hb as [(s & Hs & _ & ->) | [_ Hb]]; [exact Hs|congruence].
  - subst name. apply or_else_truthy in Tn as [(s & Hs & _ & ->) | [-> Hb]].
    + left. exact Hs.
    + right. apply truthy_true in Hb.
      apply or_else_truthy in Hb as [(s & Hs & _ & ->) | [_ Hb]]; [exact Hs|congruence].
  - apply truthy_true, Tn.
  - split; [rewrite osm_normalize_same in *; apply (normalize_canonical raw Ts)|].
    split; [|split; reflexivity].
    destruct (truthy (join " " _)) eqn:Tj; [apply truthy_true, Tj|].
    destruct (fixed4 lat); discriminate.
Qed.

End Adapters.

(** X6.  A place [_element_to_place] builds has a name and the normalised, non
    empty http(s) website of its [website] or [contact:website] tag, an
    address, and the identity key ["osm:<type>:<id>"]; an element without
    tags, without a name, without a website tag, or a way without a centre
    gives no place. *)
Theorem element_to_place_requires (fixed4 : string -> string) (elem : OsmPlaces.Element)
    (tag_key tag_value : string) :
  (forall p, OsmPlaces._element_to_place fixed4 elem tag_key tag_value = Some p ->
     OsmPlaces.name p <> "" /\
     canonical_website (OsmPlaces.website p) /\
     OsmPlaces.formatted_address p <> "" /\
     OsmPlaces.place_id p
     = "osm:" +:+ default "node" (OsmPlaces.e_type elem) +:+ ":"
       +:+ default "0" (OsmPlaces.e_id elem) /\
     exists tags site,
       OsmPlaces.e_tags elem = Some tags /\
       (tags !! "website" = Some site \/ tags !! "contact:website" = Some site) /\
       OsmPlaces.website p = OsmPlaces._normalize_website site) /\
  (OsmPlaces.e_tags elem = None ->
   OsmPlaces._element_to_place fixed4 elem tag_key tag_value = None) /\
  (forall tags, OsmPlaces.e_tags elem = Some tags ->
     tags !! "name" = None -> tags !! "brand" = None ->
     OsmPlaces._element_to_place fixed4 elem tag_key tag_value = None) /\
  (forall tags, OsmPlaces.e_tags elem = Some tags ->
     tags !! "website" = None -> tags !! "contact:website" = None ->
     OsmPlaces._element_to_place fixed4 elem tag_key tag_value = None) /\
  (OsmPlaces.e_type elem <> Some "node" -> OsmPlaces.e_center elem = None ->
   OsmPlaces._element_to_place fixed4 elem tag_key tag_value = None).
Proof.
  split; [|split; [|split; [|split]]].
  - intros p H.
    destruct (element_to_place_some _ _ _ _ _ H)
      as (tags & site & Ht & Hw & Hs & _ & Hn & Hc & Ha & Hp & _).
    split; [exact Hn|]. split; [exact Hc|]. split; [exact Ha|]. split; [exact Hp|].
    exists tags, site. auto.
  - intros Ht. destruct (OsmPlaces._element_to_place _ _ _ _) as [p|] eqn:H; [|reflexivity].
    destruct (element_to_place_some _ _ _ _ _ H) as (tags & _ & Ht' & _). congruence.
  - intros tags Ht Hn Hb.
    destruct (OsmPlaces._element_to_place _ _ _ _) as [p|] eqn:H; [|reflexivity].
    destruct (element_to_place_some _ _ _ _ _ H) as (tags' & _ & Ht' & _ & _ & Hname & _).
    assert (tags' = tags) as -> by congruence. destruct Hname; congruence.
  - intros tags Ht Hw Hc.
    destruct (OsmPlaces._element_to_place _ _ _ _) as [p|] eqn:H; [|reflexivity].
    destruct (element_to_place_some _ _ _ _ _ H) as (tags' & site & Ht' & Hsite & _).
    assert (tags' = tags) as -> by congruence. destruct Hsite; congruence.
  - intros Hty Hce. unfold OsmPlaces._element_to_place.
    destruct (negb _); [reflexivity|].
    rewrite bool_decide_eq_false_2 by exact Hty. rewrite Hce. reflexivity.
Qed.

Lemma element_to_place_requires_witness :
  OsmPlaces._element_to_place (fun x => x)
    {| OsmPlaces.e_type := Some "way"; OsmPlaces.e_id := Some "77";
       OsmPlaces.e_lat := None; OsmPlaces.e_lon := None;
       OsmPlaces.e_center := Some (Some "49.41", Some "8.69");
       OsmPlaces.e_tags :=
         Some (list_to_map [("brand", "Praxis Dr. A"); ("addr:city", "Heidelberg");
                            ("contact:website", "Praxis-A.de/?utm=osm")]) |}
    "amenity" "dentist"
  = Some (osm_way_77) /\
  canonical_website (OsmPlaces.website osm_way_77).
Proof.
  assert (E : OsmPlaces._element_to_place (fun x => x)
    {| OsmPlaces.e_type := Some "way"; OsmPlaces.e_id := Some "77";
       OsmPlaces.e_lat := None; OsmPlaces.e_lon := None;
       OsmPlaces.e_center := Some (Some "49.41", Some "8.69");
       OsmPlaces.e_tags :=
         Some (list_to_map [("brand", "Praxis Dr. A"); ("addr:city", "Heidelberg");
                            ("contact:website", "Praxis-A.de/?utm=osm")]) |}
    "amenity" "dentist" = Some osm_way_77) by (vm_compute; reflexivity).
  split; [exact E|].
  exact (proj1 (proj2 (proj1 (element_to_place_requires _ _ _ _) _ E))).
Defined.

(** X7.  A place [_parse_place_details] builds has an identity key, an address
    and the normalised, non-empty http(s) website of the result; a result
    without identity key, location, address or website gives no place. *)
Theorem parse_place_details_requires (details : Places.Details) :
  (forall p, Places._parse_place_details details = Some p ->
     Places.place_id p <> "" /\
     Places.formatted_address p <> "" /\
     canonical_website (Places.website p) /\
     Places.d_place_id details = Some (Places.place_id p) /\
     exists site,
       Places.d_website details = Some site /\
       Places.website p = Places._normalize_website site) /\
  (Places.d_place_id details = None \/ Places.d_location details = None
   \/ Places.d_formatted_address details = None \/ Places.d_website details = None ->
   Places._parse_place_details details = None).
Proof.
  split.
  - intros p H.
    destruct (parse_place_details_some _ _ H)
      as (site & lat & lng & Hs & _ & Hp & _ & Hw & _ & _ & Hpid & Ha & Hc).
    split; [exact Hpid|]. split; [exact Ha|]. split; [exact Hc|]. split; [exact Hp|].
    exists site. auto.
  - intros Hm. destruct (Places._parse_place_details details) as [p|] eqn:H; [|reflexivity].
    destruct (parse_place_details_some _ _ H)
      as (site & lat & lng & Hs & Hl & Hp & Ha & _).
    destruct Hm as [Hm | [Hm | [Hm | Hm]]]; congruence.
Qed.

Lemma parse_place_details_requires_witness :
  Places._parse_place_details details_a = Some (google_place_a) /\
  canonical_website (Places.website google_place_a).
Proof.
  assert (E : Places._parse_place_details details_a = Some google_place_a)
    by (vm_compute; reflexivity).
  split; [exact E|].
  exact (proj1 (proj2 (proj2 (proj1 (parse_place_details_requires _) _ E)))).
Defined.

Section OsmCollect.

Import OsmPlaces.

Implicit Types (places all : list OSMPlace) (seen : gset string).

Lemma merge_places_spec places seen all :
  keys_of seen all ->
  keys_of (merge_places places seen all).1 (merge_places places seen all).2 /\
  (forall p, p ∈ (merge_places places seen all).2 -> p ∈ all \/ p ∈ places) /\
  (forall p, p ∈ all \/ p ∈ places ->
             place_id p ∈ place_id <$> (merge_places places seen all).2).
Proof.
  revert seen all. induction places as [|q places IH]; intros seen all K.
  - cbn. split; [exact K|]. split; [tauto|].
    intros p [H | H]; [|inversion H]. apply list_elem_of_fmap. eauto.
  - cbn [merge_places]. case_bool_decide as Hq.
    + destruct (IH seen all K) as (K' & Hfrom & Hall). split; [exact K'|]. split.
      * intros p Hp. destruct (Hfrom p Hp); [tauto|]. right. apply elem_of_cons. tauto.
      * intros p [Hp | [-> | Hp]%elem_of_cons]; [apply Hall; tauto| |apply Hall; tauto].
        destruct K as [_ K]. apply K in Hq.
        apply list_elem_of_fmap in Hq as (q' & Hid & Hq'). rewrite Hid. apply Hall. tauto.
    + assert (K1 : keys_of ({[place_id q]} ∪ seen) (all ++ [q])).
      { destruct K as [N K]. split.
        - rewrite fmap_app. apply NoDup_app. split; [exact N|]. split.
          + intros x Hx Hx'. cbn in Hx'. apply list_elem_of_singleton in Hx' as ->.
            apply Hq, K, Hx.
          + cbn. apply NoDup_singleton.
        - intros x. rewrite fmap_app, elem_of_app, elem_of_union, K. cbn.
          rewrite elem_of_singleton, list_elem_of_singleton. tauto. }
      destruct (IH _ _ K1) as (K' & Hfrom & Hall). split; [exact K'|]. split.
      * intros p Hp. destruct (Hfrom p Hp) as [[H | ->%list_elem_of_singleton]%elem_of_app | H].
        -- tauto.
        -- right. apply elem_of_cons. tauto.
        -- right. apply elem_of_cons. tauto.
      * intros p [Hp | [-> | Hp]%elem_of_cons]; apply Hall.
        -- left. apply elem_of_app. tauto.
        -- left. apply elem_of_app. right. apply list_elem_of_singleton. reflexivity.
        -- tauto.
Qed.

Lemma merge_tag_sets_spec sv box tag_sets seen all :
  keys_of seen all ->
  NoDup (place_id <$> merge_tag_sets sv box tag_sets seen all) /\
  (forall p, p ∈ merge_tag_sets sv box tag_sets seen all ->
     p ∈ all \/ exists key value,
       (key, value) ∈ tag_sets /\ p ∈ fetch_places_overpass sv box key value) /\
  (forall p, (p ∈ all \/ exists key value,
                (key, value) ∈ tag_sets /\ p ∈ fetch_places_overpass sv box key value) ->
     place_id p ∈ place_id <$> merge_tag_sets sv box tag_sets seen all).
Proof.
  revert seen all. induction tag_sets as [|[key value] tag_sets IH]; intros seen all K.
  - cbn. split; [exact (proj1 K)|]. split; [tauto|].
    intros p [H | (k & v & H & _)]; [|inversion H]. apply list_elem_of_fmap. eauto.
  - cbn [merge_tag_sets].
    destruct (merge_places_spec (fetch_places_overpass sv box key value) seen all K)
      as (K' & Hfrom & Hall).
    destruct (merge_places (fetch_places_overpass sv box key value) seen all)
      as [seen' all']. cbn [fst snd] in *.
    destruct (IH seen' all' K') as (N & Hfrom' & Hall'). split; [exact N|]. split.
    + intros p Hp. destruct (Hfrom' p Hp) as [H | (k & v & Hkv & H)].
      * destruct (Hfrom p H) as [H' | H']; [tauto|].
        right. exists key, value. split; [apply elem_of_cons; tauto|exact H'].
      * right. exists k, v. split; [apply elem_of_cons; tauto|exact H].
    + intros p Hp.
      assert (Hid : place_id p ∈ place_id <$> all'
                    \/ exists k v, (k, v) ∈ tag_sets /\ p ∈ fetch_places_overpass sv box k v).
      { destruct Hp as [H | (k & v & [[= -> ->] | Hkv]%elem_of_cons & H)].
        - left. apply Hall. tauto.
        - left. apply Hall. tauto.
        - right. eauto. }
      destruct Hid as [Hid | Hid]; [|apply Hall'; tauto].
      apply list_elem_of_fmap in Hid as (q & -> & Hq). apply Hall'. tauto.
Qed.

Lemma tag_sets_of_unknown table niche :
  niche ∉ table.*1 -> tag_sets_of table niche = [].
Proof.
  induction table as [|[n l] table IH]; [reflexivity|].
  cbn [tag_sets_of]. rewrite fmap_cons. cbn [fst]. intros H.
  destruct (String.eqb_spec n niche) as [-> | Hn]; [set_solver|].
  apply IH. set_solver.
Qed.

Lemma fetch_places_overpass_places sv box key value p :
  p ∈ fetch_places_overpass sv box key value ->
  exists elems elem,
    overpass sv box key value = Ok elems /\ Some elem ∈ elems /\
    _element_to_place (fixed4 sv) elem key value = Some p.
Proof.
  unfold fetch_places_overpass.
  destruct (overpass sv box key value) as [elems|]; [|intros H; inversion H].
  intros ([elem|] & Hin & H)%list_elem_of_omap; [|discriminate].
  exists elems, elem. auto.
Qed.

Lemma collect_osm_unfold sv cache niche city country s :
  (collect_osm_places_for_niche_city sv cache niche city country s).2 =
  match (get_city_bbox sv cache city country s).2 with
  | None => []
  | Some box => merge_tag_sets sv box (tag_sets_of NICHE_TO_OVERPASS_TAGS niche) ∅ []
  end.
Proof.
  unfold collect_osm_places_for_niche_city.
  destruct (get_city_bbox sv cache city country s) as [[c reqs] [box|]]; cbn [snd];
    [|reflexivity].
  destruct (tag_sets_of NICHE_TO_OVERPASS_TAGS niche); reflexivity.
Qed.

(** Every niche of the default list has tag queries. *)
Lemma default_niches_listed niche :
  niche ∈ Main.NICHES -> tag_sets_of NICHE_TO_OVERPASS_TAGS niche <> [].
Proof.
  unfold Main.NICHES. intros H.
  repeat (apply elem_of_cons in H as [-> | H]; [vm_compute; discriminate|]).
  inversion H.
Qed.

End OsmCollect.

(** X8.  The places [collect_osm_places_for_niche_city] returns carry pairwise
    different identity keys; each one was built by [_element_to_place] from
    an element of the answer to one of the tag queries of the niche, so it
    has a name and a canonical website; no key that a query answered with is
    missing; and there is no place at all for a niche the table does not
    list or a city without a bounding box.  Every niche of the default list
    of main.py is listed. *)
Theorem osm_places_of_a_pair (sv : OsmPlaces.Services)
    (cache : gmap (string * string) OsmPlaces.bbox)
    (niche city country sleep_seconds : string) :
  let places :=
    snd (OsmPlaces.collect_osm_places_for_niche_city sv cache niche city country
           sleep_seconds) in
  let tag_sets := OsmPlaces.tag_sets_of OsmPlaces.NICHE_TO_OVERPASS_TAGS niche in
  NoDup (OsmPlaces.place_id <$> places) /\
  (forall p, p ∈ places ->
     OsmPlaces.name p <> "" /\ canonical_website (OsmPlaces.website p) /\
     exists box key value elems elem,
       snd (OsmPlaces.get_city_bbox sv cache city country sleep_seconds) = Some box /\
       (key, value) ∈ tag_sets /\
       OsmPlaces.overpass sv box key value = Ok elems /\ Some elem ∈ elems /\
       OsmPlaces._element_to_place (OsmPlaces.fixed4 sv) elem key value = Some p) /\
  (forall box key value p,
     snd (OsmPlaces.get_city_bbox sv cache city country sleep_seconds) = Some box ->
     (key, value) ∈ tag_sets ->
     p ∈ OsmPlaces.fetch_places_overpass sv box key value ->
     OsmPlaces.place_id p ∈ OsmPlaces.place_id <$> places) /\
  (niche ∉ OsmPlaces.NICHE_TO_OVERPASS_TAGS.*1 -> places = []) /\
  (niche ∈ Main.NICHES -> tag_sets <> []) /\
  (snd (OsmPlaces.get_city_bbox sv cache city country sleep_seconds) = None ->
   places = []).
Proof.
  intros places tag_sets. subst places tag_sets. rewrite collect_osm_unfold.
  destruct (OsmPlaces.get_city_bbox sv cache city country sleep_seconds).2 as [box|].
  - assert (K : keys_of ∅ []) by (split; [constructor|set_solver]).
    destruct (merge_tag_sets_spec sv box
                (OsmPlaces.tag_sets_of OsmPlaces.NICHE_TO_OVERPASS_TAGS niche) ∅ [] K)
      as (N & Hfrom & Hall).
    split; [exact N|]. split; [|split; [|split; [|split; [apply default_niches_listed|]]]].
    + intros p Hp. destruct (Hfrom p Hp) as [H | (key & value & Hkv & H)]; [inversion H|].
      destruct (fetch_places_overpass_places _ _ _ _ _ H) as (elems & elem & Ho & He & Hb).
      destruct (element_to_place_some _ _ _ _ _ Hb)
        as (_ & _ & _ & _ & _ & _ & Hn & Hc & _).
      split; [exact Hn|]. split; [exact Hc|].
      exists box, key, value, elems, elem. auto.
    + intros box' key value p [= <-] Hkv Hp. apply Hall. right. eauto.
    + intros Hn. rewrite (tag_sets_of_unknown _ _ Hn). reflexivity.
    + discriminate.
  - split; [constructor|]. split; [intros p H; inversion H|].
    split; [discriminate|]. split; [reflexivity|].
    split; [apply default_niches_listed|reflexivity].
Qed.

Lemma osm_places_of_a_pair_witness :
  snd (OsmPlaces.collect_osm_places_for_niche_city osm_services ∅
         "Physical therapists" "Heidelberg" "Germany" "0.25") = [physio_place] /\
  OsmPlaces.name physio_place <> "" /\
  canonical_website (OsmPlaces.website physio_place).
Proof.
  assert (E : snd (OsmPlaces.collect_osm_places_for_niche_city osm_services ∅
                     "Physical therapists" "Heidelberg" "Germany" "0.25")
              = [physio_place])
    by (vm_compute; reflexivity).
  split; [exact E|].
  pose proof (osm_places_of_a_pair osm_services ∅ "Physical therapists" "Heidelberg"
                "Germany" "0.25") as H.
  cbv zeta in H. destruct H as (_ & H & _).
  destruct (H physio_place) as (Hn & Hc & _).
  { rewrite E. apply list_elem_of_here. }
  split; assumption.
Defined.

Section BoundingBox.

Import OsmPlaces.

Lemma get_city_bbox_cached (sv : Services) (cache : gmap (string * string) bbox)
    city country s box :
  cache !! (strip city, strip country) = Some box ->
  get_city_bbox sv cache city country s = (cache, [], Some box).
Proof. intros H. unfold get_city_bbox. rewrite H. reflexivity. Qed.

(** A lookup that misses the cache, by the answer and the pause. *)
Lemma get_city_bbox_missed (sv : Services) (cache : gmap (string * string) bbox)
    city country s :
  cache !! (strip city, strip country) = None ->
  get_city_bbox sv cache city country s =
  match nominatim sv (city +:+ ", " +:+ country), sleep sv s with
  | Ok (hit :: _), Ok _ =>
      match four_entry_box hit with
      | Some box =>
          (<[(strip city, strip country) := box]> cache,
           [city +:+ ", " +:+ country], Some box)
      | None => (cache, [city +:+ ", " +:+ country], centre_box sv hit)
      end
  | _, _ => (cache, [city +:+ ", " +:+ country], None)
  end.
Proof.
  intros C. unfold get_city_bbox. rewrite C.
  destruct (nominatim sv (city +:+ ", " +:+ country)) as [[|hit rest]|e];
    [destruct (sleep sv s); reflexivity| |reflexivity].
  destruct (sleep sv s) as [[]|e]; [|reflexivity].
  unfold four_entry_box, centre_box.
  destruct (h_boundingbox hit) as [[|south [|north [|west [|east [|x l]]]]]|];
    try reflexivity.
  all: destruct (h_lat hit) as [lat|], (h_lon hit) as [lon|]; try reflexivity.
  all: destruct (truthy lat && truthy lon); reflexivity.
Qed.

End BoundingBox.

(** X9.  [get_city_bbox] sends at most one search and never drops a cached
    box.  A box that is cached under the stripped names is returned without
    a search, the cache left as it is; a box that is in the cache afterwards
    is the one returned, and it is served from then on for any spelling of
    the city and country that differs in surrounding white space only.  On a
    miss the search is sent, and the cache changes in one case only: the
    request and the pause after it succeed and the first entry of the answer
    has a bounding box of four entries, which is then cached and returned.
    After a failed request, a pause the clock refuses or an empty answer the
    cache is as before and nothing is returned; after an answer whose first
    entry has no such bounding box the cache is as before and the box
    around the centre, if the entry has one, is returned. *)
Theorem bbox_lookup_is_cached (sv : OsmPlaces.Services)
    (cache cache' : gmap (string * string) OsmPlaces.bbox)
    (city country sleep_seconds : string)
    (searches : list string) (r : option OsmPlaces.bbox) :
  OsmPlaces.get_city_bbox sv cache city country sleep_seconds = (cache', searches, r) ->
  let key := (strip city, strip country) in
  let q := city +:+ ", " +:+ country in
  cache ⊆ cache' /\
  length searches <= 1 /\
  (forall box, cache !! key = Some box ->
     cache' = cache /\ searches = [] /\ r = Some box) /\
  (forall box, cache' !! key = Some box ->
     r = Some box /\
     forall city' country' sleep_seconds',
       strip city' = strip city -> strip country' = strip country ->
       OsmPlaces.get_city_bbox sv cache' city' country' sleep_seconds'
       = (cache', [], Some box)) /\
  (cache !! key = None ->
   searches = [q] /\
   (forall hit rest box,
      OsmPlaces.nominatim sv q = Ok (hit :: rest) ->
      OsmPlaces.sleep sv sleep_seconds = Ok tt ->
      four_entry_box hit = Some box ->
      cache' = <[key := box]> cache /\ r = Some box) /\
   (forall hit rest,
      OsmPlaces.nominatim sv q = Ok (hit :: rest) ->
      OsmPlaces.sleep sv sleep_seconds = Ok tt ->
      four_entry_box hit = None ->
      cache' = cache /\ r = centre_box sv hit) /\
   ((exists e, OsmPlaces.nominatim sv q = Raise e)
    \/ OsmPlaces.nominatim sv q = Ok []
    \/ (exists e, OsmPlaces.sleep sv sleep_seconds = Raise e) ->
    cache' = cache /\ r = None) /\
   (cache' <> cache ->
    exists hit rest box,
      OsmPlaces.nominatim sv q = Ok (hit :: rest) /\
      OsmPlaces.sleep sv sleep_seconds = Ok tt /\
      four_entry_box hit = Some box /\
      cache' = <[key := box]> cache)).
Proof.
  intros H key q.
  destruct (cache !! key) as [box|] eqn:C.
  - rewrite (get_city_bbox_cached sv cache city country sleep_seconds box C) in H.
    injection H as <- <- <-.
    split; [reflexivity|]. split; [cbn; lia|].
    split; [intros box' [= <-]; auto|].
    split; [|intros [=]].
    intros box' C'. split; [congruence|].
    intros city' country' s' Hc Hk. apply get_city_bbox_cached.
    rewrite Hc, Hk. fold key. congruence.
  - rewrite (get_city_bbox_missed sv cache city country sleep_seconds C) in H.
    fold key in H. fold q in H.
    destruct (OsmPlaces.nominatim sv q) as [[|hit rest]|e] eqn:N.
    + assert (H' : (cache, [q], @None OsmPlaces.bbox) = (cache', searches, r))
        by (destruct (OsmPlaces.sleep sv sleep_seconds); exact H).
      clear H. injection H' as <- <- <-.
      split; [reflexivity|]. split; [cbn; lia|]. split; [intros box [=]|].
      split; [intros box C'; congruence|]. intros _.
      split; [reflexivity|]. split; [intros ? ? ? [=]|]. split; [intros ? ? [=]|].
      split; [auto|]. intros Hne. contradiction Hne. reflexivity.
    + destruct (OsmPlaces.sleep sv sleep_seconds) as [[]|e] eqn:S.
      * destruct (four_entry_box hit) as [box|] eqn:B; injection H as <- <- <-.
        -- split; [apply insert_subseteq, C|]. split; [cbn; lia|].
           split; [intros box' [=]|]. split.
           ++ intros box' C'. rewrite lookup_insert_eq in C'. injection C' as <-.
              split; [reflexivity|].
              intros city' country' s' Hc Hk. apply get_city_bbox_cached.
              rewrite Hc, Hk. apply lookup_insert_eq.
           ++ intros _. split; [reflexivity|].
              split; [intros hit' rest' box' [= <- <-] _ B'; split; congruence|].
              split; [intros hit' rest' [= <- <-] _ B'; congruence|].
              split; [intros [[e He] | [He | [e He]]]; discriminate He|].
              intros _. exists hit, rest, box. auto.
        -- split; [reflexivity|]. split; [cbn; lia|]. split; [intros box [=]|].
           split; [intros box C'; congruence|]. intros _.
           split; [reflexivity|].
           split; [intros hit' rest' box' [= <- <-] _ B'; congruence|].
           split; [intros hit' rest' [= <- <-] _ _; auto|].
           split; [intros [[e He] | [He | [e He]]]; discriminate He|].
           intros Hne. contradiction Hne. reflexivity.
      * injection H as <- <- <-.
        split; [reflexivity|]. split; [cbn; lia|]. split; [intros box [=]|].
        split; [intros box C'; congruence|]. intros _.
        split; [reflexivity|]. split; [intros ? ? ? _ [=]|]. split; [intros ? ? _ [=]|].
        split; [auto|]. intros Hne. contradiction Hne. reflexivity.
    + injection H as <- <- <-.
      split; [reflexivity|]. split; [cbn; lia|]. split; [intros box [=]|].
      split; [intros box C'; congruence|]. intros _.
      split; [reflexivity|]. split; [intros ? ? ? [=]|]. split; [intros ? ? [=]|].
      split; [auto|]. intros Hne. contradiction Hne. reflexivity.
Qed.

Lemma bbox_lookup_is_cached_witness :
  OsmPlaces.get_city_bbox osm_services ∅ "Heidelberg" "Germany" "0.25"
  = (<[("Heidelberg", "Germany") := heidelberg_box]> ∅, ["Heidelberg, Germany"],
     Some heidelberg_box) /\
  OsmPlaces.get_city_bbox osm_services (<[("Heidelberg", "Germany") := heidelberg_box]> ∅)
    " Heidelberg" "Germany " "0.25"
  = (<[("Heidelberg", "Germany") := heidelberg_box]> ∅, [], Some heidelberg_box) /\
  OsmPlaces.get_city_bbox osm_services ∅ "Ulm" "Germany" "0.25"
  = (∅, ["Ulm, Germany"], Some ("48.40-0.05", "9.99-0.05", "48.40+0.05", "9.99+0.05")) /\
  OsmPlaces.get_city_bbox osm_services ∅ "Heidelberg" "Germany" "-1"
  = (∅, ["Heidelberg, Germany"], None).
Proof.
  assert (E : OsmPlaces.get_city_bbox osm_services ∅ "Heidelberg" "Germany" "0.25"
              = (<[("Heidelberg", "Germany") := heidelberg_box]> ∅, ["Heidelberg, Germany"],
                 Some heidelberg_box)).
  { unfold OsmPlaces.get_city_bbox. rewrite lookup_empty. reflexivity. }
  destruct (bbox_lookup_is_cached _ _ _ _ _ _ _ _ E) as (_ & _ & _ & H & _).
  destruct (H heidelberg_box) as [_ H'].
  { change (strip "Heidelberg", strip "Germany") with ("Heidelberg", "Germany").
    apply lookup_insert_eq. }
  split; [exact E|].
  split; [apply H'; reflexivity|].
  split; unfold OsmPlaces.get_city_bbox; rewrite lookup_empty; reflexivity.
Defined.

Section GoogleCollect.

Import Places.

Implicit Types (c : Client) (st : collected).

Lemma visit_spec c pid st :
  domains_of c st ->
  domains_of c (visit c pid st) /\
  seen_place_ids st ⊆ seen_place_ids (visit c pid st) /\
  exists new, valid_places (visit c pid st) = valid_places st ++ new /\ length new <= 1.
Proof.
  intros (N & D & F). unfold visit.
  destruct (fetch_place_details c (calls st) pid) as [details|] eqn:E.
  2: { split; [exact (conj N (conj D F))|]. split; [reflexivity|].
       exists []. rewrite app_nil_r. split; [reflexivity|cbn; lia]. }
  case_bool_decide as Hd.
  { split; [exact (conj N (conj D F))|]. split; [reflexivity|].
    exists []. rewrite app_nil_r. split; [reflexivity|cbn; lia]. }
  unfold domains_of. cbn [seen_place_ids seen_domains valid_places].
  split; [split; [|split]|split].
  - rewrite fmap_app. apply NoDup_app. split; [exact N|]. split.
    + intros x Hx Hx'. cbn in Hx'. apply list_elem_of_singleton in Hx' as ->.
      apply Hd, D, Hx.
    + cbn. apply NoDup_singleton.
  - intros x. rewrite fmap_app, elem_of_app, elem_of_union, D. cbn.
    rewrite elem_of_singleton, list_elem_of_singleton. tauto.
  - intros p [Hp | ->%list_elem_of_singleton]%elem_of_app.
    + destruct (F p Hp) as (i & q & Hq & Hf). exists i, q. split; [set_solver|exact Hf].
    + exists (calls st), pid. split; [set_solver|exact E].
  - set_solver.
  - exists [details]. split; [reflexivity|cbn; lia].
Qed.

Lemma text_loop_spec c place_ids st :
  domains_of c st ->
  domains_of c (text_loop c place_ids st) /\
  seen_place_ids st ⊆ seen_place_ids (text_loop c place_ids st) /\
  exists new, valid_places (text_loop c place_ids st) = valid_places st ++ new
              /\ length new <= length place_ids.
Proof.
  revert st. induction place_ids as [|pid rest IH]; intros st K.
  - cbn. split; [exact K|]. split; [reflexivity|].
    exists []. rewrite app_nil_r. split; [reflexivity|cbn; lia].
  - cbn [text_loop]. case_bool_decide.
    + destruct (IH st K) as (K' & S & new & E & L). split; [exact K'|]. split; [exact S|].
      exists new. split; [exact E|cbn; lia].
    + destruct (visit_spec c pid st K) as (K1 & S1 & new1 & E1 & L1).
      destruct (IH _ K1) as (K' & S & new & E & L). split; [exact K'|].
      split; [etrans; eassumption|].
      exists (new1 ++ new). rewrite E, E1, app_assoc. split; [reflexivity|].
      rewrite length_app. cbn. lia.
Qed.

Lemma nearby_loop_spec c nearby_raw st :
  domains_of c st ->
  domains_of c (nearby_loop c nearby_raw st) /\
  exists new, valid_places (nearby_loop c nearby_raw st) = valid_places st ++ new
              /\ length new <= length nearby_raw.
Proof.
  revert st. induction nearby_raw as [|r rest IH]; intros st K.
  - cbn. split; [exact K|]. exists []. rewrite app_nil_r. split; [reflexivity|cbn; lia].
  - cbn [nearby_loop]. destruct (required r) as [pid|].
    + case_bool_decide.
      * destruct (IH st K) as (K' & new & E & L). split; [exact K'|].
        exists new. split; [exact E|cbn; lia].
      * destruct (visit_spec c pid st K) as (K1 & _ & new1 & E1 & L1).
        destruct (IH _ K1) as (K' & new & E & L). split; [exact K'|].
        exists (new1 ++ new). rewrite E, E1, app_assoc. split; [reflexivity|].
        rewrite length_app. cbn. lia.
    + destruct (IH st K) as (K' & new & E & L). split; [exact K'|].
      exists new. split; [exact E|cbn; lia].
Qed.

Lemma length_omap_le {A B} (f : A -> option B) (l : list A) :
  length (omap f l) <= length l.
Proof.
  induction l as [|a l IH]; [reflexivity|]. cbn. destruct (f a); cbn; lia.
Qed.

(** The first loop keeps no more places than the search gave results. *)
Lemma after_text_search_spec c niche city :
  domains_of c (after_text_search c niche city) /\
  length (valid_places (after_text_search c niche city))
  <= length (text_search c (text_query niche city)).
Proof.
  unfold after_text_search.
  set (st0 := {| seen_place_ids := ∅; seen_domains := ∅; valid_places := []; calls := 0 |}).
  assert (K0 : domains_of c st0).
  { split; [constructor|]. split; [set_solver|]. intros p H. inversion H. }
  destruct (text_loop_spec c (omap required (text_search c (text_query niche city))) st0 K0)
    as (K & _ & new & E & L).
  split; [exact K|]. rewrite E. cbn [valid_places st0 app].
  etrans; [exact L|apply length_omap_le].
Qed.

(** Whether the fallback runs is decided by the number of raw results. *)
Lemma collect_places_unfold c niche city fallback m :
  collect_places_for_niche_city c niche city fallback m =
  valid_places
    (if fallback && (length (text_search c (text_query niche city)) <? m)
     then match geocode c city with
          | Some coords =>
              nearby_loop c (nearby_search c coords niche) (after_text_search c niche city)
          | None => after_text_search c niche city
          end
     else after_text_search c niche city).
Proof.
  unfold collect_places_for_niche_city.
  fold (text_query niche city). fold (after_text_search c niche city).
  destruct (after_text_search_spec c niche city) as [_ L].
  destruct fallback; [|reflexivity]. cbn [andb].
  destruct (length (text_search c (text_query niche city)) <? m) eqn:R.
  - apply Nat.ltb_lt in R.
    rewrite (proj2 (Nat.ltb_lt _ _)) by lia. reflexivity.
  - rewrite andb_false_r. reflexivity.
Qed.

Lemma visit_ext c c' pid st :
  (forall i q, place c' i q = place c i q) -> visit c' pid st = visit c pid st.
Proof. intros H. unfold visit, fetch_place_details. rewrite H. reflexivity. Qed.

Lemma text_loop_ext c c' place_ids st :
  (forall i q, place c' i q = place c i q) ->
  text_loop c' place_ids st = text_loop c place_ids st.
Proof.
  intros H. revert st. induction place_ids as [|pid rest IH]; intros st; [reflexivity|].
  cbn [text_loop]. rewrite (visit_ext c c' pid st H), !IH. reflexivity.
Qed.

Lemma fetched_place c i pid p :
  fetch_place_details c i pid = Some p ->
  exists details, place c i pid = Ok (Some details) /\ _parse_place_details details = Some p.
Proof.
  unfold fetch_place_details. destruct (place c i pid) as [[details|]|]; try discriminate.
  intros H. exists details. auto.
Qed.

End GoogleCollect.

(** X10.  The places [collect_places_for_niche_city] returns have pairwise
    different dedup domains; each one is what [_parse_place_details] made of
    a Place Details answer, so it has an identity key, an address and a
    canonical website.  The places of the text search come first, and the
    fallback only adds to them.  Geocoding and the nearby search are not
    consulted when the fallback is switched off or the text search gave
    [min_text_results] raw results or more. *)
Theorem google_places_of_a_pair (c : Places.Client) (niche city : string)
    (use_nearby_fallback : bool) (min_text_results : nat) :
  let places :=
    Places.collect_places_for_niche_city c niche city use_nearby_fallback min_text_results in
  NoDup (google_domain <$> places) /\
  (forall p, p ∈ places ->
     Places.place_id p <> "" /\ Places.formatted_address p <> "" /\
     canonical_website (Places.website p) /\
     exists i pid details,
       Places.place c i pid = Ok (Some details) /\
       Places._parse_place_details details = Some p) /\
  Places.valid_places (after_text_search c niche city) `prefix_of` places /\
  (use_nearby_fallback = false
   \/ min_text_results <= length (Places.text_search c (text_query niche city)) ->
   places = Places.valid_places (after_text_search c niche city) /\
   forall c',
     (forall q, Places.text_search c' q = Places.text_search c q) ->
     (forall i pid, Places.place c' i pid = Places.place c i pid) ->
     Places.collect_places_for_niche_city c' niche city use_nearby_fallback min_text_results
     = places).
Proof.
  intros places. subst places.
  destruct (after_text_search_spec c niche city) as [K0 _].
  assert (K : exists st,
             Places.collect_places_for_niche_city c niche city use_nearby_fallback
               min_text_results = Places.valid_places st /\
             domains_of c st /\
             Places.valid_places (after_text_search c niche city)
               `prefix_of` Places.valid_places st).
  { rewrite collect_places_unfold.
    destruct (use_nearby_fallback
              && (length (Places.text_search c (text_query niche city)) <? min_text_results));
      [|exists (after_text_search c niche city); split; [reflexivity|split; [exact K0|reflexivity]]].
    destruct (Places.geocode c city) as [coords|];
      [|exists (after_text_search c niche city); split; [reflexivity|split; [exact K0|reflexivity]]].
    destruct (nearby_loop_spec c (Places.nearby_search c coords niche) _ K0)
      as (K1 & new & E & _).
    eexists. split; [reflexivity|]. split; [exact K1|]. exists new. exact E. }
  destruct K as (st & Hst & (N & _ & F) & P).
  split; [rewrite Hst; exact N|]. split; [|split; [rewrite Hst; exact P|]].
  - rewrite Hst. intros p Hp. destruct (F p Hp) as (i & pid & _ & Hf).
    destruct (fetched_place c i pid p Hf) as (details & Hd & Hparse).
    destruct (parse_place_details_some _ _ Hparse)
      as (site & lat & lng & _ & _ & _ & _ & _ & _ & _ & Hpid & Ha & Hc).
    split; [exact Hpid|]. split; [exact Ha|]. split; [exact Hc|].
    exists i, pid, details. auto.
  - intros Hskip.
    assert (Hoff : forall c',
               (forall q, Places.text_search c' q = Places.text_search c q) ->
               (use_nearby_fallback
                && (length (Places.text_search c' (text_query niche city))
                    <? min_text_results)) = false).
    { intros c' Ht. rewrite Ht. destruct Hskip as [-> | Hm]; [reflexivity|].
      rewrite (proj2 (Nat.ltb_ge _ _)) by exact Hm. apply andb_false_r. }
    assert (E : Places.collect_places_for_niche_city c niche city use_nearby_fallback
                  min_text_results
                = Places.valid_places (after_text_search c niche city)).
    { rewrite collect_places_unfold, (Hoff c) by reflexivity. reflexivity. }
    split; [exact E|].
    intros c' Ht Hp. rewrite E, collect_places_unfold, (Hoff c' Ht).
    unfold after_text_search. rewrite Ht. rewrite (text_loop_ext c c' _ _ Hp). reflexivity.
Qed.

Lemma google_places_of_a_pair_witness :
  Places.collect_places_for_niche_city google_client "Dentists" "Heidelberg" true 5
  = [google_place_a; google_place_c] /\
  NoDup (google_domain <$> [google_place_a; google_place_c]) /\
  Places.collect_places_for_niche_city google_client "Dentists" "Heidelberg" false 5
  = [google_place_a].
Proof.
  assert (E : Places.collect_places_for_niche_city google_client "Dentists" "Heidelberg"
                true 5 = [google_place_a; google_place_c]) by (vm_compute; reflexivity).
  split; [exact E|]. split.
  - rewrite <- E. exact (proj1 (google_places_of_a_pair google_client _ _ true 5)).
  - pose proof (google_places_of_a_pair google_client "Dentists" "Heidelberg" false 5) as H.
    cbv zeta in H. destruct H as (_ & _ & _ & H).
    destruct (H (or_introl eq_refl)) as [-> _]. vm_compute. reflexivity.
Defined.

(** ** Retry with backoff (utils/places.py) *)

Section Retry.

Import Places.

Context {A : Type}.

Implicit Types (fn : nat -> attempt A) (base : Z).

Lemma backoff_S base k :
  backoff base (S k) = backoff base k ++ [(base * 2 ^ Z.of_nat k)%Z].
Proof. unfold backoff. rewrite seq_S, map_app. reflexivity. Qed.

Lemma sum_Z_app l1 l2 : sum_Z (l1 ++ l2) = (sum_Z l1 + sum_Z l2)%Z.
Proof. unfold sum_Z. induction l1 as [|x l1 IH]; cbn; [reflexivity|]. rewrite IH. lia. Qed.

Lemma sum_backoff base k : sum_Z (backoff base k) = (base * (2 ^ Z.of_nat k - 1))%Z.
Proof.
  induction k as [|k IH]; [cbn; lia|].
  rewrite backoff_S, sum_Z_app, IH. cbn [sum_Z foldr].
  rewrite Nat2Z.inj_succ, Z.pow_succ_r by lia. lia.
Qed.

(** The loop, started at round [a] with [n] rounds left. *)
Lemma retry_loop_spec fn base a n last :
  let slept := (retry_loop fn base a n last).1 in
  let out := (retry_loop fn base a n last).2 in
  let k := length slept in
  k <= n /\
  slept = map (fun i => (base * 2 ^ Z.of_nat i)%Z) (seq a k) /\
  (forall i, i < k -> exists msg, fn (a + i) = Threw msg /\ rate_limited msg = true) /\
  match out with
  | Value v => k < n /\ fn (a + k) = Returned v
  | Failed msg =>
      (k < n /\ fn (a + k) = Threw msg /\ rate_limited msg = false)
      \/ (k = n /\ (k = 0 /\ last = Some msg
                   \/ 0 < k /\ fn (a + k - 1) = Threw msg /\ rate_limited msg = true))
  | RaisedNone => k = 0 /\ n = 0 /\ last = None
  end.
Proof.
  revert a last. induction n as [|n IH]; intros a last.
  - cbn. split; [lia|]. split; [reflexivity|]. split; [lia|].
    destruct last; [right|]; auto.
  - cbn [retry_loop]. destruct (fn a) as [v|msg] eqn:F.
    + cbn. split; [lia|]. split; [reflexivity|]. split; [lia|].
      rewrite Nat.add_0_r. split; [lia|exact F].
    + destruct (rate_limited msg) eqn:R.
      * specialize (IH (S a) (Some msg)). cbv zeta in IH.
        destruct (retry_loop fn base (S a) n (Some msg)) as [slept out].
        cbn [fst snd length] in *. destruct IH as (L & Hs & T & O).
        split; [lia|]. split; [cbn [seq map]; rewrite <- Hs; reflexivity|]. split.
        -- intros [|i] Hi.
           ++ rewrite Nat.add_0_r. eauto.
           ++ rewrite Nat.add_succ_r. apply T. lia.
        -- destruct out as [v|m|].
           ++ rewrite Nat.add_succ_r. destruct O. split; [lia|assumption].
           ++ destruct O as [(O1 & O2 & O3) | (O1 & [(O2 & O3) | (O2 & O3 & O4)])].
              ** left. rewrite Nat.add_succ_r. auto with lia.
              ** right. split; [lia|]. right. split; [lia|].
                 injection O3 as <-. rewrite O2, Nat.add_1_r. cbn.
                 rewrite Nat.sub_0_r. auto.
              ** right. split; [lia|]. right. split; [lia|].
                 replace (a + S (length slept) - 1) with (S a + length slept - 1) by lia.
                 auto.
           ++ destruct O as (_ & _ & O). discriminate.
      * cbn. split; [lia|]. split; [reflexivity|]. split; [lia|].
        left. rewrite Nat.add_0_r. auto with lia.
Qed.

End Retry.

(** X11.  [_call_with_retry] makes at most [max_retries] calls.  It sleeps after a
    rate-limited failure only, also after the last one, the delay doubling
    from [base_delay] on, so that all delays together stay below
    [base_delay * 2 ^ max_retries].  It returns the value of the first call
    that succeeds; an error that is not a rate limit ends it at once; when
    every call hit the rate limit it raises the error of the last call. *)
Theorem call_with_retry_backoff {A : Type} (fn : nat -> Places.attempt A)
    (max_retries : nat) (base_delay : Z) :
  let slept := fst (Places._call_with_retry fn max_retries base_delay) in
  let out := snd (Places._call_with_retry fn max_retries base_delay) in
  let k := length slept in
  k <= max_retries /\
  slept = backoff base_delay k /\
  sum_Z slept = (base_delay * (2 ^ Z.of_nat k - 1))%Z /\
  (forall i, i < k ->
     exists msg, fn i = Places.Threw msg /\ Places.rate_limited msg = true) /\
  match out with
  | Places.Value v => k < max_retries /\ fn k = Places.Returned v
  | Places.Failed msg =>
      (k < max_retries /\ fn k = Places.Threw msg /\ Places.rate_limited msg = false)
      \/ (k = max_retries /\ 0 < k /\ fn (k - 1) = Places.Threw msg
          /\ Places.rate_limited msg = true)
  | Places.RaisedNone => max_retries = 0
  end.
Proof.
  intros slept out k. subst slept out k. unfold Places._call_with_retry.
  pose proof (retry_loop_spec fn base_delay 0 max_retries None) as H. cbv zeta in H.
  destruct H as (L & Hs & T & O).
  split; [exact L|]. split; [exact Hs|]. split; [rewrite Hs at 1; apply sum_backoff|].
  split; [exact T|].
  destruct (Places.retry_loop fn base_delay 0 max_retries None).2 as [v|msg|].
  - exact O.
  - destruct O as [O | (O1 & [(_ & O2) | O2])]; [left; exact O|discriminate O2|].
    right. split; [exact O1|]. exact O2.
  - destruct O as (_ & O & _). exact O.
Qed.

Lemma call_with_retry_backoff_witness :
  Places._call_with_retry flaky 5 2 = ([2; 4]%Z, Places.Value "ok") /\
  exists msg, flaky 1 = Places.Threw msg /\ Places.rate_limited msg = true.
Proof.
  assert (E : Places._call_with_retry flaky 5 2 = ([2; 4]%Z, Places.Value "ok"))
    by (vm_compute; reflexivity).
  split; [exact E|].
  pose proof (call_with_retry_backoff flaky 5 2) as H. cbv zeta in H.
  rewrite E in H. cbn [fst snd length] in H.
  destruct H as (_ & _ & _ & T & _). apply T. lia.
Defined.

(** ** Paged searches (utils/places.py) *)

Section Paging.

Import Places.

Implicit Types (call : nat -> option string -> nat -> attempt Response) (sleep : clock).

Lemma required_idem x t : required x = Some t -> required (Some t) = Some t.
Proof.
  unfold required. destruct x as [s|]; [|discriminate].
  destruct (truthy s) eqn:T; [|discriminate]. intros [= <-]. rewrite T. reflexivity.
Qed.

(** One round of the loop, by what the page does. *)
Lemma search_round sleep call s t fuel page all :
  search_loop (S fuel) sleep call s t page (token_at call page) all =
  match (match required (token_at call page) with
         | Some _ => sleep t
         | None => Ok tt
         end) with
  | Raise _ =>
      Some (match required (token_at call page) with
            | Some _ => [TokenSleep]
            | None => []
            end, all)
  | Ok _ =>
      match page_outcome call page with
      | Value response =>
          match sleep s with
          | Raise _ => Some (page_pauses call page, all)
          | Ok _ =>
              if goes_on call page
              then
                match search_loop fuel sleep call s t (S page) (token_at call (S page))
                        (all ++ page_results call page) with
                | Some (pauses, found) => Some (page_pauses call page ++ pauses, found)
                | None => None
                end
              else Some (page_pauses call page, all ++ page_results call page)
          end
      | _ => Some (page_pauses call page, all)
      end
  end.
Proof.
  cbn [search_loop token_at]. unfold page_pauses, page_results, goes_on, page_outcome.
  destruct (match required (token_at call page) with
            | Some _ => sleep t
            | None => Ok tt
            end) as [[]|e]; [|reflexivity].
  destruct (_call_with_retry (call page (token_at call page)) 5 2) as [slept out].
  cbn [fst snd]. destruct out as [response|msg|]; [|rewrite app_nil_r; reflexivity..].
  destruct (sleep s) as [[]|e]; [|reflexivity].
  destruct (required (r_next_page_token response)) as [token|] eqn:T; [|reflexivity].
  destruct (search_loop fuel sleep call s t (S page) (Some token)
              (all ++ r_results response)) as [[pauses found]|]; [|reflexivity].
  rewrite <- !app_assoc. reflexivity.
Qed.

Lemma token_pause_accepted sleep t (x : option string) :
  sleep t = Ok tt ->
  match required x with Some _ => sleep t | None => Ok tt end = Ok tt.
Proof. intros H. destruct (required x); [exact H|reflexivity]. Qed.

Lemma goes_on_answered call p :
  goes_on call p = true -> exists response, page_outcome call p = Value response.
Proof.
  unfold goes_on. destruct (page_outcome call p) as [response|msg|]; [eauto|discriminate..].
Qed.

Lemma page_results_unanswered call p :
  (forall response, page_outcome call p <> Value response) -> page_results call p = [].
Proof.
  unfold page_results. destruct (page_outcome call p) as [response|msg|]; [|reflexivity..].
  intros H. contradiction (H response). reflexivity.
Qed.

(** The loop from the page [page] on, when [k] more pages follow and the
    clock accepts both pauses. *)
Lemma search_loop_spec sleep call s t k :
  sleep s = Ok tt -> sleep t = Ok tt ->
  forall fuel page all,
    (forall p, page <= p < page + k -> goes_on call p = true) ->
    goes_on call (page + k) = false ->
    (fuel <= k -> search_loop fuel sleep call s t page (token_at call page) all = None) /\
    (k < fuel ->
     search_loop fuel sleep call s t page (token_at call page) all
     = Some (concat (map (page_pauses call) (seq page (S k))),
             all ++ concat (map (page_results call) (seq page (S k))))).
Proof.
  intros Hs Ht. induction k as [|k IH]; intros fuel page all Hon Hoff.
  - rewrite Nat.add_0_r in Hoff. split.
    + intros Hf. assert (fuel = 0) as -> by lia. reflexivity.
    + intros Hf. destruct fuel as [|fuel]; [lia|]. rewrite search_round.
      rewrite (token_pause_accepted sleep t _ Ht), Hs, Hoff.
      cbn [seq map concat]. rewrite !app_nil_r.
      destruct (page_outcome call page) as [response|msg|] eqn:O; [reflexivity|..].
      all: rewrite page_results_unanswered by (rewrite O; discriminate).
      all: rewrite app_nil_r; reflexivity.
  - assert (Hpage : goes_on call page = true) by (apply Hon; lia).
    assert (Hnext : forall p, S page <= p < S page + k -> goes_on call p = true).
    { intros p Hp. apply Hon. lia. }
    assert (Hoff' : goes_on call (S page + k) = false).
    { replace (S page + k) with (page + S k) by lia. exact Hoff. }
    destruct (goes_on_answered call page Hpage) as [response O].
    split.
    + intros Hf. destruct fuel as [|fuel]; [reflexivity|]. rewrite search_round.
      rewrite (token_pause_accepted sleep t _ Ht), O, Hs, Hpage.
      destruct (IH fuel (S page) (all ++ page_results call page) Hnext Hoff') as [Hnone _].
      rewrite Hnone by lia. reflexivity.
    + intros Hf. destruct fuel as [|fuel]; [lia|]. rewrite search_round.
      rewrite (token_pause_accepted sleep t _ Ht), O, Hs, Hpage.
      destruct (IH fuel (S page) (all ++ page_results call page) Hnext Hoff') as [_ Hsome].
      rewrite Hsome by lia.
      change (seq page (S (S k))) with (page :: seq (S page) (S k)).
      cbn [map concat]. rewrite <- app_assoc. reflexivity.
Qed.

Lemma search_loop_endless sleep call s t :
  sleep s = Ok tt -> sleep t = Ok tt ->
  (forall p, goes_on call p = true) ->
  forall fuel page all, search_loop fuel sleep call s t page (token_at call page) all = None.
Proof.
  intros Hs Ht Hon. induction fuel as [|fuel IH]; intros page all; [reflexivity|].
  rewrite search_round. rewrite (token_pause_accepted sleep t _ Ht).
  destruct (goes_on_answered call page (Hon page)) as [response O].
  rewrite O, Hs, (Hon page), IH. reflexivity.
Qed.

(** A search whose pause after a request the clock refuses keeps nothing. *)
Lemma search_loop_no_pause sleep call s t e fuel :
  sleep s = Raise e ->
  search_loop (S fuel) sleep call s t 0 None [] = Some (page_pauses call 0, []).
Proof.
  intros Hs. change None with (token_at call 0) at 1. rewrite search_round.
  cbn [token_at required]. rewrite Hs.
  destruct (page_outcome call 0); reflexivity.
Qed.

(** A search whose pause for the token the clock refuses ends with its first
    page. *)
Lemma search_loop_no_token_pause sleep call s t e fuel :
  sleep s = Ok tt -> sleep t = Raise e ->
  search_loop (S (S fuel)) sleep call s t 0 None []
  = Some (page_pauses call 0 ++ (if goes_on call 0 then [TokenSleep] else []),
          page_results call 0).
Proof.
  intros Hs Ht. change None with (token_at call 0) at 1. rewrite search_round.
  cbn [required]. change (token_at call 0) with (@None string). cbn [required].
  rewrite Hs.
  destruct (page_outcome call 0) as [response|msg|] eqn:O.
  - destruct (goes_on call 0) eqn:G; [|rewrite app_nil_r; reflexivity].
    rewrite search_round.
    assert (Htok : exists token, required (token_at call 1) = Some token).
    { unfold goes_on in G. rewrite O in G. cbn [token_at].
      unfold page_outcome in O. cbn [token_at] in O. rewrite O.
      destruct (required (r_next_page_token response)) as [token|] eqn:T;
        [|discriminate G].
      exists token. exact (required_idem _ _ T). }
    destruct Htok as [token ->]. rewrite Ht. reflexivity.
  - assert (G : goes_on call 0 = false) by (unfold goes_on; rewrite O; reflexivity).
    rewrite G, app_nil_r.
    rewrite page_results_unanswered by (rewrite O; discriminate). reflexivity.
  - assert (G : goes_on call 0 = false) by (unfold goes_on; rewrite O; reflexivity).
    rewrite G, app_nil_r.
    rewrite page_results_unanswered by (rewrite O; discriminate). reflexivity.
Qed.

End Paging.

(** X12.  When the clock accepts both pauses, a paged search returns the
    results of its pages in order, up to and including the first page that
    carries no continuation token, and up to but excluding the first page
    whose request fails: what the earlier pages gave is kept.  Its pauses
    are those of its pages in order: before the request of a page asked
    with a token the pause for the token, then the delays of the backoff,
    then the pause after an answered request.  With [n] continuation pages
    it needs [n + 1] rounds, and a service that sends a token with every
    page keeps it going for ever: the loop itself sets no bound on the
    pages.  When the clock refuses the pause after a request
    ([sleep_seconds] negative), the search returns nothing, whatever the
    first page answered; when it refuses the pause for the token only, the
    search returns the results of the first page. *)
Theorem paged_search_concatenates (sleep : clock)
    (call : nat -> option string -> nat -> Places.attempt Places.Response)
    (sleep_seconds token_sleep : string) :
  (sleep sleep_seconds = Ok tt -> sleep token_sleep = Ok tt ->
   (forall n,
      (forall p, p < n -> goes_on call p = true) ->
      goes_on call n = false ->
      (forall fuel, n < fuel ->
         Places.text_search_places fuel sleep call sleep_seconds token_sleep
         = Some (concat (map (page_pauses call) (seq 0 (S n))),
                 concat (map (page_results call) (seq 0 (S n)))) /\
         Places.nearby_search_places fuel sleep call sleep_seconds token_sleep
         = Some (concat (map (page_pauses call) (seq 0 (S n))),
                 concat (map (page_results call) (seq 0 (S n))))) /\
      (forall fuel, fuel <= n ->
         Places.text_search_places fuel sleep call sleep_seconds token_sleep = None)) /\
   ((forall p, goes_on call p = true) ->
    forall fuel,
      Places.text_search_places fuel sleep call sleep_seconds token_sleep = None)) /\
  (forall e fuel,
     sleep sleep_seconds = Raise e -> 0 < fuel ->
     Places.text_search_places fuel sleep call sleep_seconds token_sleep
     = Some (page_pauses call 0, []) /\
     Places.nearby_search_places fuel sleep call sleep_seconds token_sleep
     = Some (page_pauses call 0, [])) /\
  (forall e fuel,
     sleep sleep_seconds = Ok tt -> sleep token_sleep = Raise e -> 1 < fuel ->
     Places.text_search_places fuel sleep call sleep_seconds token_sleep
     = Some (page_pauses call 0
             ++ (if goes_on call 0 then [Places.TokenSleep] else []),
             page_results call 0) /\
     Places.nearby_search_places fuel sleep call sleep_seconds token_sleep
     = Some (page_pauses call 0
             ++ (if goes_on call 0 then [Places.TokenSleep] else []),
             page_results call 0)).
Proof.
  split; [|split].
  - intros Hs Ht. split.
    + intros n Hon Hoff.
      assert (Hon' : forall p, 0 <= p < 0 + n -> goes_on call p = true).
      { intros p Hp. apply Hon. lia. }
      split.
      * intros fuel Hf.
        destruct (search_loop_spec sleep call sleep_seconds token_sleep n Hs Ht
                    fuel 0 [] Hon' Hoff) as [_ H].
        split; exact (H Hf).
      * intros fuel Hf.
        destruct (search_loop_spec sleep call sleep_seconds token_sleep n Hs Ht
                    fuel 0 [] Hon' Hoff) as [H _].
        exact (H Hf).
    + intros Hon fuel.
      exact (search_loop_endless sleep call sleep_seconds token_sleep Hs Ht Hon fuel 0 []).
  - intros e fuel Hs Hf. destruct fuel as [|fuel]; [lia|].
    split; exact (search_loop_no_pause sleep call sleep_seconds token_sleep e fuel Hs).
  - intros e fuel Hs Ht Hf. destruct fuel as [|[|fuel]]; [lia..|].
    split;
      exact (search_loop_no_token_pause sleep call sleep_seconds token_sleep e fuel Hs Ht).
Qed.

Lemma paged_search_concatenates_witness :
  goes_on two_pages 0 = true /\ goes_on two_pages 1 = false /\
  Places.text_search_places 2 wall_clock two_pages "0.5" "2.0"
  = Some ([Places.Backoff 2; Places.ApiSleep; Places.TokenSleep; Places.ApiSleep],
          [Some "ChIJ-A"; None; Some "ChIJ-B"]) /\
  Places.text_search_places 1 wall_clock two_pages "0.5" "2.0" = None /\
  Places.text_search_places 2 wall_clock two_pages "-0.5" "2.0"
  = Some ([Places.Backoff 2; Places.ApiSleep], []).
Proof.
  assert (H0 : forall p, p < 1 -> goes_on two_pages p = true).
  { intros p Hp. assert (p = 0) as -> by lia. vm_compute. reflexivity. }
  assert (H1 : goes_on two_pages 1 = false) by (vm_compute; reflexivity).
  destruct (paged_search_concatenates wall_clock two_pages "0.5" "2.0") as [Hok _].
  destruct (proj1 (Hok eq_refl eq_refl) 1 H0 H1) as [Hsome Hnone].
  destruct (paged_search_concatenates wall_clock two_pages "-0.5" "2.0") as (_ & Hno & _).
  split; [apply H0; lia|]. split; [exact H1|].
  split; [rewrite (proj1 (Hsome 2 ltac:(lia))); vm_compute; reflexivity|].
  split; [apply Hnone; lia|].
  rewrite (proj1 (Hno ValueError 2 eq_refl ltac:(lia))). vm_compute. reflexivity.
Defined.

(** ** One dedup domain for both sources (utils/places.py, utils/osm_places.py) *)

Section SharedDomain.

Lemma lower_char_not_upper a : is_upper (lower_char a) = false.
Proof. destruct a as [[] [] [] [] [] [] [] []]; vm_compute; reflexivity. Qed.

Lemma lower_not_upper s : forallb_str (fun a => negb (is_upper a)) (lower s) = true.
Proof.
  induction s as [|a s IH]; [reflexivity|].
  cbn [lower forallb_str]. rewrite lower_char_not_upper, IH. reflexivity.
Qed.

Lemma replace_go_keeps (q : ascii -> bool) old k s :
  forallb_str q s = true -> forallb_str q (replace_go old "" k s) = true.
Proof.
  revert k. induction s as [|a s IH]; intros k; [reflexivity|].
  cbn [forallb_str]. intros [Ha Hs]%andb_true_iff. cbn [replace_go].
  destruct k as [|k]; [|apply IH, Hs].
  destruct (startswith (String a s) old).
  - rewrite str_app_nil. apply IH, Hs.
  - cbn [forallb_str]. rewrite Ha. apply IH, Hs.
Qed.

Lemma osm_domain_same url :
  OsmPlaces.get_domain_for_dedup url = Places._extract_domain url.
Proof.
  unfold OsmPlaces.get_domain_for_dedup, Places._extract_domain.
  destruct (UrlLib.urlparse url) as [parsed|e]; [|reflexivity].
  destruct (truthy (UrlLib.netloc parsed)); reflexivity.
Qed.

End SharedDomain.

(** X13.  Both sources key a website by the same dedup domain: the function of
    the OSM module agrees with the one of the Google module on every
    string, and the OSM ledger uses it for every place that has a website.
    The domain of a URL that parses has no upper-case letter, so two
    spellings of a host that differ in letter case only cannot both pass a
    ledger. *)
Theorem dedup_domain_is_shared :
  (forall url, OsmPlaces.get_domain_for_dedup url = Places.get_domain_for_dedup url) /\
  (forall place : OsmPlaces.OSMPlace,
     OsmPlaces.website place <> "" ->
     Main.osm_domain place = Places.get_domain_for_dedup (OsmPlaces.website place)) /\
  (forall url parsed,
     UrlLib.urlparse url = Ok parsed ->
     forallb_str (fun a => negb (is_upper a)) (Places.get_domain_for_dedup url) = true /\
     lower (Places.get_domain_for_dedup url) = Places.get_domain_for_dedup url).
Proof.
  split; [exact osm_domain_same|]. split.
  - intros place Hw. unfold Main.osm_domain.
    apply truthy_true in Hw. rewrite Hw. apply osm_domain_same.
  - intros url parsed Hp.
    assert (H : forallb_str (fun a => negb (is_upper a)) (Places.get_domain_for_dedup url)
                = true).
    { unfold Places.get_domain_for_dedup, Places._extract_domain. rewrite Hp.
      apply replace_go_keeps, lower_not_upper. }
    split; [exact H|].
    revert H. generalize (Places.get_domain_for_dedup url). intros s.
    induction s as [|a s IH]; [reflexivity|].
    cbn [forallb_str lower]. intros [Ha Hs]%andb_true_iff.
    rewrite (IH Hs). unfold lower_char.
    destruct (is_upper a); [discriminate Ha|reflexivity].
Qed.

Lemma dedup_domain_is_shared_witness :
  UrlLib.urlparse "HTTPS://WWW.Praxis-A.DE/Kontakt"
  = Ok {| UrlLib.scheme := "https"; UrlLib.netloc := "WWW.Praxis-A.DE";
          UrlLib.path := "/Kontakt"; UrlLib.params := ""; UrlLib.query := "";
          UrlLib.fragment := "" |} /\
  Places.get_domain_for_dedup "HTTPS://WWW.Praxis-A.DE/Kontakt" = "praxis-a.de" /\
  lower (Places.get_domain_for_dedup "HTTPS://WWW.Praxis-A.DE/Kontakt")
  = Places.get_domain_for_dedup "HTTPS://WWW.Praxis-A.DE/Kontakt" /\
  Main.osm_domain osm_way_77 = Places.get_domain_for_dedup "https://Praxis-A.de".
Proof.
  assert (E : UrlLib.urlparse "HTTPS://WWW.Praxis-A.DE/Kontakt"
              = Ok {| UrlLib.scheme := "https"; UrlLib.netloc := "WWW.Praxis-A.DE";
                      UrlLib.path := "/Kontakt"; UrlLib.params := ""; UrlLib.query := "";
                      UrlLib.fragment := "" |}) by (vm_compute; reflexivity).
  pose proof dedup_domain_is_shared as (_ & H2 & H3).
  split; [exact E|]. split; [vm_compute; reflexivity|].
  split; [exact (proj2 (H3 _ _ E))|].
  apply (H2 osm_way_77). discriminate.
Defined.

(** ** What a run exports (main.py) *)

Section Runs.

Import Main.

Implicit Types (w : World) (a : Args) (st : state) (d : gmap string file).

Lemma run_collection_unfold w n ns c cs budget harvest src clear work_dir d :
  run_collection w (n :: ns) (c :: cs) budget harvest src clear work_dir d =
  let cf := collection_checkpoint w work_dir in
  let a := {| source := src; max_leads := budget; extract_emails := harvest;
              clear_checkpoint := clear; checkpoint_file := cf |} in
  let d0 :=
    if clear && bool_decide (is_Some (d !! _writable_checkpoint_path (vercel w) cf))
    then delete (_writable_checkpoint_path (vercel w) cf) d else d in
  match run_source w a (n :: ns) (c :: cs) (loaded_state w d0 cf) with
  | Raise e => Raise e
  | Ok st => Ok (final_save w cf st, export_csv (leads st) true)
  end.
Proof.
  unfold run_collection, collection_checkpoint. rewrite andb_false_r.
  destruct work_dir as [p|]; [reflexivity|]. destruct (vercel w); reflexivity.
Qed.

Lemma loaded_cleared_leads w d cf :
  leads (loaded_state w
           (if true && bool_decide (is_Some (d !! _writable_checkpoint_path (vercel w) cf))
            then delete (_writable_checkpoint_path (vercel w) cf) d else d) cf) = [].
Proof.
  pose proof (resumed_cleared w d cf) as H. unfold resumed, count in H.
  destruct (leads _); [reflexivity|discriminate H].
Qed.

Lemma run_source_osm w a niches cities st :
  source a <> "google" ->
  run_source w a niches cities st = Ok (_run_osm w a niches cities st)
  /\ leads (_run_osm w a niches cities st) = leads st.
Proof.
  intros Hs. unfold run_source.
  destruct (String.eqb_spec (source a) "google") as [E | _]; [contradiction|].
  split; [reflexivity|]. apply osm_niches_leads.
Qed.

(** A lead as [place_to_lead] leaves it does not pass the export filter. *)
Lemma place_to_lead_plain place niche city :
  has_value (place_to_lead place niche city) "emails_found" = false.
Proof. vm_compute. reflexivity. Qed.

Lemma export_app leads1 leads2 :
  Forall (fun lead => has_value lead "emails_found" = false) leads2 ->
  export_csv (leads1 ++ leads2) true = export_csv leads1 true.
Proof.
  intros H. unfold export_csv. f_equal. rewrite List.filter_app.
  replace (List.filter _ leads2) with (@nil Lead); [rewrite app_nil_r; reflexivity|].
  induction H as [|lead leads2 Hl _ IH]; [reflexivity|].
  cbn [List.filter]. rewrite Hl. exact IH.
Qed.

Lemma export_checkpoint_if_due w a st :
  export_csv (leads (checkpoint_if_due w a st)) true = export_csv (leads st) true.
Proof. rewrite leads_checkpoint_if_due. reflexivity. Qed.

Lemma google_places_plain w a niche city places st :
  extract_emails a = false ->
  export_csv (leads (google_places w a niche city places st)) true
  = export_csv (leads st) true.
Proof.
  intros Hx. revert st. induction places as [|place rest IH]; intros st; [reflexivity|].
  cbn [google_places].
  destruct (google_admit (seen_place_ids st) (seen_domains st) place) as [sets|];
    [|apply IH].
  rewrite Hx. cbn [andb].
  assert (E : export_csv
                (leads (checkpoint_if_due w a
                          (append_lead (place_to_lead place niche city)
                             (record_admission st sets)))) true
              = export_csv (leads st) true).
  { rewrite leads_checkpoint_if_due. cbn [append_lead record_admission leads].
    apply export_app. constructor; [apply place_to_lead_plain|constructor]. }
  match goal with
  | |- context [if budget_reached a ?s then _ else _] => destruct (budget_reached a s)
  end; [exact E|]. rewrite IH. exact E.
Qed.

Lemma google_cities_plain w a niche cities st :
  extract_emails a = false ->
  export_csv (leads (google_cities w a niche cities st)) true
  = export_csv (leads st) true.
Proof.
  intros Hx. revert st. induction cities as [|city rest IH]; intros st; [reflexivity|].
  cbn [google_cities]. destruct (budget_reached a st); [reflexivity|].
  destruct (collect_places_for_niche_city w niche city) as [places|e]; [|apply IH].
  rewrite IH. apply google_places_plain, Hx.
Qed.

Lemma google_niches_plain w a niches cities st :
  extract_emails a = false ->
  export_csv (leads (google_niches w a niches cities st)) true
  = export_csv (leads st) true.
Proof.
  intros Hx. revert st. induction niches as [|niche rest IH]; intros st; [reflexivity|].
  cbn [google_niches]. destruct (budget_reached a st); [reflexivity|].
  rewrite IH. apply google_cities_plain, Hx.
Qed.

Lemma run_source_plain w a niches cities st st' :
  extract_emails a = false \/ source a <> "google" ->
  run_source w a niches cities st = Ok st' ->
  export_csv (leads st') true = export_csv (leads st) true.
Proof.
  intros Hx. unfold run_source.
  destruct (String.eqb_spec (source a) "google") as [E | N].
  - destruct Hx as [Hx | Hx]; [|contradiction]. unfold _run_google.
    destruct (google_client w); [|discriminate]. intros [= <-].
    apply google_niches_plain, Hx.
  - intros [= <-]. unfold _run_osm. rewrite osm_niches_leads. reflexivity.
Qed.

End Runs.

(** X14.  A run adds a lead to the exported file only if it goes through Google
    with the harvest of addresses switched on.  Without the harvest every
    new lead carries the placeholder and is filtered out; through OSM no
    lead is added at all, [osm_place_to_lead] ending on the [owner] it
    reads.  So either run exports what the checkpoint held, and from a
    cleared checkpoint the header alone. *)
Theorem only_a_google_harvest_exports (w : Main.World) :
  (forall a niches cities st st',
     Main.extract_emails a = false \/ Main.source a <> "google" ->
     Main.run_source w a niches cities st = Ok st' ->
     Main.export_csv (Main.leads st') true = Main.export_csv (Main.leads st) true) /\
  (forall a niches cities st st',
     Main.source a <> "google" ->
     Main.run_source w a niches cities st = Ok st' -> Main.leads st' = Main.leads st) /\
  (forall niches cities budget harvest src work_dir (d d' : gmap string Main.file) rows,
     harvest = false \/ src <> "google" ->
     Main.run_collection w niches cities budget harvest src true work_dir d = Ok (d', rows) ->
     rows = [Main.columns]) /\
  (forall a (d d' : gmap string Main.file) rows,
     Main.extract_emails a = false \/ Main.source a <> "google" ->
     Main.main w a d = Ok (d', rows) ->
     rows = Main.export_csv
              (Main.leads
                 (Main.loaded_state w
                    (if Main.clear_checkpoint a
                        && bool_decide (is_Some (d !! Main.CHECKPOINT_FILE))
                     then delete Main.CHECKPOINT_FILE d else d) None)) true).
Proof.
  split; [|split; [|split]].
  - intros a niches cities st st'. apply run_source_plain.
  - intros a niches cities st st' Hs H.
    destruct (run_source_osm w a niches cities st Hs) as [E L]. congruence.
  - intros niches cities budget harvest src work_dir d d' rows Hx.
    destruct niches as [|n ns]; [discriminate|].
    destruct cities as [|c cs]; [destruct ns; discriminate|].
    rewrite run_collection_unfold. cbv zeta.
    match goal with
    | |- context [Main.run_source w ?a _ _ ?st] =>
        destruct (Main.run_source w a (n :: ns) (c :: cs) st) as [st'|e] eqn:R
    end; [|discriminate].
    intros [= <- <-]. apply run_source_plain in R; [|exact Hx].
    rewrite R, loaded_cleared_leads. reflexivity.
  - intros a d d' rows Hx. unfold Main.main. cbn [Main.clear_checkpoint Main.max_leads].
    set (d0 := if Main.clear_checkpoint a && bool_decide (is_Some (d !! Main.CHECKPOINT_FILE))
               then delete Main.CHECKPOINT_FILE d else d).
    match goal with
    | |- context [if Main.budget_reached ?a' ?st then _ else _] =>
        destruct (Main.budget_reached a' st)
    end; [intros [= <- <-]; reflexivity|].
    match goal with
    | |- context [Main.run_source w ?a' _ _ ?st] =>
        destruct (Main.run_source w a' [] [] st) as [st'|e] eqn:R
    end; [|discriminate].
    intros [= <- <-]. apply run_source_plain in R; [exact R|exact Hx].
Qed.

Lemma only_a_google_harvest_exports_witness :
  rows_of (Main.run_collection heidelberg ["Dentists"] ["Heidelberg"] 5 true "osm" true
             None ∅) = Some [Main.columns] /\
  rows_of (Main.run_collection heidelberg ["Dentists"] ["Heidelberg"] 1 false "google" true
             None ∅) = Some [Main.columns].
Proof.
  pose proof (only_a_google_harvest_exports heidelberg) as (_ & _ & H & _).
  assert (N : "osm" <> "google") by discriminate.
  split.
  - destruct (Main.run_collection heidelberg ["Dentists"] ["Heidelberg"] 5 true "osm" true
                None ∅) as [[d' rows]|e] eqn:E.
    + cbn [rows_of]. f_equal. exact (H _ _ _ _ _ _ _ _ _ (or_intror N) E).
    + assert (P : rows_of (Main.run_collection heidelberg ["Dentists"] ["Heidelberg"] 5
                             true "osm" true None ∅) <> None)
        by (vm_compute; discriminate).
      rewrite E in P. contradiction.
  - destruct (Main.run_collection heidelberg ["Dentists"] ["Heidelberg"] 1 false "google"
                true None ∅) as [[d' rows]|e] eqn:E.
    + cbn [rows_of]. f_equal. exact (H _ _ _ _ _ _ _ _ _ (or_introl eq_refl) E).
    + assert (P : rows_of (Main.run_collection heidelberg ["Dentists"] ["Heidelberg"] 1
                             false "google" true None ∅) <> None)
        by (vm_compute; discriminate).
      rewrite E in P. contradiction.
Defined.

Section Contactable.

Import Main.

Lemma has_lstrip_keep c (f : ascii -> bool) s :
  f c = false -> has c (lstrip_with f s) = has c s.
Proof.
  intros Hc. induction s as [|a s IH]; [reflexivity|].
  cbn [lstrip_with]. destruct (f a) eqn:Fa; [|reflexivity].
  rewrite IH, has_cons.
  destruct (Ascii.eqb_spec c a) as [-> | _]; [congruence|reflexivity].
Qed.

Lemma has_rstrip_keep c (f : ascii -> bool) s :
  f c = false -> has c (rstrip_with f s) = has c s.
Proof.
  intros Hc. destruct (rstrip_prefix f s) as (t & Hs & Ht).
  rewrite Hs at 2. rewrite has_app, (has_forallb c f t Hc Ht), orb_false_r. reflexivity.
Qed.

Lemma has_strip_keep c s : is_space c = false -> has c (strip s) = has c s.
Proof.
  intros Hc. unfold strip, strip_with.
  rewrite has_rstrip_keep, has_lstrip_keep by exact Hc. reflexivity.
Qed.

Lemma has_join c sep e es : has c e = true -> has c (join sep (e :: es)) = true.
Proof.
  intros He. unfold join. destruct es as [|e' es]; [exact He|].
  cbn [String.concat]. rewrite has_app, He. reflexivity.
Qed.

Lemma is_http_not_nill v : is_http v = true -> v <> "" /\ strip v <> "Nill".
Proof.
  intros H. destruct v as [|c v]; [discriminate H|]. split; [discriminate|].
  assert (Hc : lower_char c = "h"%char).
  { unfold is_http in H. cbn [lower startswith] in H.
    destruct (Ascii.eqb_spec "h" (lower_char c)) as [<- | _]; [reflexivity|].
    discriminate H. }
  assert (Hs : is_space c = false).
  { rewrite <- lower_char_space, Hc. reflexivity. }
  rewrite strip_keep_head, rstrip_keep_head by exact Hs.
  intros [= -> _]. discriminate Hc.
Qed.

Lemma with_emails_found place niche city emails src :
  with_emails (place_to_lead place niche city) emails src !! "emails_found"
  = Some (match emails with [] => "Nill" | _ :: _ => join "; " emails end).
Proof.
  unfold with_emails. rewrite !lookup_insert_ne by discriminate.
  apply lookup_insert_eq.
Qed.

Lemma with_emails_website place niche city emails src :
  with_emails (place_to_lead place niche city) emails src !! "website_url"
  = Some (or_nill (Places.website place)).
Proof.
  unfold with_emails. rewrite !lookup_insert_ne by discriminate.
  vm_compute. reflexivity.
Qed.

Lemma harvested_lead_contactable place niche city emails src :
  canonical_website (Places.website place) ->
  Forall (fun e => has "@" e = true) emails ->
  contactable (with_emails (place_to_lead place niche city) emails src) <-> emails <> [].
Proof.
  intros (Hne & Hhttp & _) Hat. unfold contactable, real_value.
  rewrite with_emails_found, with_emails_website. split.
  - intros [(v & [= <-] & _ & Hv) _] ->. apply Hv. reflexivity.
  - intros He. destruct emails as [|e es]; [contradiction|]. split.
    + eexists. split; [reflexivity|].
      assert (H : has "@" (join "; " (e :: es)) = true).
      { apply has_join. inversion Hat. assumption. }
      split.
      * intros E. rewrite E in H. discriminate H.
      * intros E. rewrite <- (has_strip_keep "@") in H by reflexivity.
        rewrite E in H. discriminate H.
    + eexists. split; [reflexivity|].
      unfold or_nill. apply truthy_true in Hne. rewrite Hne.
      apply is_http_not_nill, Hhttp.
Qed.

End Contactable.

(** X15.  A lead of the Google path whose place has a canonical website, as every
    place of the adapter has, is exported exactly when the harvest found an
    address: the lead built from the place and the addresses passes the
    export filter if and only if the list of addresses is not empty. *)
Theorem lead_exported_iff_address_found (place : Places.PlaceResult)
    (niche city : string) (emails : list string) (src : string) :
  canonical_website (Places.website place) ->
  Forall (fun e => has "@" e = true) emails ->
  let lead := Main.with_emails (Main.place_to_lead place niche city) emails src in
  (contactable lead <-> emails <> []) /\
  Main.export_csv [lead] true
  = Main.columns :: (if decide (emails = []) then [] else [Main.csv_row lead]).
Proof.
  intros Hc Hat lead. subst lead.
  pose proof (harvested_lead_contactable place niche city emails src Hc Hat) as H.
  split; [exact H|].
  unfold Main.export_csv. rewrite filter_contactable, filter_cons, filter_nil.
  destruct (decide (contactable _)) as [C | C]; destruct (decide (emails = [])) as [E | E];
    try reflexivity; tauto.
Qed.

Lemma lead_exported_iff_address_found_witness :
  canonical_website (Places.website google_place_a) /\
  Main.export_csv
    [Main.with_emails (Main.place_to_lead google_place_a "Dentists" "Heidelberg")
       ["info@praxis-a.de"] "homepage"] true
  = [Main.columns;
     ["Dentists"; "Heidelberg"; "Praxis A"; "Nill"; ""; "https://praxis-a.de";
      "info@praxis-a.de"]].
Proof.
  assert (Hc : canonical_website (Places.website google_place_a)).
  { split; [discriminate|]. split; reflexivity. }
  split; [exact Hc|].
  pose proof (lead_exported_iff_address_found google_place_a "Dentists" "Heidelberg"
                ["info@praxis-a.de"] "homepage" Hc) as H.
  cbv zeta in H. destruct H as [_ H]; [repeat constructor|].
  rewrite H. vm_compute. reflexivity.
Defined.

(** ** The ledger along a run and across restarts (main.py) *)

Section LedgerRuns.

Import Main.

Lemma ledger_consistent_leads st st' :
  leads st' = leads st -> seen_place_ids st' = seen_place_ids st ->
  ledger_consistent st -> ledger_consistent st'.
Proof. unfold ledger_consistent. intros -> ->. tauto. Qed.

Lemma ledger_consistent_empty st : leads st = [] -> ledger_consistent st.
Proof.
  unfold ledger_consistent. intros ->. split; [constructor|].
  intros pid H. inversion H.
Qed.

End LedgerRuns.

(** X16.  No two leads of a run carry the same [place_id].  If the leads a run
    starts from have pairwise different identity keys, all of them in
    [seen_place_ids], then so have the leads it ends with, and so has what
    the next run loads from the checkpoint saved at the end.  A collection
    that starts from a cleared checkpoint therefore leaves a checkpoint in
    which no identity key occurs in two leads. *)
Theorem run_keeps_lead_keys_distinct (w w' : Main.World) :
  (forall a niches cities st st',
     ledger_consistent st ->
     Main.run_source w a niches cities st = Ok st' ->
     ledger_consistent st' /\
     (Main.vercel w' = Main.vercel w ->
      ledger_consistent
        (Main.loaded_state w'
           (Main.final_save w (Main.checkpoint_file a) st') (Main.checkpoint_file a)))) /\
  (forall niches cities budget harvest src work_dir (d d' : gmap string Main.file) rows,
     Main.run_collection w niches cities budget harvest src true work_dir d = Ok (d', rows) ->
     ledger_consistent (Main.loaded_state w d' (collection_checkpoint w work_dir))).
Proof.
  split.
  - intros a niches cities st st' K R.
    pose proof (run_source_consistent w a niches cities st st' K R) as K'.
    split; [exact K'|]. intros Hv.
    destruct (loaded_after_save w w' (Main.checkpoint_file a) st' Hv) as (L & I & _).
    exact (ledger_consistent_leads _ _ L I K').
  - intros niches cities budget harvest src work_dir d d' rows.
    destruct niches as [|n ns]; [discriminate|].
    destruct cities as [|c cs]; [destruct ns; discriminate|].
    rewrite run_collection_unfold. cbv zeta.
    match goal with
    | |- context [Main.run_source w ?a _ _ ?st] =>
        destruct (Main.run_source w a (n :: ns) (c :: cs) st) as [st'|e] eqn:R
    end; [|discriminate].
    intros [= <- <-].
    apply run_source_consistent in R;
      [|apply ledger_consistent_empty, loaded_cleared_leads].
    destruct (loaded_after_save w w (collection_checkpoint w work_dir) st' eq_refl)
      as (L & I & _).
    exact (ledger_consistent_leads _ _ L I R).
Qed.

Lemma run_keeps_lead_keys_distinct_witness :
  ledger_consistent empty_state /\
  match Main.run_source heidelberg (cli "google" 3 false) ["Dentists"] ["Heidelberg"]
          empty_state with
  | Ok st' => ledger_consistent st'
  | Raise _ => False
  end.
Proof.
  assert (K : ledger_consistent empty_state).
  { split; [constructor|]. intros pid H. inversion H. }
  split; [exact K|].
  destruct (Main.run_source heidelberg (cli "google" 3 false) ["Dentists"] ["Heidelberg"]
              empty_state) as [st'|e] eqn:R.
  - exact (proj1 (proj1 (run_keeps_lead_keys_distinct heidelberg heidelberg)
                    _ _ _ _ _ K R)).
  - assert (P : returned (Main.run_source heidelberg (cli "google" 3 false) ["Dentists"]
                            ["Heidelberg"] empty_state) = true)
      by (vm_compute; reflexivity).
    rewrite R in P. discriminate P.
Defined.

(** X17.  Of the places a ledger is shown one after the other, it admits no
    identity key twice and none it held before.  The Google ledger admits
    no dedup domain twice either; the OSM ledger admits no non-empty domain
    twice, and any number of places without one. *)
Theorem ledger_admits_each_key_once (ids doms : gset string) :
  (forall places : list Places.PlaceResult,
     NoDup (Places.place_id <$> google_admitted ids doms places) /\
     NoDup (google_domain <$> google_admitted ids doms places) /\
     forall q, q ∈ google_admitted ids doms places ->
       (Places.place_id q ∉ ids) /\ (google_domain q ∉ doms)) /\
  (forall places : list OsmPlaces.OSMPlace,
     NoDup (OsmPlaces.place_id <$> osm_admitted ids doms places) /\
     NoDup (filter (fun d => d <> "") (Main.osm_domain <$> osm_admitted ids doms places)) /\
     forall q, q ∈ osm_admitted ids doms places ->
       (OsmPlaces.place_id q ∉ ids) /\
       (Main.osm_domain q <> "" -> Main.osm_domain q ∉ doms)).
Proof.
  split; intros places.
  - destruct (google_admitted_once ids doms places) as [N1 N2].
    split; [exact N1|]. split; [exact N2|].
    intros q Hq. exact (google_admitted_fresh ids doms places q Hq).
  - destruct (osm_admitted_once ids doms places) as [N1 N2].
    split; [exact N1|]. split; [exact N2|].
    intros q Hq. exact (osm_admitted_fresh ids doms places q Hq).
Qed.

Lemma ledger_admits_each_key_once_witness :
  google_admitted {["ChIJ-C"]} ∅
    [google_place "ChIJ-A" "https://praxis-a.de";
     google_place "ChIJ-B" "https://www.praxis-a.de/kontakt";
     google_place "ChIJ-C" "https://praxis-c.de";
     google_place "ChIJ-A" "https://praxis-d.de"]
  = [google_place "ChIJ-A" "https://praxis-a.de"] /\
  "ChIJ-A" ∉ ({["ChIJ-C"]} : gset string).
Proof.
  assert (E : google_admitted {["ChIJ-C"]} ∅
                [google_place "ChIJ-A" "https://praxis-a.de";
                 google_place "ChIJ-B" "https://www.praxis-a.de/kontakt";
                 google_place "ChIJ-C" "https://praxis-c.de";
                 google_place "ChIJ-A" "https://praxis-d.de"]
              = [google_place "ChIJ-A" "https://praxis-a.de"])
    by (vm_compute; reflexivity).
  split; [exact E|].
  pose proof (proj1 (ledger_admits_each_key_once {["ChIJ-C"]} ∅)
                [google_place "ChIJ-A" "https://praxis-a.de";
                 google_place "ChIJ-B" "https://www.praxis-a.de/kontakt";
                 google_place "ChIJ-C" "https://praxis-c.de";
                 google_place "ChIJ-A" "https://praxis-d.de"]) as (_ & _ & H).
  rewrite E in H.
  exact (proj1 (H (google_place "ChIJ-A" "https://praxis-a.de") (list_elem_of_here _ _))).
Defined.

(** X18.  A second run that sees the same adapters and is asked for the same
    source and budget exports what the first one exported: every place the
    first run recorded is turned away by the ledger the second run loads. *)
Theorem second_run_exports_the_same (w1 w2 : Main.World) :
  same_sources w1 w2 ->
  (forall niches cities budget harvest1 harvest2 src clear work_dir
          (d0 d1 d2 : gmap string Main.file) rows1 rows2,
     Main.run_collection w1 niches cities budget harvest1 src clear work_dir d0
     = Ok (d1, rows1) ->
     Main.run_collection w2 niches cities budget harvest2 src false work_dir d1
     = Ok (d2, rows2) ->
     rows2 = rows1) /\
  (forall a1 a2 (d0 d1 d2 : gmap string Main.file) rows1 rows2,
     Main.source a2 = Main.source a1 -> Main.max_leads a2 = Main.max_leads a1 ->
     Main.clear_checkpoint a2 = false ->
     Main.main w1 a1 d0 = Ok (d1, rows1) ->
     Main.main w2 a2 d1 = Ok (d2, rows2) ->
     rows2 = rows1).
Proof.
  intros Hw. split.
  - intros niches cities budget harvest1 harvest2 src clear work_dir d0 d1 d2 rows1 rows2.
    apply run_collection_resume, Hw.
  - intros a1 a2 d0 d1 d2 rows1 rows2. apply main_resume, Hw.
Qed.

Lemma second_run_exports_the_same_witness :
  same_sources heidelberg heidelberg /\
  Main.main heidelberg (cli "google" 2 true) ∅ = Ok (fresh_run_files, fresh_run_rows) /\
  rows_of (Main.main heidelberg (cli "google" 2 true) fresh_run_files)
  = Some fresh_run_rows.
Proof.
  assert (Hw : same_sources heidelberg heidelberg) by (repeat split).
  assert (E1 : Main.main heidelberg (cli "google" 2 true) ∅
               = Ok (fresh_run_files, fresh_run_rows)) by (vm_compute; reflexivity).
  split; [exact Hw|]. split; [exact E1|].
  destruct (Main.main heidelberg (cli "google" 2 true) fresh_run_files)
    as [[d2 rows2]|e] eqn:E2.
  - cbn [rows_of]. f_equal.
    exact (proj2 (second_run_exports_the_same heidelberg heidelberg Hw)
             (cli "google" 2 true) (cli "google" 2 true) _ _ _ _ _
             eq_refl eq_refl eq_refl E1 E2).
  - assert (P : rows_of (Main.main heidelberg (cli "google" 2 true) fresh_run_files)
                <> None) by (vm_compute; discriminate).
    rewrite E2 in P. contradiction.
Defined.

(** ** The checkpoint a run leaves (main.py) *)

Section Frame.

Import Main.

Implicit Types (w : World) (a : Args) (st : state) (p : string).

(** The path the checkpoints of a run are written to. *)
Lemma files_checkpoint_if_due w a st p :
  p <> _writable_checkpoint_path (vercel w) (checkpoint_file a) ->
  files (checkpoint_if_due w a st) !! p = files st !! p.
Proof.
  intros Hp. unfold checkpoint_if_due.
  destruct (length (leads st) mod CHECKPOINT_INTERVAL =? 0); [|reflexivity].
  cbn [files]. apply save_checkpoint_other, Hp.
Qed.

Lemma files_google_places w a niche city places st p :
  p <> _writable_checkpoint_path (vercel w) (checkpoint_file a) ->
  files (google_places w a niche city places st) !! p = files st !! p.
Proof.
  intros Hp. revert st. induction places as [|place rest IH]; intros st; [reflexivity|].
  cbn [google_places].
  destruct (google_admit (seen_place_ids st) (seen_domains st) place) as [sets|];
    [|apply IH].
  match goal with
  | |- context [if budget_reached a ?s then _ else _] =>
      assert (E : files s !! p = files st !! p)
        by (rewrite files_checkpoint_if_due by exact Hp; reflexivity);
      destruct (budget_reached a s)
  end; [exact E|]. rewrite IH. exact E.
Qed.

Lemma files_google_cities w a niche cities st p :
  p <> _writable_checkpoint_path (vercel w) (checkpoint_file a) ->
  files (google_cities w a niche cities st) !! p = files st !! p.
Proof.
  intros Hp. revert st. induction cities as [|city rest IH]; intros st; [reflexivity|].
  cbn [google_cities]. destruct (budget_reached a st); [reflexivity|].
  destruct (collect_places_for_niche_city w niche city) as [places|e]; [|apply IH].
  rewrite IH. apply files_google_places, Hp.
Qed.

Lemma files_google_niches w a niches cities st p :
  p <> _writable_checkpoint_path (vercel w) (checkpoint_file a) ->
  files (google_niches w a niches cities st) !! p = files st !! p.
Proof.
  intros Hp. revert st. induction niches as [|niche rest IH]; intros st; [reflexivity|].
  cbn [google_niches]. destruct (budget_reached a st); [reflexivity|].
  rewrite IH. apply files_google_cities, Hp.
Qed.

Lemma files_osm_places a niche city places st cands :
  files (osm_places a niche city places st cands).1 = files st.
Proof.
  revert st cands. induction places as [|place rest IH]; intros st cands; [reflexivity|].
  cbn [osm_places].
  destruct (osm_admit (seen_place_ids st) (seen_domains st) place) as [sets|];
    [|apply IH].
  destruct (extract_emails a && truthy (OsmPlaces.website place)).
  - match goal with
    | |- context [if budget_reached a ?s then _ else _] => destruct (budget_reached a s)
    end; [reflexivity|]. rewrite IH. reflexivity.
  - rewrite osm_place_to_lead_raises. reflexivity.
Qed.

Lemma files_osm_cities w a niche cities st p :
  p <> _writable_checkpoint_path (vercel w) (checkpoint_file a) ->
  files (osm_cities w a niche cities st) !! p = files st !! p.
Proof.
  intros Hp. revert st. induction cities as [|city rest IH]; intros st; [reflexivity|].
  cbn [osm_cities]. destruct (budget_reached a st); [reflexivity|].
  destruct (collect_osm_places_for_niche_city w niche city) as [places|e]; [|apply IH].
  pose proof (files_osm_places a niche city places st []) as H.
  destruct (osm_places a niche city places st []) as [st' [cands|e]]; cbn [fst] in H.
  - destruct cands as [|c cs].
    + rewrite IH, files_checkpoint_if_due, H by exact Hp. reflexivity.
    + rewrite collect_futures_raised.
      destruct (budget_reached a st'); [rewrite H; reflexivity|]. rewrite IH, H. reflexivity.
  - rewrite IH, H. reflexivity.
Qed.

Lemma files_osm_niches w a niches cities st p :
  p <> _writable_checkpoint_path (vercel w) (checkpoint_file a) ->
  files (osm_niches w a niches cities st) !! p = files st !! p.
Proof.
  intros Hp. revert st. induction niches as [|niche rest IH]; intros st; [reflexivity|].
  cbn [osm_niches]. destruct (budget_reached a st); [reflexivity|].
  rewrite IH. apply files_osm_cities, Hp.
Qed.

Lemma files_run_source w a niches cities st st' p :
  p <> _writable_checkpoint_path (vercel w) (checkpoint_file a) ->
  run_source w a niches cities st = Ok st' ->
  files st' !! p = files st !! p.
Proof.
  intros Hp. unfold run_source. destruct (String.eqb (source a) "google").
  - unfold _run_google. destruct (google_client w); [|discriminate].
    intros [= <-]. apply files_google_niches, Hp.
  - intros [= <-]. apply files_osm_niches, Hp.
Qed.

Lemma files_loaded_state w (d : gmap string file) cf : files (loaded_state w d cf) = d.
Proof.
  unfold loaded_state. destruct (load_checkpoint (vercel w) d cf) as [[l i] o]. reflexivity.
Qed.

Lemma loaded_final_save w cf st :
  leads (loaded_state w (final_save w cf st) cf) = leads st.
Proof. exact (proj1 (loaded_after_save w w cf st eq_refl)). Qed.

Lemma cleared_other (d : gmap string file) (b : bool) q p :
  p <> q -> (if b then delete q d else d) !! p = d !! p.
Proof. intros Hp. destruct b; [|reflexivity]. apply lookup_delete_ne. congruence. Qed.

Lemma run_collection_other w niches cities budget harvest src clear work_dir
    (d d' : gmap string file) rows p :
  run_collection w niches cities budget harvest src clear work_dir d = Ok (d', rows) ->
  p <> _writable_checkpoint_path (vercel w) (collection_checkpoint w work_dir) ->
  d' !! p = d !! p.
Proof.
  destruct niches as [|n ns]; [discriminate|].
  destruct cities as [|c cs]; [destruct ns; discriminate|].
  rewrite run_collection_unfold. cbv zeta.
  match goal with
  | |- context [run_source w ?a _ _ ?st] =>
      destruct (run_source w a (n :: ns) (c :: cs) st) as [st'|e] eqn:R
  end; [|discriminate].
  intros [= <- <-] Hp. unfold final_save.
  rewrite save_checkpoint_other by exact Hp.
  rewrite (fun H => files_run_source _ _ _ _ _ _ p H R) by exact Hp.
  rewrite files_loaded_state. apply cleared_other, Hp.
Qed.

End Frame.

(** X19.  A collection reads and writes one checkpoint file.  Every other file of
    the store is as before when [run_collection] returns, and the file it
    exported is the export of the leads its checkpoint then holds.  The
    same is true of [main], whose file is the default one; the file
    [--clear-checkpoint] deletes is then the only other one it may touch. *)
Theorem collection_leaves_checkpoint (w : Main.World) :
  (forall niches cities budget harvest src clear work_dir
          (d d' : gmap string Main.file) rows,
     Main.run_collection w niches cities budget harvest src clear work_dir d = Ok (d', rows) ->
     rows = Main.export_csv
              (Main.leads (Main.loaded_state w d' (collection_checkpoint w work_dir))) true /\
     forall p,
       p <> Main._writable_checkpoint_path (Main.vercel w) (collection_checkpoint w work_dir) ->
       d' !! p = d !! p) /\
  (forall a (d d' : gmap string Main.file) rows,
     Main.main w a d = Ok (d', rows) ->
     rows = Main.export_csv (Main.leads (Main.loaded_state w d' None)) true /\
     forall p,
       p <> Main._writable_checkpoint_path (Main.vercel w) None ->
       p <> Main.CHECKPOINT_FILE ->
       d' !! p = d !! p).
Proof.
  split.
  - intros niches cities budget harvest src clear work_dir d d' rows R. split.
    + destruct niches as [|n ns]; [discriminate|].
      destruct cities as [|c cs]; [destruct ns; discriminate|].
      rewrite run_collection_unfold in R. cbv zeta in R.
      match type of R with
      | context [Main.run_source w ?a _ _ ?st] =>
          destruct (Main.run_source w a (n :: ns) (c :: cs) st) as [st'|e]
      end; [|discriminate].
      injection R as <- <-. rewrite loaded_final_save. reflexivity.
    + intros p Hp. exact (run_collection_other _ _ _ _ _ _ _ _ _ _ _ p R Hp).
  - intros a d d' rows. unfold Main.main.
    cbn [Main.clear_checkpoint Main.max_leads].
    set (d0 := if Main.clear_checkpoint a && bool_decide (is_Some (d !! Main.CHECKPOINT_FILE))
               then delete Main.CHECKPOINT_FILE d else d).
    assert (Hd0 : forall p, p <> Main.CHECKPOINT_FILE -> d0 !! p = d !! p).
    { intros p Hp. apply cleared_other, Hp. }
    match goal with
    | |- context [if Main.budget_reached ?a' ?st then _ else _] =>
        destruct (Main.budget_reached a' st)
    end.
    + intros [= <- <-]. split; [reflexivity|]. intros p _ Hp. apply Hd0, Hp.
    + match goal with
      | |- context [Main.run_source w ?a' _ _ ?st] =>
          destruct (Main.run_source w a' [] [] st) as [st'|e] eqn:R
      end; [|discriminate].
      intros [= <- <-]. split; [rewrite loaded_final_save; reflexivity|].
      intros p Hp Hp'. unfold Main.final_save.
      rewrite save_checkpoint_other by exact Hp.
      rewrite (fun H => files_run_source _ _ _ _ _ _ p H R) by exact Hp.
    rewrite files_loaded_state.
      apply Hd0, Hp'.
Qed.

Lemma collection_leaves_checkpoint_witness :
  file_after
    (Main.run_collection heidelberg ["Pet services"] ["Ulm"] 2 false "google" false
       (Some "/tmp") {["outputs/checkpoint.json" := Main.Unreadable]})
    "outputs/checkpoint.json"
  = Some Main.Unreadable.
Proof.
  destruct (Main.run_collection heidelberg ["Pet services"] ["Ulm"] 2 false "google" false
              (Some "/tmp") {["outputs/checkpoint.json" := Main.Unreadable]})
    as [[d' rows]|e] eqn:E.
  - cbn [file_after].
    destruct (proj1 (collection_leaves_checkpoint heidelberg) _ _ _ _ _ _ _ _ _ _ E) as [_ H].
    rewrite H.
    + apply lookup_singleton_eq.
    + change ("outputs/checkpoint.json" <> "/tmp/checkpoint.json"). discriminate.
  - assert (P : rows_of (Main.run_collection heidelberg ["Pet services"] ["Ulm"] 2 false
                           "google" false (Some "/tmp")
                           {["outputs/checkpoint.json" := Main.Unreadable]}) <> None)
      by (vm_compute; discriminate).
    rewrite E in P. contradiction.
Defined.

(** ** A run only appends (main.py) *)

Section Growth.

Import Main.

Implicit Types (w : World) (a : Args) (st : state).

Lemma grows_refl st : grows st st.
Proof. split; [reflexivity|]. split; reflexivity. Qed.

Lemma grows_trans st1 st2 st3 : grows st1 st2 -> grows st2 st3 -> grows st1 st3.
Proof.
  intros (P1 & I1 & D1) (P2 & I2 & D2).
  split; [etrans; eassumption|]. split; etrans; eassumption.
Qed.

Lemma grows_checkpoint_if_due w a st : grows st (checkpoint_if_due w a st).
Proof.
  unfold checkpoint_if_due. destruct (_ =? _); [|apply grows_refl].
  split; [reflexivity|]. split; reflexivity.
Qed.

Lemma grows_admit w a st lead ids' doms' :
  seen_place_ids st ⊆ ids' -> seen_domains st ⊆ doms' ->
  grows st (checkpoint_if_due w a (append_lead lead (record_admission st (ids', doms')))).
Proof.
  intros Hi Hd. eapply grows_trans; [|apply grows_checkpoint_if_due].
  split; [|split; assumption]. cbn. apply prefix_app_r. reflexivity.
Qed.

Lemma grows_google_places w a niche city places st :
  grows st (google_places w a niche city places st).
Proof.
  revert st. induction places as [|place rest IH]; intros st; [apply grows_refl|].
  cbn [google_places].
  destruct (google_admit (seen_place_ids st) (seen_domains st) place) as [[ids' doms']|] eqn:A;
    [|apply IH].
  apply google_admit_records in A as [-> ->].
  match goal with
  | |- context [if budget_reached a ?s then _ else _] =>
      assert (G : grows st s) by (apply grows_admit; set_solver);
      destruct (budget_reached a s)
  end; [exact G|]. eapply grows_trans; [exact G|apply IH].
Qed.

Lemma grows_google_cities w a niche cities st :
  grows st (google_cities w a niche cities st).
Proof.
  revert st. induction cities as [|city rest IH]; intros st; [apply grows_refl|].
  cbn [google_cities]. destruct (budget_reached a st); [apply grows_refl|].
  destruct (collect_places_for_niche_city w niche city) as [places|e]; [|apply IH].
  eapply grows_trans; [apply grows_google_places|apply IH].
Qed.

Lemma grows_google_niches w a niches cities st :
  grows st (google_niches w a niches cities st).
Proof.
  revert st. induction niches as [|niche rest IH]; intros st; [apply grows_refl|].
  cbn [google_niches]. destruct (budget_reached a st); [apply grows_refl|].
  eapply grows_trans; [apply grows_google_cities|apply IH].
Qed.

Lemma grows_osm_places a niche city places st cands :
  grows st (osm_places a niche city places st cands).1.
Proof.
  revert st cands. induction places as [|place rest IH]; intros st cands;
    [apply grows_refl|].
  cbn [osm_places].
  destruct (osm_admit (seen_place_ids st) (seen_domains st) place) as [[ids' doms']|] eqn:A;
    [|apply IH].
  apply osm_admit_records in A as [-> ->].
  assert (G : grows st
                (record_admission st
                   ({[OsmPlaces.place_id place]} ∪ seen_place_ids st,
                    if truthy (osm_domain place)
                    then {[osm_domain place]} ∪ seen_domains st else seen_domains st))).
  { split; [reflexivity|]. split; cbn; [set_solver|].
    destruct (truthy (osm_domain place)); set_solver. }
  destruct (extract_emails a && truthy (OsmPlaces.website place)).
  - match goal with
    | |- context [if budget_reached a ?s then _ else _] => destruct (budget_reached a s)
    end; [exact G|]. eapply grows_trans; [exact G|apply IH].
  - rewrite osm_place_to_lead_raises. exact G.
Qed.

Lemma grows_osm_cities w a niche cities st :
  grows st (osm_cities w a niche cities st).
Proof.
  revert st. induction cities as [|city rest IH]; intros st; [apply grows_refl|].
  cbn [osm_cities]. destruct (budget_reached a st); [apply grows_refl|].
  destruct (collect_osm_places_for_niche_city w niche city) as [places|e]; [|apply IH].
  pose proof (grows_osm_places a niche city places st []) as G.
  destruct (osm_places a niche city places st []) as [st' [cands|e]]; cbn [fst] in G.
  - destruct cands as [|c cs].
    + eapply grows_trans; [exact G|].
      eapply grows_trans; [apply grows_checkpoint_if_due|apply IH].
    + rewrite collect_futures_raised.
      destruct (budget_reached a st'); [exact G|].
      eapply grows_trans; [exact G|apply IH].
  - eapply grows_trans; [exact G|apply IH].
Qed.

Lemma grows_osm_niches w a niches cities st :
  grows st (osm_niches w a niches cities st).
Proof.
  revert st. induction niches as [|niche rest IH]; intros st; [apply grows_refl|].
  cbn [osm_niches]. destruct (budget_reached a st); [apply grows_refl|].
  eapply grows_trans; [apply grows_osm_cities|apply IH].
Qed.

Lemma grows_run_source w a niches cities st st' :
  run_source w a niches cities st = Ok st' -> grows st st'.
Proof.
  unfold run_source. destruct (String.eqb (source a) "google").
  - unfold _run_google. destruct (google_client w); [|discriminate].
    intros [= <-]. apply grows_google_niches.
  - intros [= <-]. apply grows_osm_niches.
Qed.

End Growth.

(** X21.  A run only appends.  The leads it starts from are, in their order, the
    first leads it ends with, and no identity key or domain leaves the
    ledger; so a collection that resumes from a checkpoint leaves a
    checkpoint that begins with the leads of the old one. *)
Theorem run_only_appends (w : Main.World) :
  (forall a niches cities st st',
     Main.run_source w a niches cities st = Ok st' -> grows st st') /\
  (forall niches cities budget harvest src work_dir (d d' : gmap string Main.file) rows,
     Main.run_collection w niches cities budget harvest src false work_dir d = Ok (d', rows) ->
     Main.leads (Main.loaded_state w d (collection_checkpoint w work_dir))
     `prefix_of` Main.leads (Main.loaded_state w d' (collection_checkpoint w work_dir))).
Proof.
  split.
  - intros a niches cities st st'. apply grows_run_source.
  - intros niches cities budget harvest src work_dir d d' rows.
    destruct niches as [|n ns]; [discriminate|].
    destruct cities as [|c cs]; [destruct ns; discriminate|].
    rewrite run_collection_unfold. cbv zeta. cbn [andb].
    match goal with
    | |- context [Main.run_source w ?a _ _ ?st] =>
        destruct (Main.run_source w a (n :: ns) (c :: cs) st) as [st'|e] eqn:R
    end; [|discriminate].
    intros [= <- <-]. rewrite loaded_final_save.
    exact (proj1 (grows_run_source _ _ _ _ _ _ R)).
Qed.

Lemma run_only_appends_witness :
  match Main.run_source heidelberg (cli "google" 5 false) ["Dentists"] ["Heidelberg"]
          (Main.loaded_state heidelberg three_leads None) with
  | Ok st' => grows (Main.loaded_state heidelberg three_leads None) st'
  | Raise _ => False
  end.
Proof.
  destruct (Main.run_source heidelberg (cli "google" 5 false) ["Dentists"] ["Heidelberg"]
              (Main.loaded_state heidelberg three_leads None)) as [st'|e] eqn:R.
  - exact (proj1 (run_only_appends heidelberg) _ _ _ _ _ R).
  - assert (P : returned (Main.run_source heidelberg (cli "google" 5 false) ["Dentists"]
                            ["Heidelberg"] (Main.loaded_state heidelberg three_leads None))
                = true) by (vm_compute; reflexivity).
    rewrite R in P. discriminate P.
Defined.

(** ** The request handler (api/generate.py) *)

Section Handler.

Import ApiGenerate.

Lemma is_empty_as_list x : is_empty (or_empty x) = true -> as_list (or_empty x) = [].
Proof.
  destruct x as [|s|[|n l]|[|] text]; cbn [or_empty].
  - reflexivity.
  - destruct (truthy s) eqn:T; cbn [is_empty as_list]; [|reflexivity].
    rewrite T. discriminate.
  - reflexivity.
  - discriminate.
  - discriminate.
  - reflexivity.
Qed.

Lemma truthy_empty s : truthy s = false <-> s = "".
Proof. destruct s; cbn; split; congruence. Qed.

(** The names that are left of a value. *)
Lemma no_name_left x :
  as_list (or_empty x) = [] <->
  x = Missing \/ x = Text "" \/ (exists text, x = Other false text)
  \/ exists l, x = Names l /\ Forall (fun s => strip s = "") l.
Proof.
  destruct x as [|s|l|[|] text]; cbn [or_empty as_list].
  - split; [auto|reflexivity].
  - destruct (truthy s) eqn:T; cbn [as_list].
    + split; [discriminate|].
      intros [H | [[= ->] | [[text H] | (l & H & _)]]]; discriminate.
    + apply truthy_empty in T as ->. split; [auto|reflexivity].
  - split.
    + intros H. right. right. right. exists l. split; [reflexivity|].
      induction l as [|s l IH]; [constructor|].
      cbn [map List.filter] in H. destruct (truthy (strip s)) eqn:T; [discriminate H|].
      constructor; [apply truthy_empty, T|apply IH, H].
    + intros [H | [H | [[text H] | (l' & [= <-] & H)]]]; try discriminate.
      induction H as [|s l Hs H IH]; [reflexivity|].
      cbn [map List.filter]. rewrite Hs. exact IH.
  - split; [discriminate|].
    intros [H | [H | [[text' H] | (l & H & _)]]]; discriminate.
  - split; [|reflexivity]. intros _. right. right. left. eauto.
Qed.

(** The handler, by the names that are left of the request. *)
Lemma do_POST_cases w data n d :
  default (Ok 15%Z) (b_max_leads data) = Ok n ->
  let niches := as_list (or_empty (b_niches data)) in
  let cities := as_list (or_empty (b_cities data)) in
  let budget := Z.min 500 (Z.max 1 n) in
  (niches = [] \/ cities = []) /\ do_POST w (Object data) d = Ok (d, SendJson 400)
  \/ niches <> [] /\ cities <> [] /\
     do_POST w (Object data) d =
     match Main.run_collection (Main.with_sleep_web w "0.15") niches cities budget
             (default true (b_extract_emails data)) "osm" true (Some "/tmp") d with
     | Raise ValueError => Ok (d, SendJson 400)
     | Raise SystemExit => Raise SystemExit
     | Raise _ => Ok (d, SendJson 500)
     | Ok (d', rows) => Ok (d', SendCsv rows)
     end.
Proof.
  intros Hn niches cities budget. unfold do_POST. rewrite Hn.
  destruct (is_empty (or_empty (b_niches data))) eqn:En.
  { left. split; [left; apply is_empty_as_list, En|reflexivity]. }
  destruct (is_empty (or_empty (b_cities data))) eqn:Ec.
  { left. split; [right; apply is_empty_as_list, Ec|reflexivity]. }
  cbn [orb]. fold niches cities budget.
  destruct (decide (niches = [])) as [Hni | Hni].
  { left. split; [left; exact Hni|]. rewrite bool_decide_eq_false_2 by tauto. reflexivity. }
  destruct (decide (cities = [])) as [Hc | Hc].
  { left. split; [right; exact Hc|].
    rewrite (bool_decide_eq_false_2 (cities <> [])) by tauto.
    rewrite orb_true_r. reflexivity. }
  right. split; [exact Hni|]. split; [exact Hc|].
  rewrite !bool_decide_eq_true_2 by assumption. reflexivity.
Qed.

(** The collection the handler asks for returns. *)
Lemma osm_collection_returns w n ns c cs budget harvest clear work_dir d :
  exists d' rows,
    Main.run_collection w (n :: ns) (c :: cs) budget harvest "osm" clear work_dir d
    = Ok (d', rows).
Proof.
  rewrite run_collection_unfold. cbv zeta.
  match goal with
  | |- context [Main.run_source w ?a ?x ?y ?st] =>
      destruct (run_source_osm w a x y st) as [E _]; [discriminate|]; rewrite E
  end.
  eauto.
Qed.

End Handler.

(** X20.  [do_POST] raises, and sends nothing, exactly when the reading or
    decoding of the body raises past the first [try], the JSON body is no
    object, or [int()] refuses the value under ["max_leads"].  When it
    answers, the answer is 400 or the file, and it is 400 exactly when the
    body is not JSON or no name is left of the niches or of the cities; the
    store is then as it was.  No name is left of a value that is missing,
    an empty string, another value that counts as false, or a list whose
    entries are all blank; a string that is not empty is kept as it is,
    blank or not.  In every other case the handler runs the collection
    from a cleared checkpoint under /tmp with the budget clamped to
    [1, 500]: the file it sends holds at most that many leads, at most 500
    whatever was asked for, and no file other than /tmp/checkpoint.json is
    changed. *)
Theorem do_POST_answers (w : Main.World) (body : ApiGenerate.request)
    (d : gmap string Main.file) :
  (forall e,
     ApiGenerate.do_POST w body d = Raise e <->
     body = ApiGenerate.Broken e \/
     (body = ApiGenerate.NoObject /\ e = AttributeError) \/
     exists data,
       body = ApiGenerate.Object data /\ ApiGenerate.b_max_leads data = Some (Raise e)) /\
  (forall d' response,
     ApiGenerate.do_POST w body d = Ok (d', response) ->
     (response = ApiGenerate.SendJson 400 \/ exists rows, response = ApiGenerate.SendCsv rows) /\
     (response = ApiGenerate.SendJson 400 <->
      body = ApiGenerate.NotJson \/
      exists data, body = ApiGenerate.Object data /\
        (ApiGenerate.as_list (ApiGenerate.or_empty (ApiGenerate.b_niches data)) = [] \/
         ApiGenerate.as_list (ApiGenerate.or_empty (ApiGenerate.b_cities data)) = [])) /\
     (response = ApiGenerate.SendJson 400 -> d' = d) /\
     (forall rows, response = ApiGenerate.SendCsv rows ->
        exists data n,
          body = ApiGenerate.Object data /\
          default (Ok 15%Z) (ApiGenerate.b_max_leads data) = Ok n /\
          (exported rows <= Z.min 500 (Z.max 1 n))%Z /\
          (exported rows <= 500)%Z) /\
     (forall p, p <> "/tmp/checkpoint.json" -> d' !! p = d !! p)) /\
  (forall x,
     ApiGenerate.as_list (ApiGenerate.or_empty x) = [] <->
     x = ApiGenerate.Missing \/ x = ApiGenerate.Text ""
     \/ (exists text, x = ApiGenerate.Other false text)
     \/ exists l, x = ApiGenerate.Names l /\ Forall (fun s => strip s = "") l) /\
  (forall s, s <> "" ->
     ApiGenerate.as_list (ApiGenerate.or_empty (ApiGenerate.Text s)) = [s]).
Proof.
  split; [|split; [|split; [exact no_name_left|]]].
  - intros e. destruct body as [|x| |data].
    + cbn. split; [discriminate|].
      intros [H | [[H _] | (data & H & _)]]; discriminate H.
    + cbn. split; [intros [= <-]; auto|].
      intros [[= <-] | [[H _] | (data & H & _)]]; [reflexivity|discriminate H..].
    + cbn. split; [intros [= <-]; auto|].
      intros [H | [[_ ->] | (data & H & _)]]; [discriminate H|reflexivity|discriminate H].
    + destruct (default (Ok 15%Z) (ApiGenerate.b_max_leads data)) as [n|x] eqn:Hn.
      * split.
        -- intros H. exfalso.
           destruct (do_POST_cases w data n d Hn) as [[_ E] | (Hni & Hc & E)];
             rewrite E in H; [discriminate H|].
           destruct (ApiGenerate.as_list (ApiGenerate.or_empty (ApiGenerate.b_niches data)))
             as [|ni nis]; [contradiction|].
           destruct (ApiGenerate.as_list (ApiGenerate.or_empty (ApiGenerate.b_cities data)))
             as [|c cs]; [contradiction|].
           destruct (osm_collection_returns (Main.with_sleep_web w "0.15") ni nis c cs
                       (Z.min 500 (Z.max 1 n))
                       (default true (ApiGenerate.b_extract_emails data)) true
                       (Some "/tmp") d) as (d1 & rows & R).
           rewrite R in H. discriminate H.
        -- intros [H | [[H _] | (data' & [= <-] & H)]]; [discriminate H..|].
           rewrite H in Hn. discriminate Hn.
      * assert (Hx : ApiGenerate.b_max_leads data = Some (Raise x)).
        { destruct (ApiGenerate.b_max_leads data) as [[m|y]|]; [discriminate Hn| |discriminate Hn].
          cbn in Hn. congruence. }
        unfold ApiGenerate.do_POST. rewrite Hn. split.
        -- intros [= <-]. right. right. eauto.
        -- intros [H | [[H _] | (data' & [= <-] & H)]]; [discriminate H..|]. congruence.
  - intros d' response H. destruct body as [|x| |data].
    + cbn in H. injection H as <- <-.
      split; [auto|]. split; [split; auto|]. split; [reflexivity|].
      split; [discriminate|reflexivity].
    + discriminate H.
    + discriminate H.
    + destruct (default (Ok 15%Z) (ApiGenerate.b_max_leads data)) as [n|x] eqn:Hn.
      2: { unfold ApiGenerate.do_POST in H. rewrite Hn in H. discriminate H. }
      destruct (do_POST_cases w data n d Hn) as [[Hempty E] | (Hni & Hc & E)];
        rewrite E in H.
      { injection H as <- <-. split; [auto|]. split; [split; eauto|].
        split; [reflexivity|]. split; [discriminate|reflexivity]. }
      remember (ApiGenerate.as_list (ApiGenerate.or_empty (ApiGenerate.b_niches data)))
        as niches eqn:En.
      remember (ApiGenerate.as_list (ApiGenerate.or_empty (ApiGenerate.b_cities data)))
        as cities eqn:Ec.
      destruct niches as [|ni nis]; [contradiction|].
      destruct cities as [|c cs]; [contradiction|].
      destruct (osm_collection_returns (Main.with_sleep_web w "0.15") ni nis c cs
                  (Z.min 500 (Z.max 1 n))
                  (default true (ApiGenerate.b_extract_emails data)) true
                  (Some "/tmp") d) as (d1 & rows & R).
      rewrite R in H. injection H as <- <-.
      split; [right; eauto|]. split; [|split; [discriminate|split]].
      * split; [discriminate|]. intros [H | (data' & [= <-] & [H | H])]; congruence.
      * intros rows' [= <-]. exists data, n. split; [reflexivity|]. split; [exact Hn|].
        pose proof (run_collection_cleared _ _ _ _ _ _ _ _ _ _ R) as B. lia.
      * intros p Hp. exact (run_collection_other _ _ _ _ _ _ _ _ _ _ _ p R Hp).
  - intros s Hs. cbn [ApiGenerate.or_empty].
    destruct (truthy s) eqn:T; [reflexivity|].
    apply truthy_empty in T. contradiction.
Qed.

Lemma do_POST_answers_witness :
  answer (ApiGenerate.do_POST heidelberg
            (ApiGenerate.Object
               {| ApiGenerate.b_niches := ApiGenerate.Names ["  "; ""];
                  ApiGenerate.b_cities := ApiGenerate.Text "Heidelberg";
                  ApiGenerate.b_max_leads := Some (Ok 9000%Z);
                  ApiGenerate.b_extract_emails := None |}) ∅)
  = Some (ApiGenerate.SendJson 400) /\
  (exists rows,
     answer (ApiGenerate.do_POST heidelberg
               (ApiGenerate.Object
                  {| ApiGenerate.b_niches := ApiGenerate.Text "  ";
                     ApiGenerate.b_cities := ApiGenerate.Text "Heidelberg";
                     ApiGenerate.b_max_leads := Some (Ok 9000%Z);
                     ApiGenerate.b_extract_emails := None |}) ∅)
     = Some (ApiGenerate.SendCsv rows) /\ (exported rows <= 500)%Z) /\
  ApiGenerate.do_POST heidelberg
    (ApiGenerate.Object
       {| ApiGenerate.b_niches := ApiGenerate.Missing;
          ApiGenerate.b_cities := ApiGenerate.Missing;
          ApiGenerate.b_max_leads := Some (Raise ValueError);
          ApiGenerate.b_extract_emails := None |}) ∅
  = Raise ValueError.
Proof.
  split; [vm_compute; reflexivity|]. split.
  - set (body := ApiGenerate.Object
                   {| ApiGenerate.b_niches := ApiGenerate.Text "  ";
                      ApiGenerate.b_cities := ApiGenerate.Text "Heidelberg";
                      ApiGenerate.b_max_leads := Some (Ok 9000%Z);
                      ApiGenerate.b_extract_emails := None |}).
    assert (P : exists rows,
               answer (ApiGenerate.do_POST heidelberg body ∅)
               = Some (ApiGenerate.SendCsv rows)) by (vm_compute; eexists; reflexivity).
    destruct P as [rows P]. exists rows. split; [exact P|].
    destruct (ApiGenerate.do_POST heidelberg body ∅) as [[d' response]|e] eqn:E;
      [|discriminate P].
    injection P as ->.
    destruct (proj1 (proj2 (do_POST_answers heidelberg body ∅)) d' _ E)
      as (_ & _ & _ & H & _).
    destruct (H rows eq_refl) as (data & n & _ & _ & _ & B). exact B.
  - apply (proj1 (do_POST_answers heidelberg _ ∅)). right. right.
    eexists. split; reflexivity.
Defined.

(** ** The checks of test_integration.py *)

Example test_places_utils :
  Places._normalize_website "http://example.com?utm_source=fb" = "http://example.com" /\
  Places._normalize_website "example.com" = "https://example.com" /\
  Places._extract_domain "https://www.foo.de/kontakt" = "foo.de".
Proof. repeat split; reflexivity. Qed.

Example test_email_extractor :
  EmailExtractor.extract_emails_from_html "Contact: info@business.de or support@example.com"
  = [("info@business.de", "page")].
Proof. vm_compute. reflexivity. Qed.

(** [test_csv_export] expects both test leads in the file; called as the
    test calls it (the flag left at its default), [export_csv] writes the
    header alone, and writes the two leads only with the flag cleared. *)
Example test_csv_export :
  Main.export_csv test_leads true = [Main.columns] /\
  length (Main.export_csv test_leads false) = 3.
Proof. split; vm_compute; reflexivity. Qed.

(** The regular expression backtracks to the last dot that two letters
    follow. *)
Example finditer_backtracks :
  EmailExtractor.EMAIL_PATTERN_finditer "x a@b.c.de1.x, q@r.com-1 zz@y.z u@.de"
  = ["a@b.c.de"; "q@r.com"].
Proof. vm_compute. reflexivity. Qed.
